(** * Personallist.js: the NPC comment parser, the personal-list registry and
      the description paginator, embedded in Rocq.

    Conventions of the embedding.
    - A JavaScript string is a [string]; each [ascii] stands for one UTF-16
      code unit below 256.
    - A JavaScript number that the plugin obtains from [parseInt] is a
      [jsnum]: either [NaN] or an exact integer.  (Digit strings beyond 2^53
      lose precision in JavaScript; [-0] is identified with [0].)
    - A number passed as an id is an integer; [String] prints it digit for
      digit as long as its magnitude is below 2^53 ([safeBound]).
    - Pixel measures (widths, heights) are integers.
    - A callback is an opaque handle; calling it is recorded in a call log.
      What a callback's own body does is outside the embedding: it is taken
      to return normally and not to re-enter the registry.
    - [_personalListeners] is read as a dictionary from ids to listener
      arrays.  It is a plain object, and of the names a plain object
      inherits one does not fit that reading: [__proto__] names no entry
      but the object every entry inherits from, so that a registration
      under it would be shared by all later ones.  What is proved of
      [onPersonalAdded] and [onPersonalRemoved] is proved for tables on
      which nothing is registered under [__proto__] ([plainTable]). *)

From Stdlib Require Import ZArith Ascii String DecimalString.
From Stdlib Require DecimalPos DecimalFacts.
From stdpp Require Import gmap strings list fin_maps.

Local Open Scope Z_scope.

(** ** JavaScript string primitives used by the plugin *)

Module JsString.

(** White space and line terminators removed by [String.prototype.trim]
    (and skipped by [parseInt]), among the code units below 256: the six
    ASCII ones and the no-break space. *)
Definition is_ws (c : ascii) : bool :=
  Ascii.is_space c || Ascii.eqb c "160".

Fixpoint trimStart (s : string) : string :=
  match s with
  | EmptyString => EmptyString
  | String c s' => if is_ws c then trimStart s' else s
  end.

Fixpoint trimEnd (s : string) : string :=
  match s with
  | EmptyString => EmptyString
  | String c s' =>
      match trimEnd s' with
      | EmptyString => if is_ws c then EmptyString else String c EmptyString
      | t => String c t
      end
  end.

(** [s.trim()] *)
Definition trim (s : string) : string := trimEnd (trimStart s).

(** [s.startsWith(p)] *)
Definition startsWith (s p : string) : bool := String.prefix p s.

(** [s.includes(sub)] *)
Fixpoint includes (s sub : string) : bool :=
  String.prefix sub s ||
  match s with
  | EmptyString => false
  | String _ s' => includes s' sub
  end.

(** [s.slice(n)] for a non-negative [n] *)
Fixpoint slice (n : nat) (s : string) : string :=
  match n, s with
  | O, _ => s
  | S _, EmptyString => EmptyString
  | S n', String _ s' => slice n' s'
  end.

(** [s.split(sep)] for a one-character separator: never the empty array. *)
Fixpoint split (sep : ascii) (s : string) : list string :=
  match s with
  | EmptyString => [EmptyString]
  | String c s' =>
      if Ascii.eqb c sep then EmptyString :: split sep s'
      else match split sep s' with
           | [] => [String c EmptyString]
           | h :: t => String c h :: t
           end
  end.

(** The one-character string holding a line feed, written [\n] in the
    source. *)
Definition LF : string := String "010"%char EmptyString.

(** Truthiness of a string: every string but the empty one. *)
Definition truthy (s : string) : bool := negb (String.eqb s "").

(** [s || d] on strings *)
Definition or_else (s d : string) : string := if truthy s then s else d.

End JsString.

(** ** Numbers produced by [parseInt] and [String(...)] of an id *)

Inductive jsnum : Type :=
| NaN
| Num (z : Z).

Definition isNaN (n : jsnum) : bool :=
  match n with NaN => true | Num _ => false end.

Module JsNumber.
Import JsString.

Definition digit (c : ascii) : option Z := Z.of_nat <$> Ascii.is_nat c.

(** Value of the longest prefix of decimal digits; [acc] is [None] until
    a first digit has been read. *)
Fixpoint digits (acc : option Z) (s : string) : option Z :=
  match s with
  | EmptyString => acc
  | String c s' =>
      match digit c with
      | Some d => digits (Some (10 * default 0 acc + d)) s'
      | None => acc
      end
  end.

(** [parseInt(s, 10)]: leading white space skipped, an optional sign, then
    the longest run of digits; [NaN] when there is no digit. *)
Definition parseInt (s : string) : jsnum :=
  let t := trimStart s in
  let '(sign, body) :=
    match t with
    | String "-" r => (-1, r)
    | String "+" r => (1, r)
    | _ => (1, t)
    end in
  match digits None body with
  | None => NaN
  | Some n => Num (sign * n)
  end.

(** An id as script code passes it: a string or a number. *)
Inductive JsId : Type :=
| IdStr (s : string)
| IdNum (n : Z).

(** [String(id)]: a string is returned as it is, an integer is printed in
    decimal (exact for integers of magnitude below 2^53). *)
Definition ToString (i : JsId) : string :=
  match i with
  | IdStr s => s
  | IdNum n => NilZero.string_of_int (Z.to_int n)
  end.

End JsNumber.

(** ** Decimal numerals *)

Module Numeral.
Import JsString JsNumber.

Definition isDigit (c : ascii) : bool :=
  match digit c with Some _ => true | None => false end.

Definition allDigits (s : string) : bool :=
  forallb isDigit (list_ascii_of_string s).

(** Digits the first of which is not [0]. *)
Definition positiveNumeral (s : string) : bool :=
  match s with
  | EmptyString => false
  | String c _ => negb (Ascii.eqb c "0") && allDigits s
  end.

(** The canonical decimal numerals: [0] alone, or digits the first of
    which is not [0], with a minus sign in front for a negative number.
    No white space, no plus sign, no leading zero, no [-0]. *)
Definition canonical (s : string) : bool :=
  String.eqb s "0" || positiveNumeral s ||
  match s with
  | EmptyString => false
  | String c r => Ascii.eqb c "-" && positiveNumeral r
  end.

(** The number 2^53: every integer of smaller magnitude is a JavaScript
    number of its own, and [String] prints it digit for digit. *)
Definition safeBound : Z := 9007199254740992.

(** The value of the digits [u] read from the left after the value
    [acc]. *)
Fixpoint uvalue (acc : Z) (u : Decimal.uint) : Z :=
  match u with
  | Decimal.Nil => acc
  | Decimal.D0 l => uvalue (10 * acc) l
  | Decimal.D1 l => uvalue (10 * acc + 1) l
  | Decimal.D2 l => uvalue (10 * acc + 2) l
  | Decimal.D3 l => uvalue (10 * acc + 3) l
  | Decimal.D4 l => uvalue (10 * acc + 4) l
  | Decimal.D5 l => uvalue (10 * acc + 5) l
  | Decimal.D6 l => uvalue (10 * acc + 6) l
  | Decimal.D7 l => uvalue (10 * acc + 7) l
  | Decimal.D8 l => uvalue (10 * acc + 8) l
  | Decimal.D9 l => uvalue (10 * acc + 9) l
  end.

End Numeral.

(** ** parseNpcBlocks *)

Module Parser.
Import JsString JsNumber.

(** One entry of an event page's command list: [cmd.code] and
    [cmd.parameters[0]]. *)
Record Command : Type := mkCommand {
  code : Z;
  parameters0 : string
}.

Record Npc : Type := mkNpc {
  typeIsNPC : bool;
  id : string;
  name : string;
  category : string;
  faceName : string;
  faceIndex : jsnum;
  iconIndexes : list jsnum;
  notes : string
}.

(** The object literal assigned to [npc] at a [Type: NPC] line. *)
Definition freshNpc : Npc :=
  mkNpc true "" "" "" "" (Num 0) [] "".

Definition set_id (v : string) (n : Npc) : Npc :=
  mkNpc (typeIsNPC n) v (name n) (category n) (faceName n) (faceIndex n)
        (iconIndexes n) (notes n).
Definition set_name (v : string) (n : Npc) : Npc :=
  mkNpc (typeIsNPC n) (id n) v (category n) (faceName n) (faceIndex n)
        (iconIndexes n) (notes n).
Definition set_category (v : string) (n : Npc) : Npc :=
  mkNpc (typeIsNPC n) (id n) (name n) v (faceName n) (faceIndex n)
        (iconIndexes n) (notes n).
Definition set_face (fn : string) (fi : jsnum) (n : Npc) : Npc :=
  mkNpc (typeIsNPC n) (id n) (name n) (category n) fn fi
        (iconIndexes n) (notes n).
Definition set_iconIndexes (v : list jsnum) (n : Npc) : Npc :=
  mkNpc (typeIsNPC n) (id n) (name n) (category n) (faceName n) (faceIndex n)
        v (notes n).
Definition set_notes (v : string) (n : Npc) : Npc :=
  mkNpc (typeIsNPC n) (id n) (name n) (category n) (faceName n) (faceIndex n)
        (iconIndexes n) v.

(** The three variables of the closure: [results], [npc], [readingNote]. *)
Record PState : Type := mkPState {
  results : list Npc;
  npc : option Npc;
  readingNote : bool
}.

Definition initial : PState := mkPState [] None false.

(** [!wantedId || npc.id === wantedId]; [None] is the default [null]. *)
Definition wanted (wantedId : option string) (n : Npc) : bool :=
  match wantedId with
  | None => true
  | Some w => negb (truthy w) || String.eqb (id n) w
  end.

Definition pushCurrent (wantedId : option string) (st : PState) : PState :=
  match npc st with
  | Some n =>
      if typeIsNPC n && truthy (name n) && truthy (id n) then
        if wanted wantedId n
        then mkPState (results st ++ [n]) (npc st) (readingNote st)
        else st
      else st
  | None => st
  end.

Definition isComment (cmd : Command) : bool :=
  (code cmd =? 108) || (code cmd =? 408).

Definition isTypeNpc (line : string) : bool :=
  startsWith line "Type:" && includes line "NPC".

(** [Face:] branch *)
Definition parseFace (line : string) (n : Npc) : Npc :=
  let parts := split "," (slice 5 line) in
  let fn := match parts !! 0%nat with
            | Some s => or_else s ""
            | None => ""
            end in
  let fi := match parts !! 1%nat with
            | Some s => or_else s "0"
            | None => "0"
            end in
  set_face (trim fn) (parseInt fi) n.

(** [Icon:] branch *)
Definition parseIcons (line : string) : list jsnum :=
  take 3 (List.filter (fun n => negb (isNaN n))
            (map (fun s => parseInt (trim s)) (split "," (slice 5 line)))).

(** The chain of [if]/[else if] applied to a comment line while a draft is
    open. *)
Definition fieldStep (line : string) (n : Npc) (rn : bool) : Npc * bool :=
  if startsWith line "ID:" then (set_id (trim (slice 3 line)) n, rn)
  else if startsWith line "Name:" then (set_name (trim (slice 5 line)) n, rn)
  else if startsWith line "Category:"
    then (set_category (trim (slice 9 line)) n, rn)
  else if startsWith line "Face:" then (parseFace line n, rn)
  else if startsWith line "Icon:"
    then (set_iconIndexes (parseIcons line) n, rn)
  else if startsWith line "Details:"
    then (set_notes (trim (slice 8 line)) n, true)
  else if rn then (set_notes (notes n +:+ LF +:+ line) n, rn)
  else (n, rn).

(** The body of [list.forEach((cmd) => ...)]. *)
Definition step (wantedId : option string) (st : PState) (cmd : Command)
  : PState :=
  if negb (isComment cmd) then mkPState (results st) (npc st) false
  else
    let line := trim (parameters0 cmd) in
    if isTypeNpc line then
      mkPState (results (pushCurrent wantedId st)) (Some freshNpc) false
    else
      match npc st with
      | None => st
      | Some n =>
          let '(n', rn') := fieldStep line n (readingNote st) in
          mkPState (results st) (Some n') rn'
      end.

Definition parseNpcBlocks (cmds : list Command) (wantedId : option string)
  : list Npc :=
  results (pushCurrent wantedId (fold_left (step wantedId) cmds initial)).

(** A comment command (code 108) holding [s]. *)
Definition comment (s : string) : Command := mkCommand 108 s.

(** Classification of a trimmed comment line, used to state properties:
    one of the five field lines that are not [Details:] ... *)
Definition isFieldLine (line : string) : bool :=
  startsWith line "ID:" || startsWith line "Name:" ||
  startsWith line "Category:" || startsWith line "Face:" ||
  startsWith line "Icon:".

(** ... or a line that no branch recognises. *)
Definition isPlainLine (line : string) : bool :=
  negb (isTypeNpc line) && negb (isFieldLine line) &&
  negb (startsWith line "Details:").

(** A command that is a comment whose trimmed text starts with [ID:]. *)
Definition isIdCmd (cmd : Command) : bool :=
  isComment cmd && startsWith (trim (parameters0 cmd)) "ID:".

(** A command that is a comment opening a new draft. *)
Definition isTypeNpcCmd (cmd : Command) : bool :=
  isComment cmd && isTypeNpc (trim (parameters0 cmd)).

(** What [pushCurrent] lets through. *)
Definition emittable (wantedId : option string) (r : Npc) : Prop :=
  typeIsNPC r = true /\ name r <> "" /\ id r <> "" /\
  forall w, wantedId = Some w -> w <> "" -> id r = w.

End Parser.

(** ** The personal list kept on [$gameSystem] and its listeners *)

Module Registry.
Import JsString JsNumber Parser.

(** What a JavaScript function hands back, as far as the plugin's own
    functions go. *)
Inductive jsval : Type :=
| JUndefined
| JBool (b : bool).

Section WithCallback.

(** Handles of the functions passed to [onPersonalAdded] and
    [onPersonalRemoved]. *)
Context {Callback : Type}.

(** [_personalListeners[id]]: the arrays [added] and [removed]; an array
    not yet created is the empty one. *)
Record Listeners : Type := mkListeners {
  added : list Callback;
  removed : list Callback
}.

(** The part of [$gameSystem] the plugin owns, with the two logs that
    stand for its effects on the outside: the callbacks called, each
    with its argument, and the faces asked of [ImageManager.loadFace]. *)
Record GameSystem : Type := mkGameSystem {
  _personalList : list Npc;
  _personalListeners : gmap string Listeners;
  calls : list (Callback * string);
  loadedFaces : list string
}.

Definition newGameSystem : GameSystem := mkGameSystem [] ∅ [] [].

Definition set_personalList (l : list Npc) (gs : GameSystem)
  : GameSystem :=
  mkGameSystem l (_personalListeners gs) (calls gs) (loadedFaces gs).

Definition getPersonalList (gs : GameSystem) : list Npc :=
  _personalList gs.

Definition listenersOf (gs : GameSystem) (key : string) : Listeners :=
  default (mkListeners [] []) (_personalListeners gs !! key).

(** The name under which a plain object answers with the object it
    inherits from. *)
Definition protoKey : string := "__proto__".

(** Nothing is registered under [__proto__]: the table is the dictionary
    of its own entries. *)
Definition plainTable (gs : GameSystem) : Prop :=
  _personalListeners gs !! protoKey = None.

(** [onPersonalAdded] and [onPersonalRemoved], on a [plainTable] and for
    an id other than [__proto__]. *)
Definition onPersonalAdded (i : JsId) (callback : Callback)
  (gs : GameSystem) : GameSystem :=
  let key := ToString i in
  let L := listenersOf gs key in
  mkGameSystem (_personalList gs)
    (<[key := mkListeners (added L ++ [callback]) (removed L)]>
       (_personalListeners gs))
    (calls gs) (loadedFaces gs).

Definition onPersonalRemoved (i : JsId) (callback : Callback)
  (gs : GameSystem) : GameSystem :=
  let key := ToString i in
  let L := listenersOf gs key in
  mkGameSystem (_personalList gs)
    (<[key := mkListeners (added L) (removed L ++ [callback])]>
       (_personalListeners gs))
    (calls gs) (loadedFaces gs).

(** [cbs.forEach((cb) => cb(key))] *)
Definition fire (cbs : list Callback) (key : string) (gs : GameSystem)
  : GameSystem :=
  mkGameSystem (_personalList gs) (_personalListeners gs)
    (calls gs ++ map (fun cb => (cb, key)) cbs) (loadedFaces gs).

Definition _triggerPersonalAdded (i : JsId) (gs : GameSystem)
  : GameSystem :=
  let key := ToString i in
  match _personalListeners gs !! key with
  | Some L => fire (added L) key gs
  | None => gs
  end.

Definition _triggerPersonalRemoved (i : JsId) (gs : GameSystem)
  : GameSystem :=
  let key := ToString i in
  match _personalListeners gs !! key with
  | Some L => fire (removed L) key gs
  | None => gs
  end.

Definition isPersonalAdded (i : JsId) (gs : GameSystem) : bool :=
  existsb (fun item => String.eqb (id item) (ToString i))
    (_personalList gs).

(** [ImageManager.loadFace(name)] *)
Definition loadFace (face : string) (gs : GameSystem) : GameSystem :=
  mkGameSystem (_personalList gs) (_personalListeners gs) (calls gs)
    (loadedFaces gs ++ [face]).

(** [Object.assign(existing, npc)]: every own property of [npc] is
    copied onto [existing]; both carry the same eight properties. *)
Definition Object_assign (existing source : Npc) : Npc :=
  mkNpc (typeIsNPC source) (id source) (name source) (category source)
        (faceName source) (faceIndex source) (iconIndexes source)
        (notes source).

Definition upsert (n : Npc) (gs : GameSystem) : GameSystem :=
  let l := getPersonalList gs in
  let gs1 :=
    match list_find (fun i => id i = id n) l with
    | Some (k, existing) =>
        set_personalList (<[k := Object_assign existing n]> l) gs
    | None =>
        _triggerPersonalAdded (IdStr (id n))
          (set_personalList (l ++ [n]) gs)
    end in
  if truthy (faceName n) then loadFace (faceName n) gs1 else gs1.

(** The closure [removeId] of the [RemovePersonalFromList] command: its
    body ends without a [return]. *)
Definition removeId (idToDel : JsId) (gs : GameSystem)
  : jsval * GameSystem :=
  let key := ToString idToDel in
  let before := length (getPersonalList gs) in
  let gs1 :=
    set_personalList
      (filter (fun i => id i ≠ key) (getPersonalList gs)) gs in
  let gs2 :=
    if bool_decide (length (getPersonalList gs1) ≠ before)
    then _triggerPersonalRemoved (IdStr key) gs1
    else gs1 in
  (JUndefined, gs2).

(** [RemovePersonalFromList] with arguments: [args.forEach(removeId)];
    without: the ids parsed from the current page are removed. *)
Definition removeMany (ids : list string) (gs : GameSystem)
  : GameSystem :=
  fold_left (fun g i => snd (removeId (IdStr i) g)) ids gs.

Definition RemovePersonalFromList (args : list string)
  (page : list Command) (gs : GameSystem) : GameSystem :=
  match args with
  | [] => removeMany (map id (parseNpcBlocks page None)) gs
  | _ => removeMany args gs
  end.

(** [AddPersonalToList] with arguments: for each id, the current page of
    every event of the map is parsed for it; without: the current page
    of the running event is parsed with no filter. *)
Definition upsertAll (ns : list Npc) (gs : GameSystem) : GameSystem :=
  fold_left (fun g n => upsert n g) ns gs.

Definition AddPersonalToList (args : list string)
  (events : list (list Command)) (page : list Command)
  (gs : GameSystem) : GameSystem :=
  match args with
  | [] => upsertAll (parseNpcBlocks page None) gs
  | _ =>
      fold_left
        (fun g targetId =>
           fold_left
             (fun g' pg => upsertAll (parseNpcBlocks pg (Some targetId)) g')
             events g)
        args gs
  end.

(** The operations that change the list, and a run of them. *)
Inductive Op : Type :=
| OpUpsert (n : Npc)
| OpRemove (i : JsId)
| OpAdd (args : list string) (events : list (list Command))
        (page : list Command)
| OpRemoveCmd (args : list string) (page : list Command).

Definition apply (gs : GameSystem) (o : Op) : GameSystem :=
  match o with
  | OpUpsert n => upsert n gs
  | OpRemove i => snd (removeId i gs)
  | OpAdd args events page => AddPersonalToList args events page gs
  | OpRemoveCmd args page => RemovePersonalFromList args page gs
  end.

Definition run (ops : list Op) (gs : GameSystem) : GameSystem :=
  fold_left apply ops gs.

End WithCallback.

End Registry.

(** ** Window_PersonalDesc: word wrap and pages of a description *)

Module Paginator.
Import JsString.

(** What [setText] and [refresh] read from the window: its geometry and
    the text measurer of the rendering environment. *)
Record Window : Type := mkWindow {
  textPadding : Z;
  contentsWidth : Z;
  contentsHeight : Z;
  lineHeight : Z;
  textWidth : string -> Z
}.

Definition maxW (win : Window) : Z :=
  contentsWidth win - textPadding win * 2.

(** The body of [for (const w of words)]; the state is [(lines, cur)]. *)
Definition wrapStep (win : Window) (st : list string * string) (w : string)
  : list string * string :=
  let '(lines, cur) := st in
  let test := cur +:+ w +:+ " " in
  if (textWidth win test >? maxW win) && truthy cur
  then (lines ++ [w +:+ " "], w +:+ " ")
  else (<[(length lines - 1)%nat := test]> lines, test).

Definition words (text : string) : list string := split " " text.

Definition wrapFrom (win : Window) (st : list string * string)
  (ws : list string) : list string * string :=
  fold_left (wrapStep win) ws st.

(** The loop from its initial state [lines = [""]], [cur = ""]. *)
Definition wrapWords (win : Window) (ws : list string) : list string :=
  fst (wrapFrom win ([""], "") ws).

Definition wrap (win : Window) (text : string) : list string :=
  wrapWords win (words text).

(** The words of one line as [cur] accumulates them: each is followed by
    a blank. *)
Definition render (g : list string) : string :=
  fold_left (fun acc w => acc +:+ w +:+ " ") g "".

(** The state of the loop after the words [seen]: the lines are the
    renderings of non-empty groups of words that make up [seen], and
    [cur] is the last line. *)
Definition grouped (seen : list string) (st : list string * string)
  : Prop :=
  (seen = [] /\ st = ([""], "")) \/
  (exists (gs : list (list string)) (g : list string),
      g <> [] /\ Forall (fun g' => g' <> []) gs /\
      concat (gs ++ [g]) = seen /\
      st = (map render (gs ++ [g]), render g)).

(** The wrapped lines of a run of words that may be empty: no word, no
    line. *)
Definition linesOf (win : Window) (ws : list string) : list string :=
  match ws with
  | [] => []
  | _ :: _ => wrapWords win ws
  end.

(** [Math.max(1, Math.floor(contentsHeight / lh) - 1)], for a positive
    line height. *)
Definition linesPerPage (win : Window) : Z :=
  Z.max 1 (contentsHeight win / lineHeight win - 1).

(** [for (let i = 0; i < totalLines; i += linesPerPage)
      pages.push(lines.slice(i, i + linesPerPage))];
    [fuel] bounds the number of rounds. *)
Fixpoint pagesLoop (fuel : nat) (lines : list string) (n i : nat)
  : list (list string) :=
  match fuel with
  | O => []
  | S fuel' =>
      if (i <? length lines)%nat
      then take n (drop i lines) :: pagesLoop fuel' lines n (i + n)
      else []
  end.

Definition paginate (win : Window) (lines : list string)
  : list (list string) :=
  pagesLoop (length lines) lines (Z.to_nat (linesPerPage win)) 0.

Record Desc : Type := mkDesc {
  _pages : list (list string);
  _pageIdx : nat
}.

Definition setText (win : Window) (text : string) : Desc :=
  mkDesc (paginate win (wrap win text)) 0.

(** [refresh] draws the page indicator under [this._pages.length > 1]. *)
Definition footerShown (d : Desc) : bool :=
  (1 <? length (_pages d))%nat.

(** [update]: [active] is the window's flag, [back] stands for
    [pageup] or [left] being triggered, [forth] for [pagedown] or
    [right]. *)
Definition update (active back forth : bool) (d : Desc) : Desc :=
  if negb active || (length (_pages d) <? 2)%nat then d
  else
    let d1 :=
      if back && (0 <? _pageIdx d)%nat
      then mkDesc (_pages d) (_pageIdx d - 1) else d in
    if forth && (_pageIdx d1 <? length (_pages d1) - 1)%nat
    then mkDesc (_pages d1) (_pageIdx d1 + 1) else d1.

End Paginator.

(** ** Sample data for the worked instances *)

Module Samples.
Import JsString JsNumber Parser Registry Paginator.

Definition ann : Npc := mkNpc true "7" "Ann" "" "" (Num 0) [] "".
Definition ann2 : Npc :=
  mkNpc true "7" "Ann B." "Smith" "Actor1" (Num 3) [] "".
Definition bob : Npc := mkNpc true "8" "Bob" "" "" (Num 0) [] "".

(** Callbacks [10] and [20] listen for id [7] being added (one registered
    under the string, one under the number), [30] for its removal. *)
Definition gs_listening : @GameSystem nat :=
  onPersonalRemoved (IdStr "7") 30%nat
    (onPersonalAdded (IdNum 7) 20%nat
       (onPersonalAdded (IdStr "7") 10%nat newGameSystem)).

(** A window 50 pixels wide and 40 high, lines of 10 pixels, every
    character 10 pixels wide. *)
Definition win10 : Window :=
  mkWindow 0 50 40 10 (fun s => 10 * Z.of_nat (String.length s)).

End Samples.

(** ** Shapes of parsed records, used to state properties *)

Module ParserShape.
Import JsString JsNumber Parser.

(** A record whose id, name, category and face name carry no white space
    at either end, and whose icons are at most three numbers. *)
Definition tidy (r : Npc) : Prop :=
  trim (id r) = id r /\ trim (name r) = name r /\
  trim (category r) = category r /\ trim (faceName r) = faceName r /\
  (length (iconIndexes r) <= 3)%nat /\
  Forall (fun n => isNaN n = false) (iconIndexes r).

(** The loop state holds tidy records only, the draft included. *)
Definition tidyState (st : PState) : Prop :=
  Forall tidy (results st) /\ forall n, npc st = Some n -> tidy n.

(** The loop state with the records [pre] put in front of its results. *)
Definition shift (pre : list Npc) (st : PState) : PState :=
  mkPState (pre ++ results st) (npc st) (readingNote st).

(** How many commands of a list are [Type: NPC] comment lines. *)
Definition typeLines (cmds : list Command) : nat :=
  length (List.filter isTypeNpcCmd cmds).

End ParserShape.

(** ** More sample data *)

Module MoreSamples.
Import JsString JsNumber Parser Registry Paginator Samples.

(** Two event pages, one defining the id [7], one the id [8]. *)
Definition pageAnn : list Command :=
  map comment ["Type: NPC"; "ID: 7"; "Name: Ann"].
Definition pageBob : list Command :=
  map comment ["Type: NPC"; "ID: 8"; "Name: Bob"; "Icon: 1,2,3,4"].

End MoreSamples.

(** ** Window_PersonalDesc: drawing and page turning; the wrap of
       Window_PersonalDetails *)

Module Drawing.
Import JsString Paginator.

(** The lines of a wrap put end to end. *)
Definition flatten (lines : list string) : string :=
  fold_right String.append "" lines.

(** A line that holds one word only, or that is no wider than the text
    area. *)
Definition fitsOrSingle (win : Window) (g : list string) : Prop :=
  length g = 1%nat \/ textWidth win (render g) <= maxW win.

(** Where one line ends and the next begins, the first word of the next
    line was too wide to go onto the line before. *)
Definition breaksForced (win : Window) (groups : list (list string))
  : Prop :=
  forall (i : nat) (g1 g2 : list string) (w : string),
    groups !! i = Some g1 -> groups !! S i = Some g2 -> head g2 = Some w ->
    maxW win < textWidth win (render g1 +:+ w +:+ " ").

(** The state of the wrap loop after the words [seen], with the two
    properties above. *)
Definition tight (win : Window) (seen : list string)
  (st : list string * string) : Prop :=
  (seen = [] /\ st = ([""], "")) \/
  (exists (gs : list (list string)) (g : list string),
      g <> [] /\ Forall (fun g' => g' <> []) gs /\
      concat (gs ++ [g]) = seen /\
      st = (map render (gs ++ [g]), render g) /\
      Forall (fitsOrSingle win) (gs ++ [g]) /\
      breaksForced win (gs ++ [g])).

(** A run of [update] calls, each with its [active], [back] and [forth]. *)
Definition updates (inputs : list (bool * bool * bool)) (d : Desc) : Desc :=
  fold_left (fun d' '(active, back, forth) => update active back forth d')
    inputs d.

(** What is drawn onto the window contents: a text at [(x, y)] within
    [maxWidth], or the page indicator, whose text is built from the page
    number and the page count and drawn right-aligned. *)
Inductive Draw : Type :=
| DrawText (text : string) (x y maxWidth : Z)
| DrawIndicator (page total : nat) (x y maxWidth : Z).

(** The loop of [refresh] over the lines of the page, from line [i] on:
    it stops at the first line that would reach into the indicator's row. *)
Fixpoint drawLines (win : Window) (page : list string) (i : nat)
  : list Draw :=
  match page with
  | [] => []
  | l :: rest =>
      let y := Z.of_nat i * lineHeight win in
      if y + lineHeight win >? contentsHeight win - lineHeight win then []
      else DrawText l (textPadding win) y
             (contentsWidth win - textPadding win * 2)
           :: drawLines win rest (S i)
  end.

(** [Window_PersonalDesc.prototype.refresh], after [contents.clear()]. *)
Definition refresh (win : Window) (d : Desc) : list Draw :=
  let page := default [] (_pages d !! _pageIdx d) in
  drawLines win page 0 ++
  (if (1 <? length (_pages d))%nat
   then [DrawIndicator (_pageIdx d + 1) (length (_pages d))
           (textPadding win) (contentsHeight win - lineHeight win)
           (contentsWidth win - textPadding win * 2)]
   else []).

(** The body of the loop of [drawTextAutoWrap]; the state is the draws
    made, [line], [yy] and the index [n] of the word. *)
Definition autoWrapStep (win : Window) (x maxWidth lineHeight : Z)
  (st : list Draw * string * Z * nat) (w : string)
  : list Draw * string * Z * nat :=
  let '(draws, line, yy, n) := st in
  let testLine := line +:+ w +:+ " " in
  if (textWidth win testLine >? maxWidth) && (0 <? n)%nat
  then (draws ++ [DrawText line x yy maxWidth], w +:+ " ",
        yy + lineHeight, S n)
  else (draws, testLine, yy, S n).

(** [Window_PersonalDetails.prototype.drawTextAutoWrap] *)
Definition drawTextAutoWrap (win : Window) (text : string)
  (x y maxWidth lineHeight : Z) : list Draw :=
  let '(draws, line, yy, _) :=
    fold_left (autoWrapStep win x maxWidth lineHeight) (split " " text)
      ([], "", y, 0%nat) in
  draws ++ [DrawText line x yy maxWidth].

(** The relation kept between the loop of [drawTextAutoWrap] and the loop
    of [setText] over the same words. *)
Definition inStep (x y maxWidth lineHeight : Z)
  (st : list Draw * string * Z * nat) (ws : list string * string) : Prop :=
  let '(draws, line, yy, n) := st in
  exists closed : list string,
    fst ws = closed ++ [line] /\ snd ws = line /\
    draws = imap (fun i l => DrawText l x (y + Z.of_nat i * lineHeight)
                               maxWidth) closed /\
    yy = y + Z.of_nat (length closed) * lineHeight /\
    (0 <? n)%nat = truthy line.

End Drawing.

(** ** Window_PersonalDetails: the scrolled view *)

Module Details.
Import JsString Paginator.

(** The fields of the window, with the height of its contents bitmap and
    the vertical position of the sprite that shows it.  What [refresh]
    draws onto the bitmap is left out. *)
Record Details : Type := mkDetails {
  _text : string;
  _faceName : string;
  _faceIndex : jsnum;
  _npcName : string;
  _npcCategory : string;
  _scrollY : Z;
  _textHeight : Z;
  bitmapHeight : Z;
  spriteY : Z
}.

(** [refresh]: [faceHeight] stands for the engine's
    [Window_Base._faceHeight]. *)
Definition refresh (win : Window) (faceHeight : Z) (d : Details) : Details :=
  let lines := wrap win (_text d) in
  let faceOff := if truthy (_faceName d) then faceHeight + 10 else 0 in
  let textHeight := Z.of_nat (length lines) * lineHeight win + faceOff in
  mkDetails (_text d) (_faceName d) (_faceIndex d) (_npcName d)
    (_npcCategory d) (_scrollY d) textHeight
    (Z.max textHeight (contentsHeight win))
    (textPadding win - _scrollY d).

Definition setNpcData (win : Window) (faceHeight : Z)
  (faceName : string) (faceIndex : jsnum) (text name category : string)
  (d : Details) : Details :=
  refresh win faceHeight
    (mkDetails text faceName faceIndex name category 0 (_textHeight d)
       (bitmapHeight d) (spriteY d)).

Definition scrollTo (win : Window) (s : Z) (d : Details) : Details :=
  mkDetails (_text d) (_faceName d) (_faceIndex d) (_npcName d)
    (_npcCategory d) s (_textHeight d) (bitmapHeight d)
    (textPadding win - s).

(** [update]: [down] and [up] say whether the keys repeat. *)
Definition update (win : Window) (active down up : bool) (d : Details)
  : Details :=
  if active && (_textHeight d >? contentsHeight win) then
    let d1 :=
      if down
      then scrollTo win
             (Z.min (_scrollY d + lineHeight win)
                (_textHeight d - contentsHeight win)) d
      else d in
    if up
    then scrollTo win (Z.max (_scrollY d1 - lineHeight win) 0) d1
    else d1
  else d.

Definition updates (win : Window) (inputs : list (bool * bool * bool))
  (d : Details) : Details :=
  fold_left (fun d' '(active, down, up) => update win active down up d')
    inputs d.

End Details.

(** ** Scene_PersonalList: choosing a record *)

Module Scene.
Import JsString Parser Paginator.

(** What [Window_PersonalList.prototype.item] hands back. *)
Inductive Item : Type :=
| ItemNull
| ItemUndefined
| ItemNpc (n : Npc).

(** [item]: [data] is [this._data], [index] is [this.index()]. *)
Definition item (data : list Npc) (index : Z) : Item :=
  if index >=? 0 then
    match data !! Z.to_nat index with
    | Some n => ItemNpc n
    | None => ItemUndefined
    end
  else ItemNull.

(** The fields of the header window that [setData] writes; what its
    [refresh] draws is left out. *)
Record Header : Type := mkHeader {
  _faceName : string;
  _faceIndex : jsnum;
  _npcName : string;
  _npcCategory : string;
  _iconIndexes : list jsnum
}.

Definition setData (faceName : string) (faceIndex : jsnum)
  (name category : string) (iconIndexes : list jsnum) : Header :=
  mkHeader faceName faceIndex name category iconIndexes.

Record Scene : Type := mkScene {
  _data : list Npc;
  index : Z;
  listActive : bool;
  _headerWindow : Header;
  _descWindow : Desc;
  descActive : bool;
  _detailsActive : bool
}.

(** A call that ends normally with a new state, or throws a
    [TypeError]. *)
Inductive Outcome : Type :=
| Done (sc : Scene)
| TypeError.

(** [onItemOk]: reading [data.faceName] throws when [item()] gave no
    object; nothing has been changed by then. *)
Definition onItemOk (win : Window) (sc : Scene) : Outcome :=
  match item (_data sc) (index sc) with
  | ItemNpc data =>
      Done (mkScene (_data sc) (index sc) (listActive sc)
              (setData (faceName data) (faceIndex data) (name data)
                 (category data) (iconIndexes data))
              (setText win (notes data)) true true)
  | _ => TypeError
  end.

End Scene.

(** ** The plugin commands and the menu switch *)

Module Dispatcher.
Import JsString JsNumber Parser Registry.

Section WithCallback.

Context {Callback : Type}.

(** [$gameSystem] with the switch [_personalMenuEnabled]; [None] is
    [undefined]. *)
Record Sys : Type := mkSys {
  gameSystem : @GameSystem Callback;
  _personalMenuEnabled : option bool
}.

(** The plugin's part of [Game_Interpreter.prototype.pluginCommand].
    [events] holds, for every event of the map, the command list of its
    current page if it has one; [page] is that of the running event. *)
Definition pluginCommand (command : string) (args : list string)
  (events : list (option (list Command))) (page : option (list Command))
  (sys : Sys) : Sys :=
  if String.eqb command "EnablePersonalMenu"
  then mkSys (gameSystem sys) (Some true)
  else if String.eqb command "DisablePersonalMenu"
  then mkSys (gameSystem sys) (Some false)
  else if String.eqb command "RemovePersonalFromList" then
    match args, page with
    | [], None => sys
    | [], Some pg =>
        mkSys (RemovePersonalFromList [] pg (gameSystem sys))
          (_personalMenuEnabled sys)
    | _ :: _, _ =>
        mkSys (RemovePersonalFromList args [] (gameSystem sys))
          (_personalMenuEnabled sys)
    end
  else if String.eqb command "AddPersonalToList" then
    match args, page with
    | [], None => sys
    | [], Some pg =>
        mkSys (AddPersonalToList [] [] pg (gameSystem sys))
          (_personalMenuEnabled sys)
    | _ :: _, _ =>
        mkSys (AddPersonalToList args (omap (fun pg => pg) events) []
                 (gameSystem sys))
          (_personalMenuEnabled sys)
    end
  else sys.

(** The switch is given its initial value when it is still undefined:
    done by [Scene_Boot.prototype.start] and by [addOriginalCommands]. *)
Definition initSwitch (enableInitial : bool) (sys : Sys) : Sys :=
  match _personalMenuEnabled sys with
  | None => mkSys (gameSystem sys) (Some enableInitial)
  | Some _ => sys
  end.

Definition Scene_Boot_start (enableInitial : bool) (sys : Sys) : Sys :=
  initSwitch enableInitial sys.

(** [Window_MenuCommand.prototype.addOriginalCommands]: the new state and
    whether the menu entry is added. *)
Definition addOriginalCommands (enableInitial : bool) (sys : Sys)
  : Sys * bool :=
  let sys' := initSwitch enableInitial sys in
  (sys', bool_decide (_personalMenuEnabled sys' = Some true)).

(** [Scene_Map.prototype.update]: whether the list scene is pushed;
    [key] says whether the plugin's key was triggered. *)
Definition Scene_Map_update (key : bool) (sys : Sys) : bool :=
  key && bool_decide (_personalMenuEnabled sys = Some true).

(** What happens to [$gameSystem] in the course of a game. *)
Inductive Event : Type :=
| Command_ (command : string) (args : list string)
    (events : list (option (list Command))) (page : option (list Command))
| MenuOpened
| Booted.

Definition handle (enableInitial : bool) (sys : Sys) (ev : Event) : Sys :=
  match ev with
  | Command_ command args events page =>
      pluginCommand command args events page sys
  | MenuOpened => fst (addOriginalCommands enableInitial sys)
  | Booted => Scene_Boot_start enableInitial sys
  end.

Definition play (enableInitial : bool) (evs : list Event) (sys : Sys) : Sys :=
  fold_left (handle enableInitial) evs sys.

End WithCallback.

(** The value of the last [EnablePersonalMenu] or [DisablePersonalMenu]
    command among the events, if there is one. *)
Definition lastToggle (evs : list Event) : option bool :=
  fold_left
    (fun acc ev =>
       match ev with
       | Command_ command _ _ _ =>
           if String.eqb command "EnablePersonalMenu" then Some true
           else if String.eqb command "DisablePersonalMenu" then Some false
           else acc
       | _ => acc
       end) evs None.

(** Whether the menu was opened or the boot scene started among the
    events. *)
Definition switchInitialised (evs : list Event) : bool :=
  existsb (fun ev => match ev with
                     | MenuOpened | Booted => true
                     | Command_ _ _ _ _ => false
                     end) evs.

(** A record as the parser emits them. *)
Definition wellFormed (r : Npc) : Prop :=
  typeIsNPC r = true /\ name r <> "" /\ id r <> "" /\ ParserShape.tidy r.

(** The list holds records with pairwise distinct ids, all well formed. *)
Definition sound {Callback : Type} (gs : @GameSystem Callback) : Prop :=
  NoDup (id <$> _personalList gs) /\ Forall wellFormed (_personalList gs).

End Dispatcher.

(** ** Words on a wrapped line *)

Module WrapShape.
Import JsString Paginator.

(** A line holds a word when one of its characters is not a blank. *)
Definition holdsWord (l : string) : bool :=
  existsb (fun c => negb (Ascii.eqb c " ")) (list_ascii_of_string l).

(** A window like [Samples.win10] but with a measurer that finds the text
    [big ] 100 pixels wide and every other text 0 pixels wide: for it, a
    text gets narrower when more is written before or after it. *)
Definition winShrinking : Window :=
  mkWindow 0 50 40 10 (fun s => if String.eqb s "big " then 100 else 0).

End WrapShape.

(** * Properties *)

(** ** Numbers and their numerals *)

Module NumberFacts.
Import JsString JsNumber Numeral.

Lemma digits_uvalue (u : Decimal.uint) (a : Z) :
  digits (Some a) (NilEmpty.string_of_uint u) = Some (uvalue a u).
Proof.
  revert a. induction u; intros a; simpl; try done;
    rewrite IHu; do 2 f_equal; lia.
Qed.

Lemma digits_uvalue_None (u : Decimal.uint) :
  u <> Decimal.Nil ->
  digits None (NilEmpty.string_of_uint u) = Some (uvalue 0 u).
Proof.
  destruct u; [done|..]; intros _; simpl;
    rewrite digits_uvalue; do 2 f_equal.
Qed.

Lemma of_uint_acc_uvalue (u : Decimal.uint) (p : positive) :
  Z.pos (Pos.of_uint_acc u p) = uvalue (Z.pos p) u.
Proof.
  revert p. induction u; intros p; simpl; try done;
    rewrite IHu; f_equal; lia.
Qed.

Lemma of_uint_uvalue (u : Decimal.uint) :
  Z.of_N (Pos.of_uint u) = uvalue 0 u.
Proof.
  induction u; simpl; try done; by rewrite of_uint_acc_uvalue.
Qed.

Lemma to_uint_uvalue (p : positive) : uvalue 0 (Pos.to_uint p) = Z.pos p.
Proof.
  by rewrite <- of_uint_uvalue, DecimalPos.Unsigned.of_to.
Qed.

Lemma allDigits_string_of_uint (u : Decimal.uint) :
  allDigits (NilEmpty.string_of_uint u) = true.
Proof. induction u; done. Qed.

(** The first digit that [Pos.to_uint] prints is not [0]. *)
Lemma to_uint_head (p : positive) :
  exists (c : ascii) (r : string),
    NilEmpty.string_of_uint (Pos.to_uint p) = String c r /\
    isDigit c = true /\ Ascii.eqb c "0" = false.
Proof.
  pose proof (DecimalPos.Unsigned.to_uint_nonnil p) as Hnil.
  pose proof (DecimalPos.Unsigned.to_of (Pos.to_uint p)) as Hn.
  rewrite DecimalPos.Unsigned.of_to in Hn. simpl in Hn.
  destruct (Pos.to_uint p) as [|u|u|u|u|u|u|u|u|u|u] eqn:E;
    [done| |by eexists _, _..].
  exfalso. rewrite DecimalFacts.unorm_D0 in Hn.
  unfold Decimal.unorm in Hn.
  destruct (Decimal.nzhead u) eqn:Hz; try done.
  - injection Hn as Hn. subst u.
    exact (DecimalPos.Unsigned.to_uint_nonzero p E).
  - eapply DecimalFacts.nzhead_nonzero. exact Hz.
Qed.

Lemma ToString_pos (p : positive) :
  ToString (IdNum (Z.pos p)) = NilEmpty.string_of_uint (Pos.to_uint p).
Proof.
  unfold ToString. simpl.
  pose proof (DecimalPos.Unsigned.to_uint_nonnil p).
  by destruct (Pos.to_uint p).
Qed.

Lemma ToString_neg (p : positive) :
  ToString (IdNum (Z.neg p)) = String "-" (ToString (IdNum (Z.pos p))).
Proof. done. Qed.

Lemma parseInt_digit_head (c : ascii) (r : string) :
  isDigit c = true ->
  parseInt (String c r) =
    match digits None (String c r) with
    | None => NaN
    | Some n => Num (1 * n)
    end.
Proof.
  intros Hc. unfold parseInt.
  assert (Hws : is_ws c = false).
  { revert Hc. unfold isDigit, digit, is_ws.
    destruct c as [[] [] [] [] [] [] [] []]; by vm_compute. }
  cbn [trimStart]. rewrite Hws.
  assert (Hm : Ascii.eqb c "-" = false /\ Ascii.eqb c "+" = false).
  { revert Hc. unfold isDigit, digit.
    destruct c as [[] [] [] [] [] [] [] []]; by vm_compute. }
  destruct Hm as [Hm Hp].
  destruct c as [[] [] [] [] [] [] [] []]; try done.
Qed.

(** What [String] prints for an integer, [parseInt] reads back. *)
Lemma parseInt_ToString (z : Z) : parseInt (ToString (IdNum z)) = Num z.
Proof.
  destruct z as [|p|p].
  - done.
  - rewrite ToString_pos.
    destruct (to_uint_head p) as (c & r & E & Hc & _).
    pose proof (digits_uvalue_None (Pos.to_uint p)
                  (DecimalPos.Unsigned.to_uint_nonnil p)) as Hd.
    rewrite E in *. rewrite parseInt_digit_head by done.
    by rewrite Hd, to_uint_uvalue.
  - rewrite ToString_neg, ToString_pos.
    pose proof (digits_uvalue_None (Pos.to_uint p)
                  (DecimalPos.Unsigned.to_uint_nonnil p)) as Hd.
    unfold parseInt. cbn [trimStart].
    change (is_ws "-") with false. cbn iota.
    by rewrite Hd, to_uint_uvalue.
Qed.

Lemma positiveNumeral_ToString (p : positive) :
  positiveNumeral (ToString (IdNum (Z.pos p))) = true.
Proof.
  rewrite ToString_pos.
  destruct (to_uint_head p) as (c & r & E & Hc & H0).
  pose proof (allDigits_string_of_uint (Pos.to_uint p)) as Ha.
  rewrite E in *. unfold positiveNumeral. by rewrite Ha, H0.
Qed.

(** What [String] prints for an integer is its canonical numeral. *)
Lemma canonical_ToString (z : Z) : canonical (ToString (IdNum z)) = true.
Proof.
  destruct z as [|p|p].
  - done.
  - unfold canonical. rewrite positiveNumeral_ToString.
    by rewrite orb_true_r.
  - rewrite ToString_neg. unfold canonical.
    rewrite positiveNumeral_ToString. by rewrite orb_true_r.
Qed.

Lemma allDigits_of_uint (s : string) :
  allDigits s = true -> exists u, NilEmpty.string_of_uint u = s.
Proof.
  induction s as [|c s IH]; [by exists Decimal.Nil|].
  unfold allDigits. simpl. intros H.
  apply andb_prop in H as [Hc Hs]. destruct (IH Hs) as [u <-].
  revert Hc. unfold isDigit, digit.
  destruct c as [[] [] [] [] [] [] [] []]; try (by vm_compute); intros _;
    first [ by exists (Decimal.D0 u) | by exists (Decimal.D1 u)
          | by exists (Decimal.D2 u) | by exists (Decimal.D3 u)
          | by exists (Decimal.D4 u) | by exists (Decimal.D5 u)
          | by exists (Decimal.D6 u) | by exists (Decimal.D7 u)
          | by exists (Decimal.D8 u) | by exists (Decimal.D9 u) ].
Qed.

(** Every run of digits that does not start with [0] is what [String]
    prints for some positive integer. *)
Lemma positiveNumeral_is_ToString (s : string) :
  positiveNumeral s = true -> exists p, s = ToString (IdNum (Z.pos p)).
Proof.
  destruct s as [|c r]; [done|]. unfold positiveNumeral.
  intros H. apply andb_prop in H as [H0 Ha].
  destruct (allDigits_of_uint _ Ha) as [u Hu].
  assert (Hn : Decimal.unorm u = u /\ exists p, Pos.of_uint u = N.pos p).
  { destruct u; [done| |split; [done | by eexists]..].
    simpl in Hu. injection Hu as <- _. done. }
  destruct Hn as [Hn [p Hp]]. exists p.
  rewrite ToString_pos, <- Hu. f_equal.
  pose proof (DecimalPos.Unsigned.to_of u) as Ht.
  rewrite Hp, Hn in Ht. by rewrite <- Ht.
Qed.

(** Every canonical numeral is what [String] prints for some integer. *)
Lemma canonical_is_ToString (s : string) :
  canonical s = true -> exists z, s = ToString (IdNum z).
Proof.
  unfold canonical. intros H.
  apply orb_prop in H as [H|H]; [apply orb_prop in H as [H|H]|].
  - exists 0. by apply String.eqb_eq in H.
  - destruct (positiveNumeral_is_ToString s H) as [p ->]. by exists (Z.pos p).
  - destruct s as [|c r]; [done|].
    apply andb_prop in H as [Hc H]. apply Ascii.eqb_eq in Hc as ->.
    destruct (positiveNumeral_is_ToString r H) as [p ->].
    by exists (Z.neg p).
Qed.

(** [String] of an integer is the one canonical numeral that [parseInt]
    reads as that integer. *)
Lemma ToString_characterised (z : Z) (s : string) :
  ToString (IdNum z) = s <-> canonical s = true /\ parseInt s = Num z.
Proof.
  split.
  - intros <-. split; [apply canonical_ToString | apply parseInt_ToString].
  - intros [Hc Hp]. destruct (canonical_is_ToString s Hc) as [z' ->].
    rewrite parseInt_ToString in Hp. by injection Hp as ->.
Qed.

Lemma ToString_inj (z1 z2 : Z) :
  ToString (IdNum z1) = ToString (IdNum z2) -> z1 = z2.
Proof.
  intros H. apply (f_equal parseInt) in H.
  rewrite !parseInt_ToString in H. by injection H.
Qed.

(** No integer prints as the name [__proto__]. *)
Lemma ToString_not_proto (z : Z) : ToString (IdNum z) <> "__proto__".
Proof.
  intros H. pose proof (canonical_ToString z) as Hc.
  by rewrite H in Hc.
Qed.

End NumberFacts.

(** ** The parser *)

Module ParserFacts.
Import JsString JsNumber Parser.

Lemma truthy_true (s : string) : truthy s = true -> s <> "".
Proof.
  unfold truthy. intros H ->. discriminate H.
Qed.

Lemma truthy_false (s : string) : truthy s = false -> s = "".
Proof.
  unfold truthy. intros H. apply negb_false_iff in H.
  by apply String.eqb_eq.
Qed.

Lemma wanted_spec (wantedId : option string) (n : Npc) (w : string) :
  wanted wantedId n = true -> wantedId = Some w -> w <> "" -> id n = w.
Proof.
  intros Hw -> Hne. simpl in Hw.
  apply orb_true_iff in Hw as [Hw | Hw].
  - apply negb_true_iff, truthy_false in Hw. contradiction.
  - by apply String.eqb_eq.
Qed.

Lemma pushCurrent_npc (wantedId : option string) (st : PState) :
  npc (pushCurrent wantedId st) = npc st /\
  readingNote (pushCurrent wantedId st) = readingNote st.
Proof.
  unfold pushCurrent. destruct (npc st) as [n|] eqn:E; [|by rewrite E].
  destruct (typeIsNPC n && truthy (name n) && truthy (id n));
    [|by rewrite E].
  destruct (wanted wantedId n); simpl; by rewrite ?E.
Qed.

Lemma pushCurrent_emittable (wantedId : option string) (st : PState) :
  Forall (emittable wantedId) (results st) ->
  Forall (emittable wantedId) (results (pushCurrent wantedId st)).
Proof.
  intros HF. unfold pushCurrent.
  destruct (npc st) as [n|]; [|done].
  destruct (typeIsNPC n && truthy (name n) && truthy (id n)) eqn:E; [|done].
  destruct (wanted wantedId n) eqn:W; [|done].
  simpl. apply Forall_app. split; [done|].
  apply Forall_singleton.
  apply andb_true_iff in E as [E E3].
  apply andb_true_iff in E as [E1 E2].
  repeat split; auto using truthy_true.
  intros w. by apply wanted_spec.
Qed.

Lemma step_emittable (wantedId : option string) (st : PState)
  (cmd : Command) :
  Forall (emittable wantedId) (results st) ->
  Forall (emittable wantedId) (results (step wantedId st cmd)).
Proof.
  intros HF. unfold step.
  destruct (negb (isComment cmd)); [done|].
  destruct (isTypeNpc _); [by apply pushCurrent_emittable|].
  destruct (npc st) as [n|]; [|done].
  by destruct (fieldStep _ n _).
Qed.

Lemma fold_step_emittable (wantedId : option string) (cmds : list Command)
  (st : PState) :
  Forall (emittable wantedId) (results st) ->
  Forall (emittable wantedId)
    (results (fold_left (step wantedId) cmds st)).
Proof.
  revert st. induction cmds as [|c cmds IH]; intros st HF; [done|].
  simpl. by apply IH, step_emittable.
Qed.

(** The draft keeps an empty id along lines that are neither an [ID:]
    line nor a [Type: NPC] line, and nothing is emitted meanwhile. *)
Lemma fieldStep_id (line : string) (n : Npc) (rn : bool) :
  startsWith line "ID:" = false ->
  id (fst (fieldStep line n rn)) = id n.
Proof.
  intros H. unfold fieldStep. rewrite H.
  repeat (match goal with
          | |- context [if ?b then _ else _] => destruct b
          end; try reflexivity).
Qed.

Lemma step_no_id (wantedId : option string) (st : PState) (cmd : Command)
  (n : Npc) :
  npc st = Some n -> isIdCmd cmd = false -> isTypeNpcCmd cmd = false ->
  exists n', npc (step wantedId st cmd) = Some n' /\ id n' = id n /\
             results (step wantedId st cmd) = results st.
Proof.
  intros Hn Hid Hty. unfold step, isIdCmd, isTypeNpcCmd in *.
  destruct (isComment cmd); simpl in *; [|by exists n].
  rewrite Hty, Hn.
  pose proof (fieldStep_id _ n (readingNote st) Hid) as Hf.
  destruct (fieldStep _ n _) as [n' rn']. simpl in *. by exists n'.
Qed.

Lemma fold_step_no_id (wantedId : option string) (block : list Command)
  (st : PState) (n : Npc) :
  npc st = Some n ->
  Forall (fun c => isIdCmd c = false /\ isTypeNpcCmd c = false) block ->
  exists n', npc (fold_left (step wantedId) block st) = Some n' /\
             id n' = id n /\
             results (fold_left (step wantedId) block st) = results st.
Proof.
  revert st n. induction block as [|c block IH]; intros st n Hn HF.
  - by exists n.
  - apply Forall_cons in HF as [[Hid Hty] HF]. simpl.
    destruct (step_no_id wantedId st c n Hn Hid Hty) as (n1 & H1 & H2 & H3).
    destruct (IH _ n1 H1 HF) as (n2 & H4 & H5 & H6).
    exists n2. split; [done|]. split; congruence.
Qed.

Lemma pushCurrent_empty_id (wantedId : option string) (st : PState)
  (n : Npc) :
  npc st = Some n -> id n = "" -> pushCurrent wantedId st = st.
Proof.
  intros Hn Hid. unfold pushCurrent. rewrite Hn, Hid. simpl.
  by rewrite andb_false_r.
Qed.

Lemma step_type_npc (wantedId : option string) (st : PState)
  (cmd : Command) :
  isTypeNpcCmd cmd = true ->
  step wantedId st cmd =
    mkPState (results (pushCurrent wantedId st)) (Some freshNpc) false.
Proof.
  unfold isTypeNpcCmd, step. intros H.
  apply andb_true_iff in H as [-> ->]. done.
Qed.

(** A field line is never a [Type:] line. *)
Lemma prefix_head (a : ascii) (p s : string) :
  String.prefix (String a p) s = true -> exists s', s = String a s'.
Proof.
  destruct s as [|b s']; simpl; [discriminate|].
  destruct (ascii_dec a b) as [->|]; [eauto | discriminate].
Qed.

Lemma fieldLine_not_type (line : string) :
  isFieldLine line = true -> isTypeNpc line = false.
Proof.
  unfold isFieldLine, isTypeNpc, startsWith. intros H.
  repeat (apply orb_true_iff in H as [H | H]);
    apply prefix_head in H as [s' ->]; reflexivity.
Qed.

Lemma fieldStep_fieldLine (line : string) (n : Npc) (rn : bool) :
  isFieldLine line = true ->
  notes (fst (fieldStep line n rn)) = notes n /\
  snd (fieldStep line n rn) = rn.
Proof.
  unfold isFieldLine, fieldStep. intros H.
  destruct (startsWith line "ID:"); [done|].
  destruct (startsWith line "Name:"); [done|].
  destruct (startsWith line "Category:"); [done|].
  destruct (startsWith line "Face:"); [done|].
  destruct (startsWith line "Icon:"); [done|].
  discriminate H.
Qed.

Lemma fieldStep_plainLine (line : string) (n : Npc) :
  isPlainLine line = true ->
  fieldStep line n true = (set_notes (notes n +:+ LF +:+ line) n, true).
Proof.
  unfold isPlainLine, isFieldLine, fieldStep. intros H.
  apply andb_true_iff in H as [H HD].
  apply andb_true_iff in H as [_ HF].
  apply negb_true_iff in HD, HF. rewrite HD.
  repeat (apply orb_false_iff in HF as [HF ?]).
  by repeat match goal with H : startsWith _ _ = false |- _ =>
              rewrite H; clear H end.
Qed.

Lemma step_plainLine (wantedId : option string) (st : PState)
  (cmd : Command) (n : Npc) :
  npc st = Some n -> readingNote st = true ->
  isComment cmd = true -> isPlainLine (trim (parameters0 cmd)) = true ->
  step wantedId st cmd =
    mkPState (results st)
      (Some (set_notes (notes n +:+ LF +:+ trim (parameters0 cmd)) n)) true.
Proof.
  intros Hn Hr Hc Hp. unfold step. rewrite Hc, Hn, Hr. simpl.
  rewrite (fieldStep_plainLine _ n Hp).
  unfold isPlainLine in Hp.
  apply andb_true_iff in Hp as [Hp _].
  apply andb_true_iff in Hp as [Hp _].
  apply negb_true_iff in Hp. by rewrite Hp.
Qed.

(** [C1], as amended: every record that [parseNpcBlocks] returns was
    marked NPC-type and has a non-empty name and a non-empty id, and when
    a non-empty [wantedId] is passed its id equals [wantedId]; a block (a
    [Type: NPC] line and the lines up to the next one) that holds no
    [ID:] line adds no record, whether it is closed by the end of the
    input or by the next [Type: NPC] line. *)
Theorem C1_emitted_records :
  (forall (cmds : list Command) (wantedId : option string) (r : Npc),
      r ∈ parseNpcBlocks cmds wantedId -> emittable wantedId r) /\
  (forall (wantedId : option string) (st : PState) (c0 : Command)
          (block : list Command),
      isTypeNpcCmd c0 = true ->
      Forall (fun c => isIdCmd c = false /\ isTypeNpcCmd c = false) block ->
      let st1 := step wantedId st c0 in
      let st2 := fold_left (step wantedId) block st1 in
      results (pushCurrent wantedId st2) = results st1 /\
      forall c1, isTypeNpcCmd c1 = true ->
                 results (step wantedId st2 c1) = results st1).
Proof.
  split.
  - intros cmds wantedId r Hr. unfold parseNpcBlocks in Hr.
    assert (HF : Forall (emittable wantedId)
              (results (pushCurrent wantedId
                          (fold_left (step wantedId) cmds initial)))).
    { apply pushCurrent_emittable, fold_step_emittable. constructor. }
    rewrite Forall_forall in HF. by apply HF.
  - intros wantedId st c0 block Hc0 HF st1 st2.
    assert (Hst1 : npc st1 = Some freshNpc).
    { unfold st1. by rewrite step_type_npc. }
    destruct (fold_step_no_id wantedId block st1 freshNpc Hst1 HF)
      as (n' & Hn' & Hid & Hres).
    fold st2 in Hn', Hres.
    assert (Hpush : pushCurrent wantedId st2 = st2).
    { by apply (pushCurrent_empty_id _ _ n'). }
    split; [by rewrite Hpush|].
    intros c1 Hc1. rewrite step_type_npc by done. simpl.
    by rewrite Hpush.
Qed.

Lemma C1_emitted_records_witness :
  emittable (Some "7")
    (mkNpc true "7" "Ann" "" "" (Num 0) [] "") /\
  results (pushCurrent None
             (fold_left (step None) [comment "Name: Bob"; comment "Icon: 4"]
                (step None initial (comment "Type: NPC")))) =
  results (step None initial (comment "Type: NPC")).
Proof.
  split.
  - apply (proj1 C1_emitted_records
             (map comment ["Type: NPC"; "ID: 3"; "Name: Cy";
                           "Type: NPC"; "Name: Ann"; "ID: 7"])
             (Some "7")).
    vm_compute. apply list_elem_of_here.
  - apply (proj2 C1_emitted_records None initial (comment "Type: NPC")
             [comment "Name: Bob"; comment "Icon: 4"]).
    + reflexivity.
    + repeat constructor.
Defined.

(** [C1], as stated, fails when the [wantedId] that is passed is the empty
    string: [!wantedId] holds, no filter is applied, and the record with
    id [1] is returned. *)
Lemma C1_counterexample :
  parseNpcBlocks (map comment ["Type: NPC"; "ID: 1"; "Name: X"]) (Some "")
    = [mkNpc true "1" "X" "" "" (Num 0) [] ""] /\
  ~ (forall r, r ∈ parseNpcBlocks
                     (map comment ["Type: NPC"; "ID: 1"; "Name: X"])
                     (Some "") -> id r = "").
Proof.
  split; [reflexivity|].
  intros H.
  specialize (H (mkNpc true "1" "X" "" "" (Num 0) [] "")).
  assert (Hin : mkNpc true "1" "X" "" "" (Num 0) [] "" ∈
                parseNpcBlocks
                  (map comment ["Type: NPC"; "ID: 1"; "Name: X"]) (Some ""))
    by (vm_compute; apply list_elem_of_here).
  specialize (H Hin). discriminate H.
Qed.

Lemma step_detailsLine (wantedId : option string) (st : PState)
  (cmd : Command) (n : Npc) :
  npc st = Some n -> isComment cmd = true ->
  startsWith (trim (parameters0 cmd)) "Details:" = true ->
  step wantedId st cmd =
    mkPState (results st)
      (Some (set_notes (trim (slice 8 (trim (parameters0 cmd)))) n)) true.
Proof.
  intros Hn Hc Hd. unfold step. rewrite Hc, Hn. simpl.
  unfold fieldStep. rewrite Hd.
  unfold startsWith in Hd.
  destruct (prefix_head _ _ _ Hd) as [s' ->]. reflexivity.
Qed.

(** [C3], as amended: while a draft is open and continuation mode is
    active, a field line ([ID:], [Name:], [Category:], [Face:] or [Icon:])
    leaves continuation mode active and the description as it was; an
    unrecognised comment line right after it is still appended to the
    description, after a line feed.  So it is after the [Details:] line
    that turns continuation mode on, whatever the mode was before: the
    description is then the trimmed rest of the [Details:] line, a line
    feed and the unrecognised line. *)
Theorem C3_field_line_keeps_continuation
  (wantedId : option string) (st : PState) (n : Npc) (c1 c2 : Command) :
  npc st = Some n ->
  isComment c1 = true -> isFieldLine (trim (parameters0 c1)) = true ->
  isComment c2 = true -> isPlainLine (trim (parameters0 c2)) = true ->
  (readingNote st = true ->
   exists n1 n2,
     npc (step wantedId st c1) = Some n1 /\
     readingNote (step wantedId st c1) = true /\
     notes n1 = notes n /\
     npc (step wantedId (step wantedId st c1) c2) = Some n2 /\
     readingNote (step wantedId (step wantedId st c1) c2) = true /\
     notes n2 = notes n +:+ LF +:+ trim (parameters0 c2)) /\
  (forall d : Command,
      isComment d = true ->
      startsWith (trim (parameters0 d)) "Details:" = true ->
      exists n3,
        npc (fold_left (step wantedId) [d; c1; c2] st) = Some n3 /\
        readingNote (fold_left (step wantedId) [d; c1; c2] st) = true /\
        notes n3 =
          trim (slice 8 (trim (parameters0 d))) +:+ LF +:+
          trim (parameters0 c2)).
Proof.
  intros Hn Hc1 Hf Hc2 Hp.
  assert (Hgen : forall (st0 : PState) (n0 : Npc),
             npc st0 = Some n0 -> readingNote st0 = true ->
             exists n1 n2,
               npc (step wantedId st0 c1) = Some n1 /\
               readingNote (step wantedId st0 c1) = true /\
               notes n1 = notes n0 /\
               npc (step wantedId (step wantedId st0 c1) c2) = Some n2 /\
               readingNote (step wantedId (step wantedId st0 c1) c2) = true /\
               notes n2 = notes n0 +:+ LF +:+ trim (parameters0 c2)).
  { intros st0 n0 Hn0 Hr.
    assert (H1 : step wantedId st0 c1 =
                 mkPState (results st0)
                   (Some (fst (fieldStep (trim (parameters0 c1)) n0 true)))
                   true).
    { unfold step. rewrite Hc1, Hn0, Hr. simpl.
      rewrite (fieldLine_not_type _ Hf).
      destruct (fieldStep_fieldLine _ n0 true Hf) as [_ Hs].
      destruct (fieldStep _ n0 true) as [n' rn']. simpl in *. by subst. }
    destruct (fieldStep_fieldLine _ n0 true Hf) as [Hnotes _].
    set (n1 := fst (fieldStep (trim (parameters0 c1)) n0 true)) in *.
    exists n1, (set_notes (notes n1 +:+ LF +:+ trim (parameters0 c2)) n1).
    rewrite H1.
    rewrite (step_plainLine wantedId _ c2 n1) by done.
    simpl. by rewrite Hnotes. }
  split; [by apply Hgen|].
  intros d Hcd Hd. cbn [fold_left].
  rewrite (step_detailsLine wantedId st d n Hn Hcd Hd).
  destruct (Hgen (mkPState (results st)
                    (Some (set_notes
                             (trim (slice 8 (trim (parameters0 d)))) n))
                    true)
              (set_notes (trim (slice 8 (trim (parameters0 d)))) n)
              eq_refl eq_refl)
    as (n1 & n2 & _ & _ & _ & H4 & H5 & H6).
  exists n2. by destruct n.
Qed.

Lemma C3_field_line_keeps_continuation_witness :
  (exists n1 n2,
     npc (step None (mkPState [] (Some (set_notes "a" freshNpc)) true)
            (comment "ID: 5")) = Some n1 /\
     readingNote (step None (mkPState [] (Some (set_notes "a" freshNpc)) true)
                    (comment "ID: 5")) = true /\
     notes n1 = "a" /\
     npc (step None
            (step None (mkPState [] (Some (set_notes "a" freshNpc)) true)
               (comment "ID: 5"))
            (comment "foo")) = Some n2 /\
     readingNote (step None
            (step None (mkPState [] (Some (set_notes "a" freshNpc)) true)
               (comment "ID: 5"))
            (comment "foo")) = true /\
     notes n2 = "a" +:+ LF +:+ "foo") /\
  (exists n3,
     npc (fold_left (step None)
            [comment "Details: a "; comment "ID: 5"; comment " foo"]
            (mkPState [] (Some freshNpc) false)) = Some n3 /\
     readingNote (fold_left (step None)
            [comment "Details: a "; comment "ID: 5"; comment " foo"]
            (mkPState [] (Some freshNpc) false)) = true /\
     notes n3 = "a" +:+ LF +:+ "foo").
Proof.
  split.
  - apply (proj1 (C3_field_line_keeps_continuation None
                    (mkPState [] (Some (set_notes "a" freshNpc)) true)
                    (set_notes "a" freshNpc) (comment "ID: 5") (comment "foo")
                    eq_refl eq_refl eq_refl eq_refl eq_refl)).
    reflexivity.
  - apply (proj2 (C3_field_line_keeps_continuation None
                    (mkPState [] (Some freshNpc) false)
                    freshNpc (comment "ID: 5") (comment " foo")
                    eq_refl eq_refl eq_refl eq_refl eq_refl)
             (comment "Details: a ")); reflexivity.
Defined.

(** [C3], as stated, fails: after [Details: a] the line [ID: 5] does not
    end continuation mode, and the line [foo] that follows it is appended
    to the description. *)
Lemma C3_counterexample :
  map notes
    (parseNpcBlocks
       (map comment ["Type: NPC"; "Name: X"; "Details: a"; "ID: 5"; "foo"])
       None) = ["a" +:+ LF +:+ "foo"] /\
  map notes
    (parseNpcBlocks
       (map comment ["Type: NPC"; "Name: X"; "Details: a"; "ID: 5"; "foo"])
       None) <> ["a"].
Proof.
  split; [reflexivity | discriminate].
Qed.

(** [C4], on the code: the part after the comma of a [Face:] line goes
    through [parseInt] with [0] standing in only for a missing or empty
    part, so [Face: Actor1,abc] leaves [faceIndex] at [NaN], not [0];
    [Face: Actor1] and [Face: Actor1,3] give [0] and [3]. *)
Theorem C4_face_index_unparseable :
  map (fun r => (faceName r, faceIndex r))
    (parseNpcBlocks
       (map comment ["Type: NPC"; "ID: 1"; "Name: X"; "Face: Actor1,abc"])
       None) = [("Actor1", NaN)] /\
  map (fun r => (faceName r, faceIndex r))
    (parseNpcBlocks
       (map comment ["Type: NPC"; "ID: 1"; "Name: X"; "Face: Actor1"])
       None) = [("Actor1", Num 0)] /\
  map (fun r => (faceName r, faceIndex r))
    (parseNpcBlocks
       (map comment ["Type: NPC"; "ID: 1"; "Name: X"; "Face: Actor1,3"])
       None) = [("Actor1", Num 3)].
Proof.
  repeat split.
Qed.

(** [C8], as amended: while a draft is open and continuation mode is
    active, an unrecognised comment line is appended to the description
    as a line feed followed by the line with its leading and trailing
    white space removed; continuation mode stays active. *)
Theorem C8_continuation_appends_trimmed
  (wantedId : option string) (st : PState) (n : Npc) (c : Command) :
  npc st = Some n -> readingNote st = true ->
  isComment c = true -> isPlainLine (trim (parameters0 c)) = true ->
  npc (step wantedId st c) =
    Some (set_notes (notes n +:+ LF +:+ trim (parameters0 c)) n) /\
  readingNote (step wantedId st c) = true /\
  results (step wantedId st c) = results st.
Proof.
  intros Hn Hr Hc Hp.
  by rewrite (step_plainLine wantedId st c n).
Qed.

Lemma C8_continuation_appends_trimmed_witness :
  npc (step None (mkPState [] (Some (set_notes "a" freshNpc)) true)
         (comment "  foo  ")) =
    Some (set_notes ("a" +:+ LF +:+ "foo") (set_notes "a" freshNpc)) /\
  readingNote (step None (mkPState [] (Some (set_notes "a" freshNpc)) true)
                 (comment "  foo  ")) = true /\
  results (step None (mkPState [] (Some (set_notes "a" freshNpc)) true)
             (comment "  foo  ")) = [].
Proof.
  apply (C8_continuation_appends_trimmed None
           (mkPState [] (Some (set_notes "a" freshNpc)) true)
           (set_notes "a" freshNpc) (comment "  foo  ")); reflexivity.
Defined.

(** [C8], as stated, fails: the continuation line [  foo  ] reaches the
    description without its leading and trailing blanks. *)
Lemma C8_counterexample :
  map notes
    (parseNpcBlocks
       (map comment ["Type: NPC"; "ID: 1"; "Name: X"; "Details: a";
                     "  foo  "])
       None) = ["a" +:+ LF +:+ "foo"] /\
  map notes
    (parseNpcBlocks
       (map comment ["Type: NPC"; "ID: 1"; "Name: X"; "Details: a";
                     "  foo  "])
       None) <> ["a" +:+ LF +:+ "  foo  "].
Proof.
  split; [reflexivity | discriminate].
Qed.

End ParserFacts.

(** ** The registry *)

Module RegistryFacts.
Import JsString JsNumber Numeral Parser Registry.

Section WithCallback.
Context {Callback : Type}.
Implicit Types (gs : @GameSystem Callback) (n : Npc) (cb : Callback).

Lemma Object_assign_source (existing source : Npc) :
  Object_assign existing source = source.
Proof. by destruct source. Qed.

Lemma trigger_added_calls gs (key : string) :
  calls (_triggerPersonalAdded (IdStr key) gs) =
    calls gs ++ map (fun cb => (cb, key)) (added (listenersOf gs key)).
Proof.
  unfold _triggerPersonalAdded, listenersOf. simpl.
  destruct (_personalListeners gs !! key); simpl; [done|].
  by rewrite app_nil_r.
Qed.

Lemma trigger_removed_calls gs (key : string) :
  calls (_triggerPersonalRemoved (IdStr key) gs) =
    calls gs ++ map (fun cb => (cb, key)) (removed (listenersOf gs key)).
Proof.
  unfold _triggerPersonalRemoved, listenersOf. simpl.
  destruct (_personalListeners gs !! key); simpl; [done|].
  by rewrite app_nil_r.
Qed.

Lemma trigger_added_rest gs (i : JsId) :
  _personalList (_triggerPersonalAdded i gs) = _personalList gs /\
  _personalListeners (_triggerPersonalAdded i gs) = _personalListeners gs /\
  loadedFaces (_triggerPersonalAdded i gs) = loadedFaces gs.
Proof.
  unfold _triggerPersonalAdded.
  by destruct (_personalListeners gs !! ToString i).
Qed.

Lemma trigger_removed_rest gs (i : JsId) :
  _personalList (_triggerPersonalRemoved i gs) = _personalList gs /\
  _personalListeners (_triggerPersonalRemoved i gs)
    = _personalListeners gs /\
  loadedFaces (_triggerPersonalRemoved i gs) = loadedFaces gs.
Proof.
  unfold _triggerPersonalRemoved.
  by destruct (_personalListeners gs !! ToString i).
Qed.

(** [upsert] on an id that the list does not hold. *)
Lemma upsert_new gs n :
  Forall (fun i => id i <> id n) (_personalList gs) ->
  _personalList (upsert n gs) = _personalList gs ++ [n] /\
  calls (upsert n gs) =
    calls gs ++ map (fun cb => (cb, id n)) (added (listenersOf gs (id n))).
Proof.
  intros HF. unfold upsert, getPersonalList.
  assert (Hfind : list_find (fun i => id i = id n) (_personalList gs)
                  = None) by by apply list_find_None.
  rewrite Hfind.
  set (gs1 := set_personalList (_personalList gs ++ [n]) gs).
  destruct (trigger_added_rest gs1 (IdStr (id n))) as (Hl & _ & _).
  pose proof (trigger_added_calls gs1 (id n)) as Hc.
  destruct (truthy (faceName n)); simpl; by rewrite Hl, Hc.
Qed.

(** [upsert] on an id that the list holds: the first entry with that id
    sits at some index [k] and is overwritten there. *)
Lemma upsert_existing gs n :
  Exists (fun i => id i = id n) (_personalList gs) ->
  exists (k : nat) (existing : Npc),
    _personalList gs !! k = Some existing /\
    id existing = id n /\
    (forall (j : nat) (e : Npc),
        _personalList gs !! j = Some e -> (j < k)%nat -> id e <> id n) /\
    _personalList (upsert n gs) = <[k := n]> (_personalList gs) /\
    calls (upsert n gs) = calls gs.
Proof.
  intros HE. apply Exists_exists in HE as (e0 & Hin & Hid).
  destruct (list_find_elem_of (fun i => id i = id n) _ e0 Hin Hid)
    as [[k e] Hfind].
  pose proof Hfind as Hspec.
  apply list_find_Some in Hspec as (Hk & He & Hleast).
  exists k, e. split; [done|]. split; [done|]. split.
  { intros j e' Hj Hlt. by apply (Hleast j e'). }
  unfold upsert, getPersonalList. rewrite Hfind.
  rewrite Object_assign_source.
  by destruct (truthy (faceName n)).
Qed.

Lemma upsert_listeners gs n :
  _personalListeners (upsert n gs) = _personalListeners gs.
Proof.
  unfold upsert, getPersonalList.
  destruct (list_find _ _) as [[k e]|].
  - by destruct (truthy (faceName n)).
  - set (gs1 := set_personalList _ gs).
    destruct (trigger_added_rest gs1 (IdStr (id n))) as (_ & Hl & _).
    destruct (truthy (faceName n)); simpl; by rewrite Hl.
Qed.

Lemma onPersonalAdded_listeners gs (i : JsId) cb (key : string) :
  added (listenersOf (onPersonalAdded i cb gs) key) =
    (if decide (ToString i = key)
     then added (listenersOf gs key) ++ [cb]
     else added (listenersOf gs key)) /\
  removed (listenersOf (onPersonalAdded i cb gs) key) =
    removed (listenersOf gs key).
Proof.
  unfold onPersonalAdded, listenersOf. simpl.
  destruct (decide (ToString i = key)) as [->|Hne].
  - by rewrite lookup_insert_eq.
  - by rewrite lookup_insert_ne.
Qed.

Lemma onPersonalRemoved_listeners gs (i : JsId) cb (key : string) :
  removed (listenersOf (onPersonalRemoved i cb gs) key) =
    (if decide (ToString i = key)
     then removed (listenersOf gs key) ++ [cb]
     else removed (listenersOf gs key)) /\
  added (listenersOf (onPersonalRemoved i cb gs) key) =
    added (listenersOf gs key).
Proof.
  unfold onPersonalRemoved, listenersOf. simpl.
  destruct (decide (ToString i = key)) as [->|Hne].
  - by rewrite lookup_insert_eq.
  - by rewrite lookup_insert_ne.
Qed.

(** [C2]: [upsert] of a record whose id the list does not hold appends
    the record and calls every callback registered with
    [onPersonalAdded] for that id once, in registration order, with
    the id; [upsert] of a record whose id the list holds overwrites the
    entry where it stands, the list keeping its length and its other
    entries, and calls no callback.  Registration order: on a table with
    nothing registered under [__proto__], registering a callback for an
    id other than [__proto__] puts it after the callbacks the id already
    has and leaves the other ids alone, so that the next [upsert] of a
    new record with that id calls the earlier callbacks and then this
    one. *)
Theorem C2_upsert_insert_or_overwrite gs n :
  (Forall (fun i => id i <> id n) (_personalList gs) ->
   _personalList (upsert n gs) = _personalList gs ++ [n] /\
   calls (upsert n gs) =
     calls gs ++
     map (fun cb => (cb, id n)) (added (listenersOf gs (id n)))) /\
  (Exists (fun i => id i = id n) (_personalList gs) ->
   exists (k : nat) (existing : Npc),
     _personalList gs !! k = Some existing /\
     id existing = id n /\
     (forall (j : nat) (e : Npc),
         _personalList gs !! j = Some e -> (j < k)%nat -> id e <> id n) /\
     _personalList (upsert n gs) = <[k := n]> (_personalList gs) /\
     length (_personalList (upsert n gs)) = length (_personalList gs) /\
     _personalList (upsert n gs) !! k = Some n /\
     calls (upsert n gs) = calls gs) /\
  (forall (i : JsId) cb,
      plainTable gs -> ToString i <> protoKey ->
      added (listenersOf (onPersonalAdded i cb gs) (ToString i)) =
        added (listenersOf gs (ToString i)) ++ [cb] /\
      (forall key : string,
          key <> ToString i ->
          listenersOf (onPersonalAdded i cb gs) key = listenersOf gs key) /\
      plainTable (onPersonalAdded i cb gs) /\
      (id n = ToString i ->
       Forall (fun e => id e <> id n) (_personalList gs) ->
       calls (upsert n (onPersonalAdded i cb gs)) =
         calls gs ++
         map (fun c => (c, id n))
           (added (listenersOf gs (id n)) ++ [cb]))).
Proof.
  split; [apply upsert_new|]. split.
  - intros HE.
    destruct (upsert_existing gs n HE) as (k & e & Hk & He & Hl & Hu & Hc).
    exists k, e. repeat (split; [done|]).
    rewrite Hu. split; [by rewrite length_insert|]. split; [|done].
    apply list_lookup_insert_eq. by eapply lookup_lt_Some.
  - intros i cb Hplain Hkey.
    destruct (onPersonalAdded_listeners gs i cb (ToString i)) as [H _].
    rewrite decide_True in H by done.
    split; [done|]. split; [|split].
    + intros key Hne. unfold onPersonalAdded, listenersOf. simpl.
      by rewrite lookup_insert_ne.
    + unfold plainTable, onPersonalAdded. simpl.
      by rewrite lookup_insert_ne.
    + intros Hid HF.
      destruct (upsert_new (onPersonalAdded i cb gs) n HF) as [_ Hc].
      rewrite Hc, Hid, H. done.
Qed.

Lemma removeId_list gs (i : JsId) :
  _personalList (snd (removeId i gs)) =
    filter (fun e => id e <> ToString i) (_personalList gs).
Proof.
  unfold removeId, getPersonalList. simpl.
  case_bool_decide; [|done].
  by destruct (trigger_removed_rest
                 (set_personalList
                    (filter (fun e => id e <> ToString i)
                       (_personalList gs)) gs)
                 (IdStr (ToString i))) as (-> & _ & _).
Qed.

Lemma filter_all (key : string) (l : list Npc) :
  Forall (fun e => id e <> key) l ->
  filter (fun e => id e <> key) l = l.
Proof.
  induction 1 as [|e l He _ IH]; [done|].
  by rewrite filter_cons_True, IH.
Qed.

Lemma filter_some (key : string) (l : list Npc) :
  Exists (fun e => id e = key) l ->
  length (filter (fun e => id e <> key) l) <> length l.
Proof.
  intros HE. apply Exists_exists in HE as (e & Hin & He).
  assert (length (filter (fun e => id e <> key) l) < length l)%nat;
    [|lia].
  apply (length_filter_lt _ _ e); [done|]. by intros Hne.
Qed.

(** [C5], as amended: [removeId] deletes every entry with the id; when
    an entry was deleted it calls every callback registered with
    [onPersonalRemoved] for that id once, in registration order, with
    the id; on an id that the list does not hold it changes nothing and
    calls nothing.  It hands back no value in either case ([undefined]):
    whether a deletion occurred shows in the list and in the calls
    only. *)
Theorem C5_removeId gs (i : JsId) :
  fst (removeId i gs) = JUndefined /\
  _personalList (snd (removeId i gs)) =
    filter (fun e => id e <> ToString i) (_personalList gs) /\
  Forall (fun e => id e <> ToString i)
    (_personalList (snd (removeId i gs))) /\
  (Exists (fun e => id e = ToString i) (_personalList gs) ->
   calls (snd (removeId i gs)) =
     calls gs ++
     map (fun cb => (cb, ToString i))
       (removed (listenersOf gs (ToString i)))) /\
  (Forall (fun e => id e <> ToString i) (_personalList gs) ->
   snd (removeId i gs) = gs).
Proof.
  split; [done|]. split; [apply removeId_list|]. split.
  { rewrite removeId_list. apply Forall_forall.
    intros e He. by apply list_elem_of_filter in He as [? _]. }
  split.
  - intros HE. apply (filter_some (ToString i)) in HE.
    unfold removeId, getPersonalList. simpl.
    rewrite bool_decide_eq_true_2 by done.
    by rewrite trigger_removed_calls.
  - intros HF. unfold removeId, getPersonalList. simpl.
    rewrite (filter_all _ _ HF).
    rewrite bool_decide_eq_false_2 by (intros H; by apply H).
    by destruct gs.
Qed.

Lemma isPersonalAdded_spec gs (i : JsId) :
  isPersonalAdded i gs =
    bool_decide (ToString i ∈ id <$> _personalList gs).
Proof.
  unfold isPersonalAdded.
  induction (_personalList gs) as [|e l IH]; [done|].
  simpl. rewrite IH. clear IH.
  destruct (String.eqb_spec (id e) (ToString i)) as [He|He]; simpl.
  - symmetry. apply bool_decide_eq_true_2. rewrite He. apply list_elem_of_here.
  - apply bool_decide_ext. rewrite elem_of_cons.
    split; [by right | by intros [Heq|Hin]].
Qed.

(** [C7]: a number id (an integer of magnitude below 2^53) and the
    string that [String] turns it into are the same id at every public
    entry point.  That string is the canonical decimal numeral of the
    number: the one string of digits, without white space, plus sign or
    leading zero and with a minus sign for a negative number, that
    [parseInt] reads as the number; so different numbers are different
    ids.  [isPersonalAdded] answers the same for the number and for its
    numeral, and says whether the list holds a record with that id;
    [onPersonalAdded] and [onPersonalRemoved] register under the same
    key for both; on a table with nothing registered under [__proto__],
    a callback registered under the number is called when the event for
    the string id is triggered, after the callbacks registered before
    it.  In particular [7] and the string [7] are the same id. *)
Theorem C7_id_normalisation gs (z : Z) cb :
  Z.abs z < safeBound ->
  plainTable gs ->
  let key := ToString (IdNum z) in
  (forall s : string,
      key = s <-> canonical s = true /\ parseInt s = Num z) /\
  (forall z' : Z,
      Z.abs z' < safeBound -> ToString (IdNum z') = key -> z' = z) /\
  isPersonalAdded (IdNum z) gs = isPersonalAdded (IdStr key) gs /\
  isPersonalAdded (IdNum z) gs =
    bool_decide (key ∈ id <$> _personalList gs) /\
  onPersonalAdded (IdNum z) cb gs = onPersonalAdded (IdStr key) cb gs /\
  onPersonalRemoved (IdNum z) cb gs = onPersonalRemoved (IdStr key) cb gs /\
  calls (_triggerPersonalAdded (IdStr key)
           (onPersonalAdded (IdNum z) cb gs)) =
    calls gs ++
    map (fun c => (c, key)) (added (listenersOf gs key) ++ [cb]) /\
  calls (_triggerPersonalRemoved (IdStr key)
           (onPersonalRemoved (IdNum z) cb gs)) =
    calls gs ++
    map (fun c => (c, key)) (removed (listenersOf gs key) ++ [cb]) /\
  plainTable (onPersonalAdded (IdNum z) cb gs) /\
  plainTable (onPersonalRemoved (IdNum z) cb gs) /\
  ToString (IdNum 7) = "7" /\
  isPersonalAdded (IdNum 7) gs = isPersonalAdded (IdStr "7") gs.
Proof.
  intros _ Hplain key.
  split; [apply NumberFacts.ToString_characterised|].
  split; [intros z' _ Hz; by apply NumberFacts.ToString_inj|].
  split; [done|]. split; [apply isPersonalAdded_spec|].
  split; [done|]. split; [done|].
  pose proof (NumberFacts.ToString_not_proto z) as Hkey.
  split; [|split; [|split; [|split]]].
  - rewrite trigger_added_calls.
    destruct (onPersonalAdded_listeners gs (IdNum z) cb key) as [H _].
    rewrite H. fold key. by rewrite decide_True.
  - rewrite trigger_removed_calls.
    destruct (onPersonalRemoved_listeners gs (IdNum z) cb key) as [H _].
    rewrite H. fold key. by rewrite decide_True.
  - unfold plainTable, onPersonalAdded. simpl.
    by rewrite lookup_insert_ne.
  - unfold plainTable, onPersonalRemoved. simpl.
    by rewrite lookup_insert_ne.
  - done.
Qed.

(** *** The ids of the list are pairwise distinct *)

Lemma upsert_NoDup gs n :
  NoDup (id <$> _personalList gs) ->
  NoDup (id <$> _personalList (upsert n gs)).
Proof.
  intros HN.
  destruct (decide (Exists (fun i => id i = id n) (_personalList gs)))
    as [HE|HE].
  - destruct (upsert_existing gs n HE) as (k & e & Hk & He & _ & Hu & _).
    rewrite Hu, list_fmap_insert, list_insert_id; [done|].
    by rewrite list_lookup_fmap, Hk, <- He.
  - apply not_Exists_Forall in HE; [|intros x; apply _].
    destruct (upsert_new gs n) as [Hu _].
    { eapply Forall_impl; [exact HE|]. by intros x Hx. }
    rewrite Hu, fmap_app. apply NoDup_app. split; [done|]. split.
    + intros x Hx Hx'. apply list_elem_of_fmap in Hx as (e & -> & He).
      simpl in Hx'. apply list_elem_of_singleton in Hx'.
      rewrite Forall_forall in HE. by apply (HE e He).
    + apply NoDup_singleton.
Qed.

Lemma removeId_NoDup gs (i : JsId) :
  NoDup (id <$> _personalList gs) ->
  NoDup (id <$> _personalList (snd (removeId i gs))).
Proof.
  intros HN. rewrite removeId_list.
  eapply sublist_NoDup; [exact HN|].
  apply fmap_sublist, sublist_filter.
Qed.

Lemma upsertAll_NoDup (ns : list Npc) gs :
  NoDup (id <$> _personalList gs) ->
  NoDup (id <$> _personalList (upsertAll ns gs)).
Proof.
  revert gs. induction ns as [|n ns IH]; intros gs HN; [done|].
  change (upsertAll (n :: ns) gs) with (upsertAll ns (upsert n gs)).
  by apply IH, upsert_NoDup.
Qed.

Lemma removeMany_NoDup (ids : list string) gs :
  NoDup (id <$> _personalList gs) ->
  NoDup (id <$> _personalList (removeMany ids gs)).
Proof.
  revert gs. induction ids as [|i ids IH]; intros gs HN; [done|].
  change (removeMany (i :: ids) gs)
    with (removeMany ids (snd (removeId (IdStr i) gs))).
  by apply IH, removeId_NoDup.
Qed.

Lemma AddPersonalToList_NoDup (args : list string)
  (events : list (list Command)) (page : list Command) gs :
  NoDup (id <$> _personalList gs) ->
  NoDup (id <$> _personalList (AddPersonalToList args events page gs)).
Proof.
  intros HN. unfold AddPersonalToList.
  destruct args as [|a args]; [by apply upsertAll_NoDup|].
  generalize (a :: args). clear a args. intros args.
  revert gs HN. induction args as [|t args IH]; intros gs HN; [done|].
  cbn [fold_left]. apply IH. clear IH.
  revert gs HN. induction events as [|pg events IH]; intros gs HN; [done|].
  cbn [fold_left]. by apply IH, upsertAll_NoDup.
Qed.

Lemma RemovePersonalFromList_NoDup (args : list string)
  (page : list Command) gs :
  NoDup (id <$> _personalList gs) ->
  NoDup (id <$> _personalList (RemovePersonalFromList args page gs)).
Proof.
  intros HN. unfold RemovePersonalFromList.
  destruct args; by apply removeMany_NoDup.
Qed.

Lemma run_NoDup (ops : list Op) gs :
  NoDup (id <$> _personalList gs) ->
  NoDup (id <$> _personalList (run ops gs)).
Proof.
  revert gs. induction ops as [|o ops IH]; intros gs HN; [done|].
  change (run (o :: ops) gs) with (run ops (apply gs o)).
  apply IH. destruct o; cbn [apply].
  - by apply upsert_NoDup.
  - by apply removeId_NoDup.
  - by apply AddPersonalToList_NoDup.
  - by apply RemovePersonalFromList_NoDup.
Qed.

Lemma upsert_elem gs n : n ∈ _personalList (upsert n gs).
Proof.
  destruct (decide (Exists (fun i => id i = id n) (_personalList gs)))
    as [HE|HE].
  - destruct (upsert_existing gs n HE) as (k & e & Hk & _ & _ & Hu & _).
    rewrite Hu. apply list_elem_of_lookup. exists k.
    apply list_lookup_insert_eq. by eapply lookup_lt_Some.
  - apply not_Exists_Forall in HE; [|intros x; apply _].
    destruct (upsert_new gs n) as [Hu _].
    { eapply Forall_impl; [exact HE|]. by intros x Hx. }
    rewrite Hu. apply elem_of_app. right. apply list_elem_of_here.
Qed.

Lemma filter_none (key : string) (l : list Npc) :
  key ∉ id <$> l -> filter (fun e => id e = key) l = [].
Proof.
  induction l as [|e l IH]; intros Hnotin; [done|].
  rewrite fmap_cons in Hnotin.
  apply not_elem_of_cons in Hnotin as [Hne Hnotin].
  rewrite filter_cons_False by (intros Heq; by apply Hne).
  by apply IH.
Qed.

Lemma unique_entry (l : list Npc) n :
  NoDup (id <$> l) -> n ∈ l ->
  filter (fun e => id e = id n) l = [n].
Proof.
  induction l as [|e l IH]; intros HN Hin.
  { by apply elem_of_nil in Hin. }
  rewrite fmap_cons in HN. apply NoDup_cons in HN as [Hnotin HN].
  apply elem_of_cons in Hin as [->|Hin].
  - rewrite filter_cons_True by done. f_equal.
    by apply filter_none.
  - rewrite filter_cons_False; [by apply IH|].
    intros Heq. apply Hnotin. rewrite Heq.
    by apply list_elem_of_fmap_2.
Qed.

(** [C9]: starting from the empty list, whatever callbacks are
    registered, after any run of [upsert]s, [removeId]s and the two
    plugin commands the records of the list have pairwise distinct ids;
    so has the list after the records of any parse are upserted in
    order; two records with one id upserted one after the other leave
    one entry with that id, equal to the second record. *)
Theorem C9_ids_pairwise_distinct
  (listeners : gmap string (@Listeners Callback)) (ops : list Op) :
  let gs := run ops (mkGameSystem [] listeners [] []) in
  NoDup (id <$> _personalList gs) /\
  (forall (cmds : list Command) (wantedId : option string),
      NoDup (id <$> _personalList
               (upsertAll (parseNpcBlocks cmds wantedId) gs))) /\
  (forall r1 r2 : Npc,
      id r1 = id r2 ->
      filter (fun e => id e = id r2)
        (_personalList (upsert r2 (upsert r1 gs))) = [r2] /\
      _personalList
        (upsert r2 (upsert r1 (mkGameSystem [] listeners [] [])))
        = [r2]).
Proof.
  intros gs.
  assert (HN : NoDup (id <$> _personalList gs)).
  { apply run_NoDup. simpl. apply NoDup_nil_2. }
  split; [done|]. split.
  - intros cmds wantedId. by apply upsertAll_NoDup.
  - intros r1 r2 Hid. split.
    + apply unique_entry; [|apply upsert_elem].
      by do 2 apply upsert_NoDup.
    + set (g0 := mkGameSystem [] listeners [] []).
      destruct (upsert_new g0 r1) as [H1 _]; [constructor|].
      destruct (upsert_existing (upsert r1 g0) r2)
        as (k & e & Hk & _ & _ & Hu & _).
      { rewrite H1. simpl. by apply Exists_cons_hd. }
      rewrite Hu, H1. rewrite H1 in Hk. simpl in *.
      destruct k as [|k]; [done|]. by destruct k.
Qed.

End WithCallback.

Import Samples.

Lemma C2_upsert_insert_or_overwrite_witness :
  (_personalList (upsert ann gs_listening) =
     _personalList gs_listening ++ [ann] /\
   calls (upsert ann gs_listening) =
     calls gs_listening ++
     map (fun cb => (cb, id ann))
       (added (listenersOf gs_listening (id ann)))) /\
  (exists (k : nat) (existing : Npc),
      _personalList (upsert ann (upsert bob gs_listening)) !! k
        = Some existing /\
      id existing = id ann2 /\
      (forall (j : nat) (e : Npc),
          _personalList (upsert ann (upsert bob gs_listening)) !! j = Some e ->
          (j < k)%nat -> id e <> id ann2) /\
      _personalList (upsert ann2 (upsert ann (upsert bob gs_listening))) =
        <[k := ann2]> (_personalList (upsert ann (upsert bob gs_listening))) /\
      length (_personalList
                (upsert ann2 (upsert ann (upsert bob gs_listening)))) =
        length (_personalList (upsert ann (upsert bob gs_listening))) /\
      _personalList (upsert ann2 (upsert ann (upsert bob gs_listening))) !! k
        = Some ann2 /\
      calls (upsert ann2 (upsert ann (upsert bob gs_listening))) =
        calls (upsert ann (upsert bob gs_listening))) /\
  (plainTable gs_listening /\ ToString (IdNum 7) <> protoKey /\
   added (listenersOf (onPersonalAdded (IdNum 7) 40%nat gs_listening)
            (ToString (IdNum 7))) =
     added (listenersOf gs_listening (ToString (IdNum 7))) ++ [40%nat] /\
   plainTable (onPersonalAdded (IdNum 7) 40%nat gs_listening) /\
   calls (upsert ann (onPersonalAdded (IdNum 7) 40%nat gs_listening)) =
     calls gs_listening ++
     map (fun c => (c, id ann))
       (added (listenersOf gs_listening (id ann)) ++ [40%nat])).
Proof.
  split; [|split].
  - apply (proj1 (C2_upsert_insert_or_overwrite gs_listening ann)).
    vm_compute. constructor.
  - apply (proj1 (proj2 (C2_upsert_insert_or_overwrite
                           (upsert ann (upsert bob gs_listening)) ann2))).
    vm_compute. apply Exists_cons_tl, Exists_cons_hd. reflexivity.
  - assert (Hplain : plainTable gs_listening) by (vm_compute; reflexivity).
    assert (Hkey : ToString (IdNum 7) <> protoKey) by discriminate.
    destruct (proj2 (proj2 (C2_upsert_insert_or_overwrite gs_listening ann))
                (IdNum 7) 40%nat Hplain Hkey) as (H1 & _ & H3 & H4).
    repeat (split; [assumption|]).
    apply H4; [reflexivity | vm_compute; constructor].
Defined.

(** The instance above, evaluated: callbacks [10] and [20] are called in
    that order when [7] is added, none when it is overwritten. *)
Example upsert_sample :
  calls (upsert ann gs_listening) = [(10%nat, "7"); (20%nat, "7")] /\
  _personalList (upsert ann2 (upsert ann (upsert bob gs_listening)))
    = [bob; ann2] /\
  calls (upsert ann2 (upsert ann (upsert bob gs_listening)))
    = [(10%nat, "7"); (20%nat, "7")].
Proof. repeat split. Qed.

Lemma C5_removeId_witness :
  calls (snd (removeId (IdNum 7) (upsert ann gs_listening))) =
    calls (upsert ann gs_listening) ++
    map (fun cb => (cb, ToString (IdNum 7)))
      (removed (listenersOf (upsert ann gs_listening) (ToString (IdNum 7))))
  /\ snd (removeId (IdNum 7) (upsert bob gs_listening))
     = upsert bob gs_listening.
Proof.
  split.
  - apply (proj1 (proj2 (proj2 (proj2
             (C5_removeId (upsert ann gs_listening) (IdNum 7)))))).
    vm_compute. apply Exists_cons_hd. reflexivity.
  - apply (proj2 (proj2 (proj2 (proj2
             (C5_removeId (upsert bob gs_listening) (IdNum 7)))))).
    vm_compute. constructor; [discriminate | constructor].
Defined.

(** [C5], as stated, fails: removing the id [7] from a list that holds it
    deletes the entry and calls the removal callback, yet what [removeId]
    hands back is [undefined], not [true]. *)
Lemma C5_counterexample :
  _personalList (upsert ann gs_listening) = [ann] /\
  _personalList (snd (removeId (IdStr "7") (upsert ann gs_listening))) = [] /\
  calls (snd (removeId (IdStr "7") (upsert ann gs_listening))) =
    calls (upsert ann gs_listening) ++ [(30%nat, "7")] /\
  fst (removeId (IdStr "7") (upsert ann gs_listening)) = JUndefined /\
  fst (removeId (IdStr "7") (upsert ann gs_listening)) <> JBool true.
Proof.
  repeat split. discriminate.
Qed.

Lemma C7_id_normalisation_witness :
  ToString (IdNum 8) = "8" /\
  isPersonalAdded (IdNum 8) (upsert bob gs_listening) =
    isPersonalAdded (IdStr "8") (upsert bob gs_listening) /\
  isPersonalAdded (IdNum 8) (upsert bob gs_listening) = true /\
  calls (_triggerPersonalAdded (IdStr "7")
           (onPersonalAdded (IdNum 7) 40%nat gs_listening)) =
    [(10%nat, "7"); (20%nat, "7"); (40%nat, "7")].
Proof.
  assert (H8 : Z.abs 8 < safeBound) by reflexivity.
  assert (H7 : Z.abs 7 < safeBound) by reflexivity.
  assert (Hb : plainTable (upsert bob gs_listening))
    by (vm_compute; reflexivity).
  assert (Hl : plainTable gs_listening) by (vm_compute; reflexivity).
  destruct (C7_id_normalisation (upsert bob gs_listening) 8 40%nat H8 Hb)
    as (Hs & _ & Heq & Hin & _).
  destruct (C7_id_normalisation gs_listening 7 40%nat H7 Hl)
    as (_ & _ & _ & _ & _ & _ & Hc & _).
  split; [apply Hs; split; reflexivity|].
  split; [exact Heq|]. split; [rewrite Hin; reflexivity|].
  exact Hc.
Defined.

Lemma C9_ids_pairwise_distinct_witness :
  filter (fun e => id e = id ann2)
    (_personalList
       (upsert ann2
          (upsert ann
             (run [OpUpsert bob; OpRemove (IdNum 8); OpUpsert bob]
                (mkGameSystem [] (_personalListeners gs_listening) [] []))))) = [ann2] /\
  _personalList
    (upsert ann2
       (upsert ann (mkGameSystem [] (_personalListeners gs_listening) [] [])))
    = [ann2].
Proof.
  apply (proj2 (proj2 (C9_ids_pairwise_distinct
                         (_personalListeners gs_listening)
                         [OpUpsert bob; OpRemove (IdNum 8); OpUpsert bob]))
           ann ann2).
  reflexivity.
Defined.

(** Two blocks with the id [7] are parsed into two records; upserting
    both leaves one entry, with the fields of the second block. *)
Example same_id_blocks :
  let parsed :=
    parseNpcBlocks
      (map comment ["Type: NPC"; "ID: 7"; "Name: Ann";
                    "Type: NPC"; "ID: 7"; "Name: Ann B.";
                    "Category: Smith"; "Face: Actor1, 3"]) None in
  parsed = [ann; ann2] /\
  _personalList (upsertAll parsed gs_listening) = [ann2].
Proof. split; reflexivity. Qed.

End RegistryFacts.

(** ** The paginator *)

Module PaginatorFacts.
Import JsString Paginator.

(** The [k]-th page, when the fuel covers the lines left. *)
Lemma pagesLoop_lookup (lines : list string) (n : nat) :
  (1 <= n)%nat ->
  forall (fuel i k : nat),
    (length lines - i <= fuel)%nat ->
    pagesLoop fuel lines n i !! k =
      if (i + k * n <? length lines)%nat
      then Some (take n (drop (i + k * n) lines))
      else None.
Proof.
  intros Hn. induction fuel as [|fuel IH]; intros i k Hfuel.
  - simpl. destruct (Nat.ltb_spec (i + k * n) (length lines)); [lia|done].
  - simpl. destruct (Nat.ltb_spec i (length lines)) as [Hi|Hi].
    + destruct k as [|k].
      * simpl. rewrite Nat.add_0_r.
        by destruct (Nat.ltb_spec i (length lines)); [|lia].
      * simpl. rewrite IH by lia.
        by replace (i + n + k * n)%nat with (i + (n + k * n))%nat by lia.
    + destruct (Nat.ltb_spec (i + k * n) (length lines)); [lia|done].
Qed.

(** The pages, one after the other, are the lines from [i] on. *)
Lemma pagesLoop_concat (lines : list string) (n : nat) :
  (1 <= n)%nat ->
  forall (fuel i : nat),
    (length lines - i <= fuel)%nat ->
    concat (pagesLoop fuel lines n i) = drop i lines.
Proof.
  intros Hn. induction fuel as [|fuel IH]; intros i Hfuel.
  - simpl. symmetry. apply drop_ge. lia.
  - simpl. destruct (Nat.ltb_spec i (length lines)) as [Hi|Hi].
    + simpl. rewrite IH by lia.
      rewrite <- (take_drop n (drop i lines)) at 2.
      by rewrite drop_drop.
    + simpl. symmetry. by apply drop_ge.
Qed.

(** More fuel than the lines left changes nothing: the loop ends on its
    own test. *)
Lemma pagesLoop_fuel (lines : list string) (n : nat) :
  (1 <= n)%nat ->
  forall (fuel fuel' i : nat),
    (length lines - i <= fuel)%nat -> (length lines - i <= fuel')%nat ->
    pagesLoop fuel lines n i = pagesLoop fuel' lines n i.
Proof.
  intros Hn. induction fuel as [|fuel IH]; intros fuel' i H1 H2.
  - destruct fuel' as [|fuel']; [done|]. simpl.
    by destruct (Nat.ltb_spec i (length lines)); [lia|].
  - simpl. destruct (Nat.ltb_spec i (length lines)) as [Hi|Hi].
    + destruct fuel' as [|fuel']; [lia|]. simpl.
      destruct (Nat.ltb_spec i (length lines)); [|lia].
      f_equal. apply IH; lia.
    + destruct fuel' as [|fuel']; [done|]. simpl.
      by destruct (Nat.ltb_spec i (length lines)); [lia|].
Qed.

Lemma linesPerPage_pos (win : Window) : 1 <= linesPerPage win.
Proof. unfold linesPerPage. lia. Qed.

Lemma pagesLoop_S (fuel : nat) (lines : list string) (n i : nat) :
  pagesLoop (S fuel) lines n i =
    if (i <? length lines)%nat
    then take n (drop i lines) :: pagesLoop fuel lines n (i + n)
    else [].
Proof. reflexivity. Qed.

Lemma pagesLoop_done (fuel : nat) (lines : list string) (n i : nat) :
  (length lines <= i)%nat -> pagesLoop fuel lines n i = [].
Proof.
  intros Hi. destruct fuel as [|fuel]; [done|].
  rewrite pagesLoop_S.
  by destruct (Nat.ltb_spec i (length lines)); [lia|].
Qed.

Lemma paginate_exact (win : Window) (lines : list string) :
  Z.of_nat (length lines) = linesPerPage win ->
  paginate win lines = [lines].
Proof.
  intros Hlen. unfold paginate.
  pose proof (linesPerPage_pos win) as Hpos.
  rewrite <- Hlen, Nat2Z.id.
  destruct (length lines) as [|m] eqn:E; [lia|].
  rewrite pagesLoop_S, E.
  destruct (Nat.ltb_spec 0 (S m)); [|lia].
  rewrite drop_0, take_ge by lia.
  by rewrite pagesLoop_done by lia.
Qed.

Lemma paginate_one_more (win : Window) (lines : list string) :
  Z.of_nat (length lines) = linesPerPage win + 1 ->
  paginate win lines =
    [take (Z.to_nat (linesPerPage win)) lines;
     drop (Z.to_nat (linesPerPage win)) lines].
Proof.
  intros Hlen. unfold paginate.
  pose proof (linesPerPage_pos win) as Hpos.
  set (n := Z.to_nat (linesPerPage win)).
  assert (Hn : length lines = S n) by lia.
  assert (Hn1 : (1 <= n)%nat) by lia.
  rewrite Hn at 1. rewrite pagesLoop_S.
  destruct (Nat.ltb_spec 0 (length lines)); [|lia].
  rewrite drop_0. f_equal.
  destruct n as [|m] eqn:En; [lia|].
  rewrite pagesLoop_S.
  destruct (Nat.ltb_spec (0 + S m) (length lines)); [|lia].
  rewrite (take_ge (drop (0 + S m) lines)) by (rewrite length_drop; lia).
  by rewrite pagesLoop_done by lia.
Qed.

(** [C6]: for a positive line height, a page holds
    [linesPerPage = max(1, floor(contentsHeight / lineHeight) - 1)]
    lines; page [k] is the [linesPerPage] lines from line
    [k * linesPerPage] on, fewer on the last page, and there is no page
    past the last line, so that the pages in order give the lines back;
    a list of exactly [linesPerPage] lines makes one page and no page
    indicator, one line more makes two pages; the indicator is drawn if
    and only if there is more than one page.  [setText] paginates the
    wrapped lines of the text and starts on page 0. *)
Theorem C6_pagination (win : Window) (lines : list string) :
  0 < lineHeight win ->
  let n := linesPerPage win in
  let d := mkDesc (paginate win lines) 0 in
  n = Z.max 1 (contentsHeight win / lineHeight win - 1) /\
  (forall text : string,
      setText win text = mkDesc (paginate win (wrap win text)) 0) /\
  (forall k : nat,
      _pages d !! k =
        if (k * Z.to_nat n <? length lines)%nat
        then Some (take (Z.to_nat n) (drop (k * Z.to_nat n) lines))
        else None) /\
  concat (_pages d) = lines /\
  (Z.of_nat (length lines) = n ->
   _pages d = [lines] /\ footerShown d = false) /\
  (Z.of_nat (length lines) = n + 1 ->
   _pages d = [take (Z.to_nat n) lines; drop (Z.to_nat n) lines] /\
   length (_pages d) = 2%nat /\ footerShown d = true) /\
  (forall d' : Desc,
      footerShown d' = bool_decide (1 < length (_pages d'))%nat).
Proof.
  intros Hlh n d.
  pose proof (linesPerPage_pos win) as Hpos. fold n in Hpos.
  assert (Hn : (1 <= Z.to_nat n)%nat) by lia.
  split; [done|]. split; [done|]. split.
  { intros k. simpl. unfold paginate. fold n.
    by rewrite (pagesLoop_lookup lines _ Hn) by lia. }
  split.
  { simpl. unfold paginate. fold n.
    by rewrite (pagesLoop_concat lines _ Hn) by lia. }
  split.
  { intros Hlen. simpl. unfold footerShown. simpl.
    by rewrite (paginate_exact win lines Hlen). }
  split.
  { intros Hlen. simpl. unfold footerShown. simpl.
    by rewrite (paginate_one_more win lines Hlen). }
  intros d'. unfold footerShown.
  destruct (Nat.ltb_spec 1 (length (_pages d'))).
  - by rewrite bool_decide_eq_true_2.
  - rewrite bool_decide_eq_false_2; [done|lia].
Qed.

(** *** Word wrap *)

Lemma String_length_app (a b : string) :
  String.length (a +:+ b) = (String.length a + String.length b)%nat.
Proof.
  induction a as [|c a IH]; [done|].
  change (String c a +:+ b) with (String c (a +:+ b)).
  simpl. by rewrite IH.
Qed.

Lemma append_blank_ne (a w : string) : a +:+ w +:+ " " <> "".
Proof. destruct a, w; discriminate. Qed.

Lemma truthy_append_blank (a w : string) : truthy (a +:+ w +:+ " ") = true.
Proof.
  unfold truthy. apply negb_true_iff, String.eqb_neq, append_blank_ne.
Qed.

Lemma render_snoc (g : list string) (w : string) :
  render (g ++ [w]) = render g +:+ w +:+ " ".
Proof. unfold render. by rewrite fold_left_app. Qed.

Lemma render_ne (g : list string) : g <> [] -> render g <> "".
Proof.
  destruct g as [|w g _] using rev_ind; [done|].
  intros _. rewrite render_snoc. apply append_blank_ne.
Qed.

Lemma insert_last (l : list string) (x y : string) :
  <[(length (l ++ [x]) - 1)%nat := y]> (l ++ [x]) = l ++ [y].
Proof.
  rewrite length_app. simpl.
  replace (length l + 1 - 1)%nat with (length l + 0)%nat by lia.
  by rewrite insert_app_r.
Qed.

Lemma words_ne (text : string) : words text <> [].
Proof.
  unfold words. induction text as [|c text IH]; simpl; [done|].
  destruct (Ascii.eqb c " "); [done|].
  by destruct (split " " text).
Qed.

Lemma wrapStep_empty_cur (win : Window) (lines : list string)
  (w : string) :
  wrapStep win (lines, "") w =
    (<[(length lines - 1)%nat := w +:+ " "]> lines, w +:+ " ").
Proof.
  unfold wrapStep. change (truthy "") with false.
  by rewrite andb_false_r.
Qed.

Lemma wrapStep_grouped (win : Window) (seen : list string)
  (st : list string * string) (w : string) :
  grouped seen st -> grouped (seen ++ [w]) (wrapStep win st w).
Proof.
  intros [[-> ->] | (gs & g & Hg & Hgs & Hcat & ->)]; right.
  - exists [], [w]. rewrite wrapStep_empty_cur. by repeat split.
  - unfold wrapStep.
    destruct ((textWidth win (render g +:+ w +:+ " ") >? maxW win)
              && truthy (render g)).
    + exists (gs ++ [g]), [w]. split; [done|]. split.
      { apply Forall_app. split; [done|]. by apply Forall_singleton. }
      split.
      { rewrite concat_app, Hcat. done. }
      by rewrite (map_app _ (gs ++ [g]) [[w]]).
    + exists gs, (g ++ [w]). split.
      { by destruct g. }
      split; [done|]. split.
      { rewrite !concat_app in *. simpl in *.
        rewrite !app_nil_r in *. by rewrite app_assoc, Hcat. }
      rewrite !map_app. simpl. rewrite insert_last.
      by rewrite render_snoc.
Qed.

Lemma wrapFrom_grouped (win : Window) (ws seen : list string)
  (st : list string * string) :
  grouped seen st -> grouped (seen ++ ws) (wrapFrom win st ws).
Proof.
  revert seen st. induction ws as [|w ws IH]; intros seen st H.
  - by rewrite app_nil_r.
  - change (wrapFrom win st (w :: ws))
      with (wrapFrom win (wrapStep win st w) ws).
    replace (seen ++ w :: ws) with ((seen ++ [w]) ++ ws)
      by by rewrite <- app_assoc.
    by apply IH, wrapStep_grouped.
Qed.

Lemma wrapWords_groups (win : Window) (ws : list string) :
  ws <> [] ->
  exists groups : list (list string),
    Forall (fun g => g <> []) groups /\
    concat groups = ws /\
    wrapWords win ws = map render groups.
Proof.
  intros Hne.
  pose proof (wrapFrom_grouped win ws [] ([""], "")
                (or_introl (conj eq_refl eq_refl))) as H.
  simpl in H.
  destruct H as [[Hws _] | (gs & g & Hg & Hgs & Hcat & Hst)]; [done|].
  exists (gs ++ [g]). split.
  { apply Forall_app. split; [done|]. by apply Forall_singleton. }
  split; [done|].
  unfold wrapWords. by rewrite Hst.
Qed.

Lemma wrapStep_cur_truthy (win : Window) (st : list string * string)
  (w : string) :
  truthy (snd (wrapStep win st w)) = true.
Proof.
  destruct st as [lines cur]. unfold wrapStep.
  destruct (_ && _); simpl.
  - apply (truthy_append_blank "" w).
  - apply truthy_append_blank.
Qed.

Lemma wrapFrom_snoc (win : Window) (st : list string * string)
  (ws : list string) (w : string) :
  wrapFrom win st (ws ++ [w]) = wrapStep win (wrapFrom win st ws) w.
Proof. unfold wrapFrom. by rewrite fold_left_app. Qed.

Lemma wrapFrom_cur_truthy (win : Window) (st : list string * string)
  (ws : list string) :
  ws <> [] -> truthy (snd (wrapFrom win st ws)) = true.
Proof.
  destruct ws as [|w ws _] using rev_ind; [done|].
  intros _. rewrite wrapFrom_snoc. apply wrapStep_cur_truthy.
Qed.

(** Lines that were closed before stay as they are. *)
Lemma wrapStep_prefix (win : Window) (pre lines : list string)
  (cur w : string) :
  lines <> [] ->
  wrapStep win (pre ++ lines, cur) w =
    (pre ++ fst (wrapStep win (lines, cur) w),
     snd (wrapStep win (lines, cur) w)) /\
  fst (wrapStep win (lines, cur) w) <> [].
Proof.
  intros Hne. unfold wrapStep.
  destruct (_ && _); simpl.
  - split; [by rewrite app_assoc | by destruct lines].
  - split.
    + f_equal. rewrite length_app.
      replace (length pre + length lines - 1)%nat
        with (length pre + (length lines - 1))%nat.
      * by rewrite insert_app_r.
      * destruct lines; [done | simpl; lia].
    + intros H. apply (f_equal length) in H.
      rewrite length_insert in H. by destruct lines.
Qed.

Lemma wrapFrom_prefix (win : Window) (pre : list string)
  (ws lines : list string) (cur : string) :
  lines <> [] ->
  wrapFrom win (pre ++ lines, cur) ws =
    (pre ++ fst (wrapFrom win (lines, cur) ws),
     snd (wrapFrom win (lines, cur) ws)).
Proof.
  revert lines cur. induction ws as [|w ws IH]; intros lines cur Hne.
  - done.
  - change (wrapFrom win (pre ++ lines, cur) (w :: ws))
      with (wrapFrom win (wrapStep win (pre ++ lines, cur) w) ws).
    change (wrapFrom win (lines, cur) (w :: ws))
      with (wrapFrom win (wrapStep win (lines, cur) w) ws).
    destruct (wrapStep_prefix win pre lines cur w Hne) as [-> Hne'].
    destruct (wrapStep win (lines, cur) w) as [lines' cur'].
    by apply IH.
Qed.

(** A word too wide for a line, under a measurer for which adding text
    never shrinks the width, stands alone on its line. *)
Lemma wide_word_alone (win : Window) (ws1 ws2 : list string) (w : string) :
  (forall a b : string, textWidth win b <= textWidth win (a +:+ b)) ->
  (forall a b : string, textWidth win a <= textWidth win (a +:+ b)) ->
  maxW win < textWidth win (w +:+ " ") ->
  wrapWords win (ws1 ++ w :: ws2) =
    linesOf win ws1 ++ [w +:+ " "] ++ linesOf win ws2.
Proof.
  intros Hl Hr Hwide.
  assert (Hafter : wrapFrom win ([""], "") (ws1 ++ [w]) =
                   (linesOf win ws1 ++ [w +:+ " "], w +:+ " ")).
  { rewrite wrapFrom_snoc. destruct ws1 as [|v ws1].
    - change (wrapFrom win ([""], "") []) with ([""], "").
      by rewrite wrapStep_empty_cur.
    - pose proof (wrapFrom_cur_truthy win ([""], "") (v :: ws1)) as Ht.
      unfold linesOf, wrapWords.
      destruct (wrapFrom win ([""], "") (v :: ws1)) as [l1 c1].
      simpl in Ht. unfold wrapStep. rewrite Ht by done.
      assert (Hgt : (textWidth win (c1 +:+ w +:+ " ") >? maxW win) = true).
      { apply Z.gtb_lt. specialize (Hl c1 (w +:+ " ")). lia. }
      by rewrite Hgt. }
  unfold wrapWords.
  replace (ws1 ++ w :: ws2) with ((ws1 ++ [w]) ++ ws2)
    by by rewrite <- app_assoc.
  unfold wrapFrom in *. rewrite fold_left_app, Hafter.
  destruct ws2 as [|v rest]; [done|].
  cbn [fold_left linesOf]. unfold wrapWords, wrapFrom. cbn [fold_left].
  rewrite wrapStep_empty_cur.
  assert (Hstep : wrapStep win (linesOf win ws1 ++ [w +:+ " "], w +:+ " ") v
                  = ((linesOf win ws1 ++ [w +:+ " "]) ++ [v +:+ " "],
                     v +:+ " ")).
  { unfold wrapStep.
    assert (Ht : truthy (w +:+ " ") = true)
      by apply (truthy_append_blank "" w).
    rewrite Ht.
    assert (Hgt : (textWidth win ((w +:+ " ") +:+ v +:+ " ") >? maxW win)
                  = true).
    { apply Z.gtb_lt. specialize (Hr (w +:+ " ") (v +:+ " ")). lia. }
    by rewrite Hgt. }
  rewrite Hstep.
  pose proof (wrapFrom_prefix win (linesOf win ws1 ++ [w +:+ " "]) rest
                [v +:+ " "] (v +:+ " ")) as Hp.
  unfold wrapFrom in Hp. rewrite Hp by done.
  simpl. by rewrite <- app_assoc.
Qed.

(** [C10], as amended: when [cur] is empty the word goes onto the current
    line whatever its width; every wrapped line is the rendering of one
    or more of the items of [text.split(" ")], taken in order and each
    followed by a blank, so no line is the empty string (an item may be
    the empty string, and a line may hold blanks only); and, for a
    measurer under which adding text before or after never shrinks the
    width, a word that is wider than the line by itself is the only word
    of its line, the words before it and after it being wrapped as they
    would be on their own.  A line without a word does occur: in every
    window the empty text is wrapped into one line holding one blank. *)
Theorem C10_wrap_keeps_a_word_per_line (win : Window) :
  (forall (lines : list string) (w : string),
      wrapStep win (lines, "") w =
        (<[(length lines - 1)%nat := w +:+ " "]> lines, w +:+ " ")) /\
  (forall text : string,
      exists groups : list (list string),
        Forall (fun g => g <> []) groups /\
        concat groups = words text /\
        wrap win text = map render groups) /\
  (forall text : string, Forall (fun l => l <> "") (wrap win text)) /\
  ((forall a b : string, textWidth win b <= textWidth win (a +:+ b)) ->
   (forall a b : string, textWidth win a <= textWidth win (a +:+ b)) ->
   forall (text : string) (ws1 ws2 : list string) (w : string),
     maxW win < textWidth win (w +:+ " ") ->
     words text = ws1 ++ w :: ws2 ->
     wrap win text = linesOf win ws1 ++ [w +:+ " "] ++ linesOf win ws2) /\
  (wrap win "" = [" "] /\ WrapShape.holdsWord " " = false).
Proof.
  split; [apply wrapStep_empty_cur|]. split.
  { intros text. apply wrapWords_groups, words_ne. }
  split.
  { intros text.
    destruct (wrapWords_groups win (words text) (words_ne text))
      as (groups & Hg & _ & Hw).
    unfold wrap. rewrite Hw. apply Forall_fmap.
    eapply Forall_impl; [exact Hg|]. intros g. apply render_ne. }
  split; [|split; [|done]].
  - intros Hl Hr text ws1 ws2 w Hwide Hwords.
    unfold wrap. rewrite Hwords. by apply wide_word_alone.
  - unfold wrap, wrapWords, words. cbn [split wrapFrom fold_left].
    by rewrite wrapStep_empty_cur.
Qed.

Import Samples.

Lemma C6_pagination_witness :
  (_pages (mkDesc (paginate win10 ["a "; "b "; "c "]) 0)
     = [["a "; "b "; "c "]] /\
   footerShown (mkDesc (paginate win10 ["a "; "b "; "c "]) 0) = false) /\
  (_pages (mkDesc (paginate win10 ["a "; "b "; "c "; "d "]) 0) =
     [take (Z.to_nat (linesPerPage win10)) ["a "; "b "; "c "; "d "];
      drop (Z.to_nat (linesPerPage win10)) ["a "; "b "; "c "; "d "]] /\
   length (_pages (mkDesc (paginate win10 ["a "; "b "; "c "; "d "]) 0))
     = 2%nat /\
   footerShown (mkDesc (paginate win10 ["a "; "b "; "c "; "d "]) 0) = true).
Proof.
  split.
  - destruct (C6_pagination win10 ["a "; "b "; "c "])
      as (_ & _ & _ & _ & H & _); [reflexivity|].
    apply H. reflexivity.
  - destruct (C6_pagination win10 ["a "; "b "; "c "; "d "])
      as (_ & _ & _ & _ & _ & H & _); [reflexivity|].
    apply H. reflexivity.
Defined.

(** [setText] on a text of six words, one of them too wide: four lines on
    pages of three. *)
Example setText_sample :
  linesPerPage win10 = 3 /\
  setText win10 "a bc supercalifragilistic d e  f" =
    mkDesc [["a bc "; "supercalifragilistic "; "d e  "]; ["f "]] 0 /\
  footerShown (setText win10 "a bc supercalifragilistic d e  f") = true /\
  wrap win10 "" = [" "].
Proof. repeat split. Qed.

Lemma C10_wrap_keeps_a_word_per_line_witness :
  wrap win10 "a bc supercalifragilistic d e  f" =
    linesOf win10 ["a"; "bc"] ++ ["supercalifragilistic" +:+ " "] ++
    linesOf win10 ["d"; "e"; ""; "f"].
Proof.
  apply (proj1 (proj2 (proj2 (proj2 (C10_wrap_keeps_a_word_per_line win10))))).
  - intros a b. simpl. rewrite String_length_app. lia.
  - intros a b. simpl. rewrite String_length_app. lia.
  - reflexivity.
  - reflexivity.
Defined.

(** [C10], as stated, fails.  A line need not hold a word: the empty
    text is wrapped into one line that is a single blank, and two blanks
    in a row give a line of its own that is a single blank when the
    words around them fill their lines.  And that a word wider than the
    line stands alone depends on the measurer: under one that finds a
    longer text narrower, the over-wide word [big] shares its line. *)
Lemma C10_counterexample :
  (wrap win10 "" = [" "] /\
   wrap win10 "abcd  abcde" = ["abcd "; " "; "abcde "] /\
   WrapShape.holdsWord " " = false /\
   ~ (forall text : string,
         Forall (fun l => WrapShape.holdsWord l = true) (wrap win10 text))) /\
  (maxW WrapShape.winShrinking <
     textWidth WrapShape.winShrinking ("big" +:+ " ") /\
   wrap WrapShape.winShrinking "a big b" = ["a big b "]).
Proof.
  split; [|split; reflexivity].
  repeat (split; [reflexivity|]).
  intros H. specialize (H ""). by apply Forall_cons in H as [H _].
Qed.

End PaginatorFacts.

(** ** More on the parser *)

Module ParserMore.
Import JsString JsNumber Parser ParserShape.

(** *** [trim] leaves nothing to trim *)

Lemma trimStart_head (s : string) :
  trimStart s = "" \/
  exists c r, trimStart s = String c r /\ is_ws c = false.
Proof.
  induction s as [|c s IH]; [by left|].
  simpl. destruct (is_ws c) eqn:E; [done|]. right. by exists c, s.
Qed.

Lemma trimEnd_idem (s : string) : trimEnd (trimEnd s) = trimEnd s.
Proof.
  induction s as [|c s IH]; [done|].
  simpl. destruct (trimEnd s) as [|d t] eqn:E.
  - destruct (is_ws c) eqn:W; [done|]. simpl. by rewrite W.
  - change (trimEnd (String c (String d t)))
      with (match trimEnd (String d t) with
            | EmptyString =>
                if is_ws c then EmptyString else String c EmptyString
            | t' => String c t'
            end).
    by rewrite IH.
Qed.

Lemma trimEnd_head (c : ascii) (r : string) :
  is_ws c = false -> exists r', trimEnd (String c r) = String c r'.
Proof.
  intros W. simpl. destruct (trimEnd r).
  - rewrite W. by exists "".
  - by eexists.
Qed.

Lemma trim_idem (s : string) : trim (trim s) = trim s.
Proof.
  unfold trim.
  destruct (trimStart_head s) as [-> | (c & r & -> & W)]; [done|].
  destruct (trimEnd_head c r W) as [r' E].
  rewrite E. simpl trimStart. rewrite W. rewrite <- E.
  apply trimEnd_idem.
Qed.

(** *** The draft is tidy all along *)

Lemma tidy_fresh : tidy freshNpc.
Proof. repeat split; simpl; auto. Qed.

Lemma take3_filter_tidy (l : list jsnum) :
  (length (take 3 (List.filter (fun n => negb (isNaN n)) l)) <= 3)%nat /\
  Forall (fun n => isNaN n = false)
    (take 3 (List.filter (fun n => negb (isNaN n)) l)).
Proof.
  split.
  - rewrite length_take. lia.
  - apply Forall_take, Forall_forall. intros n Hn.
    apply list_elem_of_In, filter_In in Hn as [_ Hn].
    by apply negb_true_iff.
Qed.

Lemma fieldStep_tidy (line : string) (n : Npc) (rn : bool) :
  tidy n -> tidy (fst (fieldStep line n rn)).
Proof.
  intros (H1 & H2 & H3 & H4 & H5 & H6). unfold fieldStep.
  destruct (startsWith line "ID:").
  { repeat split; simpl; auto using trim_idem. }
  destruct (startsWith line "Name:").
  { repeat split; simpl; auto using trim_idem. }
  destruct (startsWith line "Category:").
  { repeat split; simpl; auto using trim_idem. }
  destruct (startsWith line "Face:").
  { repeat split; simpl; auto using trim_idem. }
  destruct (startsWith line "Icon:").
  { destruct (take3_filter_tidy
                (map (fun s => parseInt (trim s)) (split "," (slice 5 line))))
      as [Hlen Hnum].
    repeat split; simpl; auto. }
  destruct (startsWith line "Details:").
  { repeat split; simpl; auto. }
  destruct rn; repeat split; simpl; auto.
Qed.

Lemma pushCurrent_tidy (wantedId : option string) (st : PState) :
  tidyState st -> tidyState (pushCurrent wantedId st).
Proof.
  intros HT. pose proof HT as [HR HN]. unfold pushCurrent.
  destruct (npc st) as [n|] eqn:E; [|exact HT].
  destruct (typeIsNPC n && truthy (name n) && truthy (id n)); [|exact HT].
  destruct (wanted wantedId n); [|exact HT].
  split; simpl.
  - apply Forall_app. split; [done|]. apply Forall_singleton. by apply HN.
  - exact HN.
Qed.

Lemma step_tidy (wantedId : option string) (st : PState) (cmd : Command) :
  tidyState st -> tidyState (step wantedId st cmd).
Proof.
  intros HT. pose proof HT as [HR HN]. unfold step.
  destruct (negb (isComment cmd)); [done|].
  destruct (isTypeNpc _).
  { split; simpl.
    - by apply pushCurrent_tidy.
    - intros n [= <-]. apply tidy_fresh. }
  destruct (npc st) as [n|] eqn:E; [|done].
  pose proof (fieldStep_tidy (trim (parameters0 cmd)) n (readingNote st)
                (HN n eq_refl)) as HF.
  destruct (fieldStep _ n _) as [n' rn']. split; simpl; [done|].
  by intros ? [= <-].
Qed.

Lemma parse_tidy (cmds : list Command) (wantedId : option string) :
  Forall tidy (parseNpcBlocks cmds wantedId).
Proof.
  unfold parseNpcBlocks.
  assert (H : tidyState (fold_left (step wantedId) cmds initial)).
  { assert (H0 : tidyState initial) by (split; [constructor | done]).
    revert H0. generalize initial.
    induction cmds as [|c cmds IH]; intros st H0; [done|].
    simpl. by apply IH, step_tidy. }
  by apply (pushCurrent_tidy wantedId) in H as [H _].
Qed.

(** [X1]: whatever the comment lines, a parsed record carries at most
    three icon indexes and none of them is [NaN]. *)
Theorem parse_icons_at_most_three
  (cmds : list Command) (wantedId : option string) :
  Forall (fun r => (length (iconIndexes r) <= 3)%nat /\
                   Forall (fun n => isNaN n = false) (iconIndexes r))
    (parseNpcBlocks cmds wantedId).
Proof.
  eapply Forall_impl; [apply parse_tidy|].
  by intros r (_ & _ & _ & _ & H5 & H6).
Qed.

(** [X2]: the id, name, category and face name of a parsed record have no
    white space at either end: trimming them again changes nothing. *)
Theorem parse_text_fields_trimmed
  (cmds : list Command) (wantedId : option string) :
  Forall (fun r => trim (id r) = id r /\ trim (name r) = name r /\
                   trim (category r) = category r /\
                   trim (faceName r) = faceName r)
    (parseNpcBlocks cmds wantedId).
Proof.
  eapply Forall_impl; [apply parse_tidy|].
  by intros r (H1 & H2 & H3 & H4 & _).
Qed.

(** *** Parsing for one id is parsing for all, then filtering *)

Lemma wanted_nonempty (w : string) (n : Npc) :
  w <> "" -> wanted (Some w) n = bool_decide (id n = w).
Proof.
  intros Hw. simpl.
  assert (Ht : truthy w = true).
  { unfold truthy. by apply negb_true_iff, String.eqb_neq. }
  rewrite Ht. simpl.
  destruct (String.eqb_spec (id n) w).
  - by rewrite bool_decide_eq_true_2.
  - by rewrite bool_decide_eq_false_2.
Qed.

Lemma pushCurrent_filter (w : string) (s1 s2 : PState) :
  w <> "" ->
  npc s1 = npc s2 -> readingNote s1 = readingNote s2 ->
  results s1 = filter (fun r => id r = w) (results s2) ->
  npc (pushCurrent (Some w) s1) = npc (pushCurrent None s2) /\
  readingNote (pushCurrent (Some w) s1) = readingNote (pushCurrent None s2) /\
  results (pushCurrent (Some w) s1) =
    filter (fun r => id r = w) (results (pushCurrent None s2)).
Proof.
  intros Hw Hn Hr Hres. unfold pushCurrent. rewrite Hn.
  destruct (npc s2) as [n|] eqn:E; [|repeat split; congruence].
  destruct (typeIsNPC n && truthy (name n) && truthy (id n));
    [|repeat split; congruence].
  rewrite (wanted_nonempty w n Hw). simpl.
  rewrite filter_app, <- Hres.
  case_bool_decide; simpl.
  - rewrite filter_cons_True by done. repeat split; congruence.
  - rewrite filter_cons_False by done. rewrite filter_nil, app_nil_r.
    repeat split; congruence.
Qed.

Lemma step_filter (w : string) (s1 s2 : PState) (cmd : Command) :
  w <> "" ->
  npc s1 = npc s2 -> readingNote s1 = readingNote s2 ->
  results s1 = filter (fun r => id r = w) (results s2) ->
  npc (step (Some w) s1 cmd) = npc (step None s2 cmd) /\
  readingNote (step (Some w) s1 cmd) = readingNote (step None s2 cmd) /\
  results (step (Some w) s1 cmd) =
    filter (fun r => id r = w) (results (step None s2 cmd)).
Proof.
  intros Hw Hn Hr Hres. unfold step.
  destruct (negb (isComment cmd)); [done|].
  destruct (isTypeNpc _).
  { simpl. split; [done|]. split; [done|].
    by apply pushCurrent_filter. }
  rewrite Hn, Hr.
  destruct (npc s2) as [n|] eqn:E; [|repeat split; congruence].
  by destruct (fieldStep _ n _).
Qed.

Lemma fold_step_filter (w : string) (cmds : list Command) (s1 s2 : PState) :
  w <> "" ->
  npc s1 = npc s2 -> readingNote s1 = readingNote s2 ->
  results s1 = filter (fun r => id r = w) (results s2) ->
  npc (fold_left (step (Some w)) cmds s1)
    = npc (fold_left (step None) cmds s2) /\
  readingNote (fold_left (step (Some w)) cmds s1)
    = readingNote (fold_left (step None) cmds s2) /\
  results (fold_left (step (Some w)) cmds s1) =
    filter (fun r => id r = w) (results (fold_left (step None) cmds s2)).
Proof.
  intros Hw. revert s1 s2.
  induction cmds as [|c cmds IH]; intros s1 s2 Hn Hr Hres; [done|].
  simpl.
  destruct (step_filter w s1 s2 c Hw Hn Hr Hres) as (H1 & H2 & H3).
  by apply IH.
Qed.

Lemma step_empty_wanted (st : PState) (cmd : Command) :
  step (Some "") st cmd = step None st cmd.
Proof. reflexivity. Qed.

(** [X3]: parsing with a non-empty [wantedId] gives the records that
    parsing without one gives, in the same order, less those whose id is
    not [wantedId]; parsing with the empty string as [wantedId] is parsing
    without one. *)
Theorem parse_wanted_is_filter (cmds : list Command) :
  (forall w : string,
      w <> "" ->
      parseNpcBlocks cmds (Some w) =
        filter (fun r => id r = w) (parseNpcBlocks cmds None)) /\
  parseNpcBlocks cmds (Some "") = parseNpcBlocks cmds None.
Proof.
  split.
  - intros w Hw. unfold parseNpcBlocks.
    destruct (fold_step_filter w cmds initial initial Hw)
      as (H1 & H2 & H3); [done..|].
    by apply pushCurrent_filter.
  - unfold parseNpcBlocks.
    assert (H : forall st, fold_left (step (Some "")) cmds st
                           = fold_left (step None) cmds st).
    { induction cmds as [|c cmds IH]; intros st; [done|].
      simpl. by rewrite step_empty_wanted, IH. }
    by rewrite H.
Qed.

Lemma parse_wanted_is_filter_witness :
  parseNpcBlocks
    (map comment ["Type: NPC"; "ID: 3"; "Name: Cy";
                  "Type: NPC"; "Name: Ann"; "ID: 7"]) (Some "7") =
  filter (fun r => id r = "7")
    (parseNpcBlocks
       (map comment ["Type: NPC"; "ID: 3"; "Name: Cy";
                     "Type: NPC"; "Name: Ann"; "ID: 7"]) None).
Proof.
  apply (proj1 (parse_wanted_is_filter
                  (map comment ["Type: NPC"; "ID: 3"; "Name: Cy";
                                "Type: NPC"; "Name: Ann"; "ID: 7"])) "7").
  discriminate.
Defined.

(** *** Blocks are parsed independently *)

Lemma pushCurrent_shift (wantedId : option string) (pre : list Npc)
  (st : PState) :
  pushCurrent wantedId (shift pre st) = shift pre (pushCurrent wantedId st).
Proof.
  unfold pushCurrent, shift. simpl.
  destruct (npc st) as [n|] eqn:E; [|by rewrite ?E].
  destruct (typeIsNPC n && truthy (name n) && truthy (id n));
    [|by rewrite ?E].
  destruct (wanted wantedId n); simpl; [|by rewrite ?E].
  by rewrite ?E, app_assoc.
Qed.

Lemma step_shift (wantedId : option string) (pre : list Npc) (st : PState)
  (cmd : Command) :
  step wantedId (shift pre st) cmd = shift pre (step wantedId st cmd).
Proof.
  unfold step. destruct (negb (isComment cmd)); [done|].
  destruct (isTypeNpc _).
  { by rewrite pushCurrent_shift. }
  unfold shift at 1. simpl.
  destruct (npc st) as [n|] eqn:E; [|by unfold shift; rewrite ?E].
  by destruct (fieldStep _ n _).
Qed.

Lemma fold_step_shift (wantedId : option string) (pre : list Npc)
  (cmds : list Command) (st : PState) :
  fold_left (step wantedId) cmds (shift pre st) =
    shift pre (fold_left (step wantedId) cmds st).
Proof.
  revert st. induction cmds as [|c cmds IH]; intros st; [done|].
  simpl. by rewrite step_shift, IH.
Qed.

(** [X4]: a command list cut in front of a [Type: NPC] line parses to the
    records of the part before the cut followed by the records of the part
    from the cut on: what a block yields depends on nothing before it. *)
Theorem parse_blocks_independent
  (a b : list Command) (c0 : Command) (wantedId : option string) :
  isTypeNpcCmd c0 = true ->
  parseNpcBlocks (a ++ c0 :: b) wantedId =
    parseNpcBlocks a wantedId ++ parseNpcBlocks (c0 :: b) wantedId.
Proof.
  intros Hc0. unfold parseNpcBlocks.
  rewrite fold_left_app. cbn [fold_left].
  unfold isTypeNpcCmd in Hc0. apply andb_true_iff in Hc0 as [Hc Ht].
  set (stA := fold_left (step wantedId) a initial).
  assert (H1 : step wantedId stA c0 =
               shift (results (pushCurrent wantedId stA))
                 (step wantedId initial c0)).
  { unfold step. rewrite Hc, Ht. unfold shift. simpl.
    by rewrite app_nil_r. }
  rewrite H1, fold_step_shift, pushCurrent_shift. done.
Qed.

Lemma parse_blocks_independent_witness :
  parseNpcBlocks
    (map comment ["Type: NPC"; "ID: 3"; "Name: Cy"; "Details: a"] ++
     comment "Type: NPC" :: map comment ["Name: Ann"; "ID: 7"; "b"]) None =
  parseNpcBlocks
    (map comment ["Type: NPC"; "ID: 3"; "Name: Cy"; "Details: a"]) None ++
  parseNpcBlocks
    (comment "Type: NPC" :: map comment ["Name: Ann"; "ID: 7"; "b"]) None.
Proof.
  apply (parse_blocks_independent
           (map comment ["Type: NPC"; "ID: 3"; "Name: Cy"; "Details: a"])
           (map comment ["Name: Ann"; "ID: 7"; "b"]) (comment "Type: NPC")
           None).
  reflexivity.
Defined.

(** *** Before the first block, and how many records there can be *)

Lemma step_initial (wantedId : option string) (cmd : Command) :
  isTypeNpcCmd cmd = false -> step wantedId initial cmd = initial.
Proof.
  unfold isTypeNpcCmd, step. intros H.
  destruct (isComment cmd); simpl in *; [|done]. by rewrite H.
Qed.

(** [X5]: commands in front of the first [Type: NPC] line are inert: with
    or without them the parse gives the same records. *)
Theorem parse_before_first_block_inert
  (a rest : list Command) (wantedId : option string) :
  Forall (fun c => isTypeNpcCmd c = false) a ->
  parseNpcBlocks (a ++ rest) wantedId = parseNpcBlocks rest wantedId.
Proof.
  intros HF. unfold parseNpcBlocks. rewrite fold_left_app.
  assert (H : fold_left (step wantedId) a initial = initial).
  { induction HF as [|c a Hc _ IH]; [done|].
    simpl. by rewrite step_initial. }
  by rewrite H.
Qed.

Lemma parse_before_first_block_inert_witness :
  parseNpcBlocks
    (map comment ["ID: 9"; "Name: Nobody"; "Details: lost"] ++
     map comment ["Type: NPC"; "ID: 3"; "Name: Cy"]) None =
  parseNpcBlocks (map comment ["Type: NPC"; "ID: 3"; "Name: Cy"]) None.
Proof.
  apply (parse_before_first_block_inert
           (map comment ["ID: 9"; "Name: Nobody"; "Details: lost"])
           (map comment ["Type: NPC"; "ID: 3"; "Name: Cy"]) None).
  repeat constructor.
Defined.

Lemma pushCurrent_length (wantedId : option string) (st : PState) :
  (length (results (pushCurrent wantedId st)) <=
   length (results st) + (if npc st is Some _ then 1 else 0))%nat.
Proof.
  unfold pushCurrent. destruct (npc st) as [n|]; [|lia].
  destruct (typeIsNPC n && truthy (name n) && truthy (id n)); [|lia].
  destruct (wanted wantedId n); simpl; [|lia].
  rewrite length_app. simpl. lia.
Qed.

Lemma fold_step_count (wantedId : option string) (cmds : list Command)
  (st : PState) (k : nat) :
  (length (results st) + (if npc st is Some _ then 1 else 0) <= k)%nat ->
  (length (results (fold_left (step wantedId) cmds st)) +
   (if npc (fold_left (step wantedId) cmds st) is Some _ then 1 else 0)
   <= k + typeLines cmds)%nat.
Proof.
  revert st k. induction cmds as [|c cmds IH]; intros st k Hk.
  - unfold typeLines. simpl. lia.
  - simpl fold_left.
    destruct (isTypeNpcCmd c) eqn:Hc.
    + replace (k + typeLines (c :: cmds))%nat
        with (S k + typeLines cmds)%nat
        by (unfold typeLines; simpl; rewrite Hc; simpl; lia).
      apply IH.
      unfold isTypeNpcCmd in Hc. apply andb_true_iff in Hc as [Hc Ht].
      unfold step. rewrite Hc, Ht. simpl.
      pose proof (pushCurrent_length wantedId st). lia.
    + replace (k + typeLines (c :: cmds))%nat
        with (k + typeLines cmds)%nat
        by (unfold typeLines; simpl; by rewrite Hc).
      apply IH.
      unfold isTypeNpcCmd in Hc. unfold step.
      destruct (isComment c); simpl in *; [|done].
      rewrite Hc. destruct (npc st) as [n|] eqn:E; [|by rewrite E].
      by destruct (fieldStep _ n _).
Qed.

(** [X6]: a parse yields at most one record for each [Type: NPC] line of
    the command list; a list without such a line yields none. *)
Theorem parse_at_most_one_record_per_block
  (cmds : list Command) (wantedId : option string) :
  (length (parseNpcBlocks cmds wantedId) <= typeLines cmds)%nat.
Proof.
  unfold parseNpcBlocks.
  pose proof (fold_step_count wantedId cmds initial 0) as H.
  pose proof (pushCurrent_length wantedId
                (fold_left (step wantedId) cmds initial)) as H'.
  simpl in H. lia.
Qed.

(** *** A command that is no comment cuts the description *)

Lemma step_plain_no_note (wantedId : option string) (st : PState)
  (cmd : Command) :
  readingNote st = false ->
  isComment cmd = true -> isPlainLine (trim (parameters0 cmd)) = true ->
  step wantedId st cmd = st.
Proof.
  intros Hr Hc Hp. unfold step. rewrite Hc. simpl.
  unfold isPlainLine, isFieldLine in Hp.
  apply andb_true_iff in Hp as [Hp HD].
  apply andb_true_iff in Hp as [HT HF].
  apply negb_true_iff in HT, HD, HF. rewrite HT.
  repeat (apply orb_false_iff in HF as [HF ?]).
  destruct (npc st) as [n|] eqn:E; [|done].
  unfold fieldStep. rewrite Hr, HD.
  repeat match goal with H : startsWith _ _ = false |- _ =>
           rewrite H; clear H end.
  destruct st. simpl in *. by subst.
Qed.

(** [X7]: a command that is not a comment, standing in the middle of a
    description, ends it: the unrecognised comment lines that follow are
    dropped, the draft and the records found so far staying as they were
    before the interruption. *)
Theorem interruption_cuts_description
  (wantedId : option string) (st : PState) (c : Command)
  (block : list Command) :
  isComment c = false ->
  Forall (fun c' => isComment c' = true /\
                    isPlainLine (trim (parameters0 c')) = true) block ->
  fold_left (step wantedId) (c :: block) st =
    mkPState (results st) (npc st) false.
Proof.
  intros Hc HF. simpl.
  assert (H1 : step wantedId st c = mkPState (results st) (npc st) false).
  { unfold step. by rewrite Hc. }
  rewrite H1. clear H1.
  induction HF as [|c' block [Hc' Hp] _ IH]; [done|].
  simpl. by rewrite step_plain_no_note.
Qed.

Lemma interruption_cuts_description_witness :
  fold_left (step None)
    (mkCommand 101 "Hello" :: map comment ["and more"; "and more still"])
    (mkPState [] (Some (set_notes "a" freshNpc)) true) =
  mkPState [] (Some (set_notes "a" freshNpc)) false.
Proof.
  apply (interruption_cuts_description None
           (mkPState [] (Some (set_notes "a" freshNpc)) true)
           (mkCommand 101 "Hello") (map comment ["and more"; "and more still"])).
  - reflexivity.
  - repeat constructor.
Defined.

End ParserMore.

(** ** More on the registry *)

Module RegistryMore.
Import JsString JsNumber Parser Registry RegistryFacts.

Section WithCallback.
Context {Callback : Type}.
Implicit Types (gs : @GameSystem Callback) (n : Npc) (cb : Callback).

Lemma absent_Forall (key : string) (l : list Npc) :
  key ∉ id <$> l <-> Forall (fun e => id e <> key) l.
Proof.
  rewrite Forall_forall. split.
  - intros H e He Heq. apply H. rewrite <- Heq.
    by apply list_elem_of_fmap_2.
  - intros H Hin. apply list_elem_of_fmap in Hin as (e & -> & He).
    by apply (H e He).
Qed.

Lemma present_Exists (key : string) (l : list Npc) :
  key ∈ id <$> l <-> Exists (fun e => id e = key) l.
Proof.
  rewrite Exists_exists. split.
  - intros Hin. apply list_elem_of_fmap in Hin as (e & -> & He). eauto.
  - intros (e & He & <-). by apply list_elem_of_fmap_2.
Qed.

(** What one [upsert] does to each part of the state. *)
Lemma upsert_effect gs n :
  id <$> _personalList (upsert n gs) =
    (if decide (id n ∈ id <$> _personalList gs)
     then id <$> _personalList gs
     else (id <$> _personalList gs) ++ [id n]) /\
  calls (upsert n gs) =
    calls gs ++
    (if decide (id n ∈ id <$> _personalList gs)
     then []
     else map (fun cb => (cb, id n)) (added (listenersOf gs (id n)))) /\
  loadedFaces (upsert n gs) =
    loadedFaces gs ++ (if truthy (faceName n) then [faceName n] else []) /\
  _personalListeners (upsert n gs) = _personalListeners gs.
Proof.
  split; [|split; [|split; [|apply upsert_listeners]]].
  - destruct (decide (id n ∈ id <$> _personalList gs)) as [Hin|Hin].
    + apply present_Exists in Hin.
      destruct (upsert_existing gs n Hin) as (k & e & Hk & He & _ & Hu & _).
      rewrite Hu, list_fmap_insert. apply list_insert_id.
      by rewrite list_lookup_fmap, Hk, <- He.
    + apply absent_Forall in Hin.
      destruct (upsert_new gs n) as [Hu _].
      { eapply Forall_impl; [exact Hin|]. by intros x Hx Heq. }
      by rewrite Hu, fmap_app.
  - destruct (decide (id n ∈ id <$> _personalList gs)) as [Hin|Hin].
    + apply present_Exists in Hin.
      destruct (upsert_existing gs n Hin) as (k & e & _ & _ & _ & _ & Hc).
      by rewrite Hc, app_nil_r.
    + apply absent_Forall in Hin.
      destruct (upsert_new gs n) as [_ Hc]; [|done].
      eapply Forall_impl; [exact Hin|]. by intros x Hx Heq.
  - unfold upsert, getPersonalList.
    destruct (list_find _ _) as [[k e]|].
    + destruct (truthy (faceName n)); simpl; by rewrite ?app_nil_r.
    + set (gs1 := set_personalList _ gs).
      destruct (trigger_added_rest gs1 (IdStr (id n))) as (_ & _ & Hl).
      destruct (truthy (faceName n)); simpl; by rewrite Hl, ?app_nil_r.
Qed.

(** What one [removeId] does to each part of the state. *)
Lemma removeId_effect gs (i : JsId) :
  _personalList (snd (removeId i gs)) =
    filter (fun e => id e <> ToString i) (_personalList gs) /\
  calls (snd (removeId i gs)) =
    calls gs ++
    (if decide (ToString i ∈ id <$> _personalList gs)
     then map (fun cb => (cb, ToString i))
            (removed (listenersOf gs (ToString i)))
     else []) /\
  loadedFaces (snd (removeId i gs)) = loadedFaces gs /\
  _personalListeners (snd (removeId i gs)) = _personalListeners gs.
Proof.
  split; [apply removeId_list|].
  unfold removeId, getPersonalList. simpl.
  destruct (decide (ToString i ∈ id <$> _personalList gs)) as [Hin|Hin].
  - apply present_Exists, (filter_some (ToString i)) in Hin.
    rewrite bool_decide_eq_true_2 by done.
    set (gs1 := set_personalList _ gs).
    destruct (trigger_removed_rest gs1 (IdStr (ToString i)))
      as (_ & Hl & Hf).
    by rewrite trigger_removed_calls, Hl, Hf.
  - apply absent_Forall in Hin. rewrite (filter_all _ _ Hin).
    rewrite bool_decide_eq_false_2 by (intros H; by apply H).
    simpl. by rewrite app_nil_r.
Qed.

(** A property kept by [upsert] and by [removeId] is kept by every
    operation and by every run of operations. *)
Lemma upsertAll_preserves (P : @GameSystem Callback -> Prop) :
  (forall n gs, P gs -> P (upsert n gs)) ->
  forall (ns : list Npc) gs, P gs -> P (upsertAll ns gs).
Proof.
  intros HU ns. induction ns as [|n ns IH]; intros gs HP; [done|].
  change (upsertAll (n :: ns) gs) with (upsertAll ns (upsert n gs)).
  by apply IH, HU.
Qed.

Lemma removeMany_preserves (P : @GameSystem Callback -> Prop) :
  (forall i gs, P gs -> P (snd (removeId i gs))) ->
  forall (ids : list string) gs, P gs -> P (removeMany ids gs).
Proof.
  intros HR ids. induction ids as [|i ids IH]; intros gs HP; [done|].
  change (removeMany (i :: ids) gs)
    with (removeMany ids (snd (removeId (IdStr i) gs))).
  by apply IH, HR.
Qed.

Lemma AddPersonalToList_preserves (P : @GameSystem Callback -> Prop) :
  (forall n gs, P gs -> P (upsert n gs)) ->
  forall (args : list string) (events : list (list Command))
         (page : list Command) gs,
    P gs -> P (AddPersonalToList args events page gs).
Proof.
  intros HU args events page gs HP. unfold AddPersonalToList.
  destruct args as [|a args]; [by apply upsertAll_preserves|].
  generalize (a :: args). clear a args. intros args.
  revert gs HP. induction args as [|t args IH]; intros gs HP; [done|].
  cbn [fold_left]. apply IH. clear IH.
  revert gs HP. induction events as [|pg events IH]; intros gs HP; [done|].
  cbn [fold_left]. by apply IH, upsertAll_preserves.
Qed.

Lemma RemovePersonalFromList_preserves (P : @GameSystem Callback -> Prop) :
  (forall i gs, P gs -> P (snd (removeId i gs))) ->
  forall (args : list string) (page : list Command) gs,
    P gs -> P (RemovePersonalFromList args page gs).
Proof.
  intros HR args page gs HP. unfold RemovePersonalFromList.
  destruct args; by apply removeMany_preserves.
Qed.

Lemma run_preserves (P : @GameSystem Callback -> Prop) :
  (forall n gs, P gs -> P (upsert n gs)) ->
  (forall i gs, P gs -> P (snd (removeId i gs))) ->
  forall (ops : list Op) gs, P gs -> P (run ops gs).
Proof.
  intros HU HR ops. induction ops as [|o ops IH]; intros gs HP; [done|].
  change (run (o :: ops) gs) with (run ops (apply gs o)).
  apply IH. destruct o; cbn [apply].
  - by apply HU.
  - by apply HR.
  - by apply AddPersonalToList_preserves.
  - by apply RemovePersonalFromList_preserves.
Qed.

(** [X8]: no run of upserts, removals and plugin commands changes the
    registered callbacks, and the log of callback calls and the log of
    face preloads only grow: what was called or requested before stays, in
    order, at the front. *)
Theorem run_keeps_listeners_and_logs (ops : list Op) gs :
  _personalListeners (run ops gs) = _personalListeners gs /\
  calls gs `prefix_of` calls (run ops gs) /\
  loadedFaces gs `prefix_of` loadedFaces (run ops gs).
Proof.
  apply (run_preserves
           (fun g => _personalListeners g = _personalListeners gs /\
                     calls gs `prefix_of` calls g /\
                     loadedFaces gs `prefix_of` loadedFaces g)).
  - intros n g (HL & HC & HF).
    destruct (upsert_effect g n) as (_ & Hc & Hf & Hl).
    rewrite Hl, Hc, Hf. split; [done|]. split; by apply prefix_app_r.
  - intros i g (HL & HC & HF).
    destruct (removeId_effect g i) as (_ & Hc & Hf & Hl).
    rewrite Hl, Hc, Hf. split; [done|]. split; [by apply prefix_app_r|done].
  - done.
Qed.

(** *** Lookup after insert and after removal *)

Lemma removeId_ids gs (i : JsId) (key : string) :
  key ∈ id <$> _personalList (snd (removeId i gs)) <->
  key ∈ id <$> _personalList gs /\ key <> ToString i.
Proof.
  rewrite removeId_list, !list_elem_of_fmap. split.
  - intros (e & -> & He). apply list_elem_of_filter in He as [Hne He].
    split; [|done]. by exists e.
  - intros [(e & -> & He) Hne]. exists e. split; [done|].
    by apply list_elem_of_filter.
Qed.

Lemma upsert_ids gs n (key : string) :
  key ∈ id <$> _personalList (upsert n gs) <->
  key ∈ id <$> _personalList gs \/ key = id n.
Proof.
  destruct (upsert_effect gs n) as (Hids & _). rewrite Hids.
  destruct (decide (id n ∈ id <$> _personalList gs)) as [Hin|Hin].
  - split; [by left|]. by intros [H| ->].
  - rewrite elem_of_app, list_elem_of_singleton. done.
Qed.

(** [X9]: after [upsert] of a record, [isPersonalAdded] of its id is true;
    after [removeId] of an id, [isPersonalAdded] of that id is false;
    neither changes the answer for any other id. *)
Theorem isPersonalAdded_after_upsert_and_removeId gs n (i j : JsId) :
  isPersonalAdded (IdStr (id n)) (upsert n gs) = true /\
  isPersonalAdded j (snd (removeId j gs)) = false /\
  (ToString i <> id n ->
   isPersonalAdded i (upsert n gs) = isPersonalAdded i gs) /\
  (ToString i <> ToString j ->
   isPersonalAdded i (snd (removeId j gs)) = isPersonalAdded i gs).
Proof.
  rewrite !isPersonalAdded_spec. split; [|split; [|split]].
  - apply bool_decide_eq_true_2, upsert_ids. by right.
  - apply bool_decide_eq_false_2. rewrite removeId_ids. by intros [_ H].
  - intros Hne. apply bool_decide_ext. rewrite upsert_ids.
    split; [by intros [H|H] | by left].
  - intros Hne. apply bool_decide_ext. rewrite removeId_ids.
    split; [by intros [H _] | done].
Qed.

(** [X10]: upserting a record whose id the list does not hold and then
    removing that id gives the list back as it was; the callbacks called in
    between are the id's [added] callbacks followed by its [removed]
    callbacks. *)
Theorem removeId_undoes_upsert gs n :
  Forall (fun e => id e <> id n) (_personalList gs) ->
  _personalList (snd (removeId (IdStr (id n)) (upsert n gs)))
    = _personalList gs /\
  calls (snd (removeId (IdStr (id n)) (upsert n gs))) =
    calls gs ++
    map (fun cb => (cb, id n)) (added (listenersOf gs (id n))) ++
    map (fun cb => (cb, id n)) (removed (listenersOf gs (id n))).
Proof.
  intros HF.
  destruct (upsert_new gs n HF) as [Hl Hc].
  destruct (removeId_effect (upsert n gs) (IdStr (id n))) as (Hl' & Hc' & _).
  simpl ToString in Hl', Hc'.
  split.
  - rewrite Hl', Hl, filter_app, (filter_all _ _ HF).
    rewrite filter_cons_False by (intros H; by apply H).
    by rewrite filter_nil, app_nil_r.
  - rewrite Hc'.
    rewrite decide_True by (apply upsert_ids; by right).
    rewrite Hc, <- app_assoc. do 3 f_equal.
    unfold listenersOf. by rewrite upsert_listeners.
Qed.

(** The two ways [upsert] changes the list, with what [list.find] found. *)
Lemma upsert_list_cases gs n :
  (exists (k : nat) (e : Npc),
      list_find (fun i => id i = id n) (_personalList gs) = Some (k, e) /\
      _personalList (upsert n gs) = <[k := n]> (_personalList gs)) \/
  (list_find (fun i => id i = id n) (_personalList gs) = None /\
   _personalList (upsert n gs) = _personalList gs ++ [n]).
Proof.
  unfold upsert, getPersonalList.
  destruct (list_find _ _) as [[k e]|] eqn:E.
  - left. exists k, e. split; [done|]. rewrite Object_assign_source.
    by destruct (truthy (faceName n)).
  - right. split; [done|].
    set (gs1 := set_personalList _ gs).
    destruct (trigger_added_rest gs1 (IdStr (id n))) as (Hl & _ & _).
    destruct (truthy (faceName n)); simpl; by rewrite Hl.
Qed.

Lemma upsert_finds_itself gs n :
  exists k : nat,
    list_find (fun i => id i = id n) (_personalList (upsert n gs))
      = Some (k, n).
Proof.
  destruct (upsert_list_cases gs n) as [(k & e & Hf & ->) | [Hf ->]].
  - exists k. apply list_find_insert_Some. right. left.
    apply list_find_Some in Hf as (Hk & He & Hleast).
    split; [done|]. split; [done|]. split; [by eapply lookup_lt_Some|].
    split; [done|]. intros j z Hj Hlt. by apply (Hleast j z).
  - exists (0 + length (_personalList gs))%nat.
    rewrite list_find_app_r by done. simpl.
    by rewrite decide_True.
Qed.

(** [X11]: upserting the same record twice in a row leaves the list as the
    first upsert left it and calls no callback the second time. *)
Theorem upsert_twice_is_upsert_once gs n :
  _personalList (upsert n (upsert n gs)) = _personalList (upsert n gs) /\
  calls (upsert n (upsert n gs)) = calls (upsert n gs).
Proof.
  destruct (upsert_finds_itself gs n) as [k Hk].
  split.
  - destruct (upsert_list_cases (upsert n gs) n)
      as [(k' & e' & Hf & ->) | [Hf _]]; [|congruence].
    rewrite Hk in Hf. injection Hf as <- <-.
    apply list_insert_id.
    by apply list_find_Some in Hk as (Hk & _).
  - destruct (upsert_effect (upsert n gs) n) as (_ & Hc & _).
    rewrite Hc, decide_True, app_nil_r; [done|].
    apply upsert_ids. by right.
Qed.

(** *** Removing many, and the last record of an id winning *)

Lemma map_is_fmap {A B} (f : A -> B) (l : list A) : map f l = f <$> l.
Proof. induction l as [|x l IH]; [done|]. simpl. by rewrite IH. Qed.

Lemma removeMany_list (ids : list string) gs :
  _personalList (removeMany ids gs) =
    filter (fun e => id e ∉ ids) (_personalList gs).
Proof.
  revert gs. induction ids as [|i ids IH]; intros gs.
  - simpl. symmetry. induction (_personalList gs) as [|e l IHl]; [done|].
    rewrite filter_cons_True by apply not_elem_of_nil. by rewrite IHl.
  - change (removeMany (i :: ids) gs)
      with (removeMany ids (snd (removeId (IdStr i) gs))).
    rewrite IH, removeId_list. simpl ToString.
    rewrite list_filter_filter. apply list_filter_iff.
    intros e. rewrite not_elem_of_cons. tauto.
Qed.

(** [X12]: [RemovePersonalFromList] with arguments leaves the records whose
    id is none of the arguments, in their order; without arguments it
    leaves the records whose id is not the id of a record parsed from the
    current page. *)
Theorem RemovePersonalFromList_keeps_the_others
  (args : list string) (page : list Command) gs :
  _personalList (RemovePersonalFromList args page gs) =
    filter (fun e => id e ∉ match args with
                            | [] => id <$> parseNpcBlocks page None
                            | _ :: _ => args
                            end) (_personalList gs).
Proof.
  unfold RemovePersonalFromList. destruct args as [|a args].
  - by rewrite removeMany_list, map_is_fmap.
  - by rewrite removeMany_list.
Qed.

Lemma upsert_keeps_others gs n (e : Npc) :
  e ∈ _personalList gs -> id e <> id n -> e ∈ _personalList (upsert n gs).
Proof.
  intros He Hne.
  destruct (upsert_list_cases gs n) as [(k & e0 & Hf & ->) | [Hf ->]].
  - apply list_find_Some in Hf as (Hk & He0 & _).
    apply list_elem_of_lookup in He as [j Hj].
    apply list_elem_of_lookup. exists j.
    rewrite list_lookup_insert_ne; [done|].
    intros ->. rewrite Hk in Hj. by injection Hj as ->.
  - apply elem_of_app. by left.
Qed.

(** [X13]: when several records of one id are upserted in a row, the last
    of them is the one the list ends up holding. *)
Theorem upsertAll_last_record_wins (ns1 ns2 : list Npc) (r : Npc) gs :
  Forall (fun n => id n <> id r) ns2 ->
  r ∈ _personalList (upsertAll (ns1 ++ r :: ns2) gs).
Proof.
  intros HF. unfold upsertAll. rewrite fold_left_app. cbn [fold_left].
  set (g1 := upsert r _).
  assert (H1 : r ∈ _personalList g1) by apply upsert_elem.
  clearbody g1. revert g1 H1.
  induction HF as [|n ns2 Hn _ IH]; intros g1 H1; [done|].
  cbn [fold_left]. apply IH. apply upsert_keeps_others; [done|].
  by intros Heq.
Qed.

(** *** Which ids the [AddPersonalToList] command brings in *)

Lemma upsertAll_ids (ns : list Npc) gs (key : string) :
  key ∈ id <$> _personalList (upsertAll ns gs) <->
  key ∈ id <$> _personalList gs \/ key ∈ id <$> ns.
Proof.
  revert gs. induction ns as [|n ns IH]; intros gs.
  - simpl. rewrite elem_of_nil. tauto.
  - change (upsertAll (n :: ns) gs) with (upsertAll ns (upsert n gs)).
    rewrite IH, upsert_ids, fmap_cons, elem_of_cons. tauto.
Qed.

Lemma addForId_ids (t : string) (events : list (list Command)) gs
  (key : string) :
  key ∈ id <$> _personalList
          (fold_left (fun g' pg => upsertAll (parseNpcBlocks pg (Some t)) g')
             events gs) <->
  key ∈ id <$> _personalList gs \/
  exists pg, pg ∈ events /\ key ∈ id <$> parseNpcBlocks pg (Some t).
Proof.
  revert gs. induction events as [|pg events IH]; intros gs.
  - simpl. split; [by left|]. intros [H|(pg & Hpg & _)]; [done|].
    by apply elem_of_nil in Hpg.
  - cbn [fold_left]. rewrite IH, upsertAll_ids. split.
    + intros [[H|H]|(pg' & Hpg' & H)]; [by left| |].
      * right. exists pg. split; [apply list_elem_of_here|done].
      * right. exists pg'. split; [by apply list_elem_of_further|done].
    + intros [H|(pg' & Hpg' & H)]; [by left; left|].
      apply elem_of_cons in Hpg' as [->|Hpg']; [by left; right|].
      right. by exists pg'.
Qed.

Lemma parse_emittable (cmds : list Command) (wantedId : option string) :
  Forall (emittable wantedId) (parseNpcBlocks cmds wantedId).
Proof.
  unfold parseNpcBlocks.
  apply ParserFacts.pushCurrent_emittable, ParserFacts.fold_step_emittable.
  constructor.
Qed.

(** [X14]: after [AddPersonalToList], run with arguments, the list holds
    the ids it held before and, for each argument, the ids of the records
    that parsing an event's current page for that argument gives, and no
    other id; when no argument is the empty string, every id brought in is
    one of the arguments.  Run without arguments, it holds the ids it held
    before and the ids parsed from the current page, and no other. *)
Theorem AddPersonalToList_ids
  (a : string) (args : list string) (events : list (list Command))
  (page : list Command) gs (key : string) :
  (key ∈ id <$> _personalList (AddPersonalToList (a :: args) events page gs)
   <->
   key ∈ id <$> _personalList gs \/
   exists t pg, t ∈ a :: args /\ pg ∈ events /\
                key ∈ id <$> parseNpcBlocks pg (Some t)) /\
  (Forall (fun t => t <> "") (a :: args) ->
   key ∈ id <$> _personalList (AddPersonalToList (a :: args) events page gs)
   -> key ∈ id <$> _personalList gs \/ key ∈ a :: args) /\
  (key ∈ id <$> _personalList (AddPersonalToList [] events page gs) <->
   key ∈ id <$> _personalList gs \/
   key ∈ id <$> parseNpcBlocks page None).
Proof.
  assert (H1 : forall (ts : list string) (g : @GameSystem Callback),
             key ∈ id <$> _personalList
                     (fold_left
                        (fun g0 targetId =>
                           fold_left
                             (fun g' pg =>
                                upsertAll
                                  (parseNpcBlocks pg (Some targetId)) g')
                             events g0) ts g) <->
             key ∈ id <$> _personalList g \/
             exists t pg, t ∈ ts /\ pg ∈ events /\
                          key ∈ id <$> parseNpcBlocks pg (Some t)).
  { induction ts as [|t ts IH]; intros g.
    - simpl. split; [by left|]. intros [H|(t & pg & Ht & _)]; [done|].
      by apply elem_of_nil in Ht.
    - cbn [fold_left]. rewrite IH, addForId_ids. split.
      + intros [[H|(pg & Hpg & H)]|(t' & pg & Ht' & Hpg & H)]; [by left| |].
        * right. exists t, pg. split; [apply list_elem_of_here|done].
        * right. exists t', pg. split; [by apply list_elem_of_further|done].
      + intros [H|(t' & pg & Ht' & Hpg & H)]; [by left; left|].
        apply elem_of_cons in Ht' as [->|Ht'].
        * left. right. by exists pg.
        * right. by exists t', pg. }
  split; [apply H1|]. split.
  - intros Hne Hin. apply H1 in Hin as [H|(t & pg & Ht & Hpg & H)];
      [by left|]. right.
    rewrite Forall_forall in Hne. specialize (Hne t Ht).
    apply list_elem_of_fmap in H as (r & -> & Hr).
    pose proof (parse_emittable pg (Some t)) as HE.
    rewrite Forall_forall in HE.
    destruct (HE r Hr) as (_ & _ & _ & Hw).
    by rewrite (Hw t eq_refl Hne).
  - apply upsertAll_ids.
Qed.

(** *** Adding a page and removing it again *)

Lemma insert_elems (l : list Npc) (j : nat) (x : Npc) :
  Forall (fun e => e ∈ l \/ e = x) (<[j := x]> l).
Proof.
  revert j. induction l as [|y l IH]; intros j; [constructor|].
  destruct j as [|j]; simpl.
  - constructor; [by right|].
    apply Forall_forall. intros e He. left. by apply list_elem_of_further.
  - constructor; [left; apply list_elem_of_here|].
    eapply Forall_impl; [apply IH|].
    intros e [He| ->]; [left; by apply list_elem_of_further | by right].
Qed.

Lemma upsert_shape gs n (base extra : list Npc) :
  _personalList gs = base ++ extra ->
  id n ∉ id <$> base ->
  exists extra' : list Npc,
    _personalList (upsert n gs) = base ++ extra' /\
    Forall (fun e => e ∈ extra \/ e = n) extra'.
Proof.
  intros Hl Hn.
  destruct (upsert_list_cases gs n) as [(k & e & Hf & ->) | [Hf ->]].
  - apply list_find_Some in Hf as (Hk & He & _). rewrite Hl in *.
    assert (Hge : (length base <= k)%nat).
    { destruct (Nat.le_gt_cases (length base) k) as [|Hlt]; [done|].
      rewrite lookup_app_l in Hk by done.
      exfalso. apply Hn. rewrite <- He.
      apply list_elem_of_fmap_2. by eapply list_elem_of_lookup_2. }
    exists (<[(k - length base)%nat := n]> extra). split.
    + by rewrite insert_app_r_alt.
    + apply insert_elems.
  - exists (extra ++ [n]). split; [by rewrite Hl, app_assoc|].
    apply Forall_app. split.
    + apply Forall_forall. by left.
    + apply Forall_singleton. by right.
Qed.

Lemma upsertAll_shape (ns : list Npc) gs (base extra : list Npc) :
  _personalList gs = base ++ extra ->
  Forall (fun n => id n ∉ id <$> base) ns ->
  exists extra' : list Npc,
    _personalList (upsertAll ns gs) = base ++ extra' /\
    Forall (fun e => e ∈ extra \/ e ∈ ns) extra'.
Proof.
  revert gs extra. induction ns as [|n ns IH]; intros gs extra Hl HF.
  - exists extra. split; [done|]. apply Forall_forall. by left.
  - apply Forall_cons in HF as [Hn HF].
    change (upsertAll (n :: ns) gs) with (upsertAll ns (upsert n gs)).
    destruct (upsert_shape gs n base extra Hl Hn) as (e1 & Hl1 & H1).
    destruct (IH (upsert n gs) e1 Hl1 HF) as (e2 & Hl2 & H2).
    exists e2. split; [done|].
    rewrite Forall_forall in H1, H2. apply Forall_forall.
    intros e He. destruct (H2 e He) as [He1|Hns].
    + destruct (H1 e He1) as [?| ->]; [by left|].
      right. apply list_elem_of_here.
    + right. by apply list_elem_of_further.
Qed.

(** [X15]: when the list holds none of the ids that the current page
    defines, [AddPersonalToList] without arguments followed by
    [RemovePersonalFromList] without arguments on the same page gives the
    list back as it was. *)
Theorem remove_page_undoes_add_page
  (events : list (list Command)) (page : list Command) gs :
  Forall (fun r => id r ∉ id <$> _personalList gs)
    (parseNpcBlocks page None) ->
  _personalList
    (RemovePersonalFromList [] page (AddPersonalToList [] events page gs))
    = _personalList gs.
Proof.
  intros HF. unfold RemovePersonalFromList, AddPersonalToList.
  rewrite removeMany_list, map_is_fmap.
  destruct (upsertAll_shape (parseNpcBlocks page None) gs
              (_personalList gs) []) as (extra & Hl & He).
  { by rewrite app_nil_r. }
  { done. }
  rewrite Hl, filter_app. rewrite Forall_forall in He, HF.
  assert (H1 : filter (fun e => id e ∉ id <$> parseNpcBlocks page None)
                 (_personalList gs) = _personalList gs).
  { clear Hl. induction (_personalList gs) as [|e l IH]; [done|].
    rewrite filter_cons_True.
    - f_equal. apply IH. intros r Hr Hin.
      apply (HF r Hr). rewrite fmap_cons. by apply list_elem_of_further.
    - intros Hin. apply list_elem_of_fmap in Hin as (r & Heq & Hr).
      apply (HF r Hr). rewrite <- Heq, fmap_cons. apply list_elem_of_here. }
  assert (H2 : filter (fun e => id e ∉ id <$> parseNpcBlocks page None)
                 extra = []).
  { clear Hl. induction extra as [|e l IH]; [done|].
    rewrite filter_cons_False.
    - apply IH. intros x Hx. apply He. by apply list_elem_of_further.
    - intros Hnot. apply Hnot.
      destruct (He e (list_elem_of_here _ _)) as [H|H].
      + by apply elem_of_nil in H.
      + by apply list_elem_of_fmap_2. }
  by rewrite H1, H2, app_nil_r.
Qed.

(** *** Added and removed notifications alternate *)

Lemma keyed_same (key : string) (cbs : list Callback) :
  filter (fun c : Callback * string => c.2 = key)
    (map (fun cb => (cb, key)) cbs) = map (fun cb => (cb, key)) cbs.
Proof.
  induction cbs as [|cb cbs IH]; [done|].
  simpl. rewrite filter_cons_True by done. by rewrite IH.
Qed.

Lemma keyed_other (key key' : string) (cbs : list Callback) :
  key' <> key ->
  filter (fun c : Callback * string => c.2 = key)
    (map (fun cb => (cb, key')) cbs) = [].
Proof.
  intros Hne. induction cbs as [|cb cbs IH]; [done|].
  simpl. by rewrite filter_cons_False.
Qed.

Lemma rounds_snoc {A} (m : nat) (x : list A) :
  concat (replicate m x) ++ x = concat (replicate (S m) x).
Proof.
  induction m as [|m IH]; simpl; [by rewrite app_nil_r|].
  simpl in IH. by rewrite <- app_assoc, IH.
Qed.

(** [X16]: start from an empty list and an empty call log, with any
    callbacks registered, and run any operations.  The calls made for one
    id are then some number of rounds, each the id's [added] callbacks
    followed by its [removed] callbacks, and after them the [added]
    callbacks once more exactly when the list holds the id: an id is never
    announced as added twice without a removal in between, nor removed
    without having been added. *)
Theorem notifications_alternate
  (listeners : gmap string (@Listeners Callback)) (ops : list Op)
  (key : string) :
  let gs0 := mkGameSystem [] listeners [] [] in
  let A := map (fun cb => (cb, key)) (added (listenersOf gs0 key)) in
  let R := map (fun cb => (cb, key)) (removed (listenersOf gs0 key)) in
  exists m : nat,
    filter (fun c : Callback * string => c.2 = key) (calls (run ops gs0)) =
      concat (replicate m (A ++ R)) ++
      (if decide (key ∈ id <$> _personalList (run ops gs0)) then A else []).
Proof.
  intros gs0 A R.
  pose (P := fun g : @GameSystem Callback =>
               _personalListeners g = listeners /\
               exists m : nat,
                 filter (fun c : Callback * string => c.2 = key) (calls g) =
                 concat (replicate m (A ++ R)) ++
                 (if decide (key ∈ id <$> _personalList g) then A else [])).
  assert (HP : P (run ops gs0)); [|by destruct HP].
  apply (run_preserves P); unfold P.
  - intros n g (HL & m & Hm).
    destruct (upsert_effect g n) as (_ & Hc & _ & Hl).
    split; [by rewrite Hl|]. rewrite Hc, filter_app, Hm.
    assert (HA : listenersOf g key = listenersOf gs0 key)
      by (unfold listenersOf; by rewrite HL).
    destruct (decide (id n = key)) as [Heq|Hne].
    + rewrite Heq in *.
      rewrite (decide_True (P := key ∈ id <$> _personalList (upsert n g)))
        by (apply upsert_ids; right; by rewrite Heq).
      destruct (decide (key ∈ id <$> _personalList g)).
      * exists m. simpl. by rewrite app_nil_r.
      * exists m. by rewrite keyed_same, HA, app_nil_r.
    + exists m.
      assert (Hnew : filter (fun c : Callback * string => c.2 = key)
                       (if decide (id n ∈ id <$> _personalList g)
                        then []
                        else map (fun cb => (cb, id n))
                               (added (listenersOf g (id n)))) = []).
      { destruct (decide (id n ∈ id <$> _personalList g));
          [done | by apply keyed_other]. }
      rewrite Hnew, app_nil_r. f_equal. apply decide_ext.
      rewrite upsert_ids. split; [by left | by intros [H|H]].
  - intros i g (HL & m & Hm).
    destruct (removeId_effect g i) as (_ & Hc & _ & Hl).
    split; [by rewrite Hl|]. rewrite Hc, filter_app, Hm.
    assert (HR : listenersOf g key = listenersOf gs0 key)
      by (unfold listenersOf; by rewrite HL).
    destruct (decide (ToString i = key)) as [Heq|Hne].
    + rewrite Heq in *.
      rewrite (decide_False
                 (P := key ∈ id <$> _personalList (snd (removeId i g))))
        by (rewrite removeId_ids, Heq; by intros [_ H]).
      destruct (decide (key ∈ id <$> _personalList g)).
      * exists (S m). rewrite keyed_same, HR, app_nil_r.
        fold R. by rewrite <- app_assoc, rounds_snoc.
      * exists m. simpl. by rewrite !app_nil_r.
    + exists m.
      assert (Hnew : filter (fun c : Callback * string => c.2 = key)
                       (if decide (ToString i ∈ id <$> _personalList g)
                        then map (fun cb => (cb, ToString i))
                               (removed (listenersOf g (ToString i)))
                        else []) = []).
      { destruct (decide (ToString i ∈ id <$> _personalList g));
          [by apply keyed_other | done]. }
      rewrite Hnew, app_nil_r. f_equal. apply decide_ext.
      rewrite removeId_ids. split; [|by intros [H _]].
      intros H. split; [done|]. by intros ->.
  - split; [done|]. by exists 0%nat.
Qed.

End WithCallback.

Import Samples MoreSamples.

Lemma isPersonalAdded_after_upsert_and_removeId_witness :
  isPersonalAdded (IdNum 8) (upsert ann (upsert bob gs_listening)) =
    isPersonalAdded (IdNum 8) (upsert bob gs_listening) /\
  isPersonalAdded (IdNum 8)
    (snd (removeId (IdStr "7") (upsert bob gs_listening))) =
    isPersonalAdded (IdNum 8) (upsert bob gs_listening).
Proof.
  split.
  - apply (proj1 (proj2 (proj2
             (isPersonalAdded_after_upsert_and_removeId
                (upsert bob gs_listening) ann (IdNum 8) (IdStr "7"))))).
    discriminate.
  - apply (proj2 (proj2 (proj2
             (isPersonalAdded_after_upsert_and_removeId
                (upsert bob gs_listening) ann (IdNum 8) (IdStr "7"))))).
    discriminate.
Defined.

Lemma removeId_undoes_upsert_witness :
  _personalList
    (snd (removeId (IdStr (id ann)) (upsert ann (upsert bob gs_listening))))
    = _personalList (upsert bob gs_listening) /\
  calls
    (snd (removeId (IdStr (id ann)) (upsert ann (upsert bob gs_listening))))
    = calls (upsert bob gs_listening) ++
      map (fun cb => (cb, id ann))
        (added (listenersOf (upsert bob gs_listening) (id ann))) ++
      map (fun cb => (cb, id ann))
        (removed (listenersOf (upsert bob gs_listening) (id ann))).
Proof.
  apply (removeId_undoes_upsert (upsert bob gs_listening) ann).
  vm_compute. constructor; [discriminate | constructor].
Defined.

Lemma upsertAll_last_record_wins_witness :
  ann2 ∈ _personalList (upsertAll ([ann] ++ ann2 :: [bob]) gs_listening).
Proof.
  apply (upsertAll_last_record_wins [ann] [bob] ann2 gs_listening).
  constructor; [discriminate | constructor].
Defined.

Lemma AddPersonalToList_ids_witness :
  "7" ∈ id <$> _personalList (upsert bob gs_listening) \/
  "7" ∈ ["7"].
Proof.
  apply (proj1 (proj2 (AddPersonalToList_ids "7" [] [pageBob; pageAnn] []
                         (upsert bob gs_listening) "7"))).
  - constructor; [discriminate | constructor].
  - vm_compute. apply list_elem_of_further, list_elem_of_here.
Defined.

Lemma remove_page_undoes_add_page_witness :
  _personalList
    (RemovePersonalFromList [] pageAnn
       (AddPersonalToList [] [] pageAnn (upsert bob gs_listening)))
    = _personalList (upsert bob gs_listening).
Proof.
  apply (remove_page_undoes_add_page [] pageAnn (upsert bob gs_listening)).
  vm_compute. constructor; [|constructor].
  intros H. apply list_elem_of_singleton in H. discriminate H.
Defined.

End RegistryMore.

(** ** More on the paginator *)

Module PaginatorMore.
Import JsString Paginator Drawing PaginatorFacts.

(** *** Wrapping loses no character *)

Lemma append_assoc3 (a b c : string) : (a +:+ b) +:+ c = a +:+ b +:+ c.
Proof.
  induction a as [|x a IH]; [done|].
  change ((String x a +:+ b) +:+ c) with (String x ((a +:+ b) +:+ c)).
  change (String x a +:+ b +:+ c) with (String x (a +:+ b +:+ c)).
  by rewrite IH.
Qed.

Lemma render_from (g : list string) (acc : string) :
  fold_left (fun a w => a +:+ w +:+ " ") g acc = acc +:+ render g.
Proof.
  revert acc. induction g as [|w g IH]; intros acc.
  - simpl. unfold render. simpl.
    induction acc as [|x acc IHa]; [done|].
    change (String x acc +:+ "") with (String x (acc +:+ "")).
    by rewrite <- IHa.
  - unfold render. simpl. rewrite (IH (acc +:+ w +:+ " ")).
    rewrite (IH ("" +:+ w +:+ " ")).
    change ("" +:+ w +:+ " ") with (w +:+ " ").
    by rewrite append_assoc3.
Qed.

Lemma render_app (g1 g2 : list string) :
  render (g1 ++ g2) = render g1 +:+ render g2.
Proof.
  unfold render at 1. rewrite fold_left_app.
  fold (render g1). apply render_from.
Qed.

Lemma flatten_render (groups : list (list string)) :
  flatten (map render groups) = render (concat groups).
Proof.
  induction groups as [|g groups IH]; [done|].
  simpl. rewrite render_app, <- IH. done.
Qed.

Lemma split_ne (sep : ascii) (s : string) : split sep s <> [].
Proof.
  induction s as [|c s IH]; simpl; [done|].
  destruct (Ascii.eqb c sep); [done|]. by destruct (split sep s).
Qed.

Lemma render_split (text : string) : render (split " " text) = text +:+ " ".
Proof.
  induction text as [|c s IH]; [done|].
  simpl. destruct (Ascii.eqb_spec c " ") as [->|Hc].
  - change ("" :: split " " s) with ([""] ++ split " " s).
    rewrite render_app, IH. done.
  - destruct (split " " s) as [|h t] eqn:E; [by apply split_ne in E|].
    change (String c h :: t) with ([String c h] ++ t).
    change (h :: t) with ([h] ++ t) in IH.
    rewrite render_app. rewrite render_app in IH.
    change (render [String c h]) with (String c (render [h])).
    change (String c (render [h]) +:+ render t)
      with (String c (render [h] +:+ render t)).
    by rewrite IH.
Qed.

(** [X17]: the wrapped lines of a text, put end to end, are the text
    followed by one blank: wrapping drops no character, adds none but that
    blank, and keeps the order. *)
Theorem wrap_loses_nothing (win : Window) (text : string) :
  flatten (wrap win text) = text +:+ " ".
Proof.
  unfold wrap.
  destruct (wrapWords_groups win (words text) (words_ne text))
    as (groups & _ & Hcat & ->).
  rewrite flatten_render, Hcat. apply render_split.
Qed.

(** *** The wrap is a greedy fill *)

Lemma truthy_render (g : list string) : g <> [] -> truthy (render g) = true.
Proof.
  intros Hg. unfold truthy.
  by apply negb_true_iff, String.eqb_neq, render_ne.
Qed.

Lemma head_snoc (g : list string) (w : string) :
  g <> [] -> head (g ++ [w]) = head g.
Proof. by destruct g. Qed.

Lemma wrapStep_tight (win : Window) (seen : list string)
  (st : list string * string) (w : string) :
  tight win seen st -> tight win (seen ++ [w]) (wrapStep win st w).
Proof.
  intros [[-> ->] | (gs & g & Hg & Hgs & Hcat & -> & Hfit & Hbr)]; right.
  - exists [], [w]. rewrite wrapStep_empty_cur.
    split; [done|]. split; [done|]. split; [done|]. split; [done|]. split.
    + apply Forall_singleton. by left.
    + intros i g1 g2 w0 _ H2 _. by destruct i.
  - unfold wrapStep. rewrite (truthy_render g Hg), andb_true_r.
    destruct (textWidth win (render g +:+ w +:+ " ") >? maxW win) eqn:Hgt.
    + exists (gs ++ [g]), [w].
      split; [done|]. split.
      { apply Forall_app. split; [done|]. by apply Forall_singleton. }
      split. { by rewrite concat_app, Hcat. }
      split. { by rewrite (map_app _ (gs ++ [g]) [[w]]). }
      split.
      { apply Forall_app. split; [done|]. apply Forall_singleton. by left. }
      intros i g1 g2 w0 H1 H2 Hh.
      destruct (Nat.lt_trichotomy (S i) (length (gs ++ [g])))
        as [Hlt|[Heq|Hgt']].
      * rewrite lookup_app_l in H1 by lia.
        rewrite lookup_app_l in H2 by lia.
        by apply (Hbr i g1 g2 w0).
      * rewrite lookup_app_r in H2 by lia.
        replace (S i - length (gs ++ [g]))%nat with 0%nat in H2 by lia.
        injection H2 as <-. injection Hh as <-.
        rewrite lookup_app_l in H1 by lia.
        rewrite length_app in Heq. simpl in Heq.
        rewrite lookup_app_r in H1 by lia.
        replace (i - length gs)%nat with 0%nat in H1 by lia.
        injection H1 as <-. by apply Z.gtb_lt.
      * rewrite lookup_ge_None_2 in H2; [done|].
        rewrite length_app. simpl. lia.
    + exists gs, (g ++ [w]).
      split. { by destruct g. }
      split; [done|]. split.
      { rewrite !concat_app in *. simpl in *.
        rewrite !app_nil_r in *. by rewrite app_assoc, Hcat. }
      split.
      { rewrite !map_app. simpl. rewrite insert_last.
        by rewrite render_snoc. }
      apply Forall_app in Hfit as [Hfit _]. split.
      { apply Forall_app. split; [done|]. apply Forall_singleton. right.
        rewrite render_snoc. rewrite Z.gtb_ltb in Hgt.
        by apply Z.ltb_ge in Hgt. }
      intros i g1 g2 w0 H1 H2 Hh.
      destruct (Nat.lt_trichotomy (S i) (length gs)) as [Hlt|[Heq|Hgt']].
      * rewrite lookup_app_l in H1 by lia.
        rewrite lookup_app_l in H2 by lia.
        apply (Hbr i g1 g2 w0); [| |done]; by rewrite lookup_app_l by lia.
      * rewrite lookup_app_l in H1 by lia.
        rewrite lookup_app_r in H2 by lia.
        replace (S i - length gs)%nat with 0%nat in H2 by lia.
        injection H2 as <-. rewrite head_snoc in Hh by done.
        apply (Hbr i g1 g w0); [by rewrite lookup_app_l by lia| |done].
        rewrite lookup_app_r by lia.
        by replace (S i - length gs)%nat with 0%nat by lia.
      * rewrite lookup_ge_None_2 in H2; [done|].
        rewrite length_app. simpl. lia.
Qed.

Lemma wrapFrom_tight (win : Window) (ws seen : list string)
  (st : list string * string) :
  tight win seen st -> tight win (seen ++ ws) (wrapFrom win st ws).
Proof.
  revert seen st. induction ws as [|w ws IH]; intros seen st H.
  - by rewrite app_nil_r.
  - change (wrapFrom win st (w :: ws))
      with (wrapFrom win (wrapStep win st w) ws).
    replace (seen ++ w :: ws) with ((seen ++ [w]) ++ ws)
      by by rewrite <- app_assoc.
    by apply IH, wrapStep_tight.
Qed.

Lemma wrap_tight (win : Window) (text : string) :
  exists groups : list (list string),
    Forall (fun g => g <> []) groups /\
    concat groups = words text /\
    wrap win text = map render groups /\
    Forall (fitsOrSingle win) groups /\
    breaksForced win groups.
Proof.
  pose proof (wrapFrom_tight win (words text) [] ([""], "")
                (or_introl (conj eq_refl eq_refl))) as H.
  simpl in H.
  destruct H as [[Hws _] | (gs & g & Hg & Hgs & Hcat & Hst & Hfit & Hbr)].
  { by apply words_ne in Hws. }
  exists (gs ++ [g]). split.
  { apply Forall_app. split; [done|]. by apply Forall_singleton. }
  split; [done|]. split; [|done].
  unfold wrap, wrapWords. by rewrite Hst.
Qed.

(** [X18]: a wrapped line is wider than the text area only if it holds a
    single word: every line either fits, or is one word of the text
    followed by a blank. *)
Theorem wrap_lines_fit_or_hold_one_word (win : Window) (text : string) :
  Forall (fun l => textWidth win l <= maxW win \/
                   exists w, w ∈ words text /\ l = w +:+ " ")
    (wrap win text).
Proof.
  destruct (wrap_tight win text) as (groups & _ & Hcat & -> & Hfit & _).
  rewrite <- Hcat. clear Hcat.
  induction Hfit as [|g groups Hg _ IH]; [constructor|].
  simpl. constructor.
  - destruct Hg as [Hone|Hle]; [|by left]. right.
    destruct g as [|w [|? ?]]; try discriminate Hone.
    exists w. split; [apply list_elem_of_here | done].
  - eapply Forall_impl; [exact IH|].
    intros l [Hl|(w & Hw & ->)]; [by left|]. right. exists w.
    split; [|done]. apply elem_of_app. by right.
Qed.

(** [X19]: the wrap breaks a line only when it must: the lines are the
    words of the text cut into consecutive non-empty groups, and the first
    word of every group but the first, added to the line before it, would
    have made that line wider than the text area. *)
Theorem wrap_breaks_only_when_forced (win : Window) (text : string) :
  exists groups : list (list string),
    Forall (fun g => g <> []) groups /\
    concat groups = words text /\
    wrap win text = map render groups /\
    forall (i : nat) (g1 g2 : list string) (w : string),
      groups !! i = Some g1 -> groups !! S i = Some g2 -> head g2 = Some w ->
      maxW win < textWidth win (render g1 +:+ w +:+ " ").
Proof.
  destruct (wrap_tight win text) as (groups & H1 & H2 & H3 & _ & H5).
  by exists groups.
Qed.

Import Samples.

Lemma wrap_breaks_only_when_forced_witness :
  exists groups : list (list string),
    Forall (fun g => g <> []) groups /\
    concat groups = words "a bc supercalifragilistic d e  f" /\
    wrap win10 "a bc supercalifragilistic d e  f" = map render groups /\
    forall (i : nat) (g1 g2 : list string) (w : string),
      groups !! i = Some g1 -> groups !! S i = Some g2 -> head g2 = Some w ->
      maxW win10 < textWidth win10 (render g1 +:+ w +:+ " ").
Proof.
  exact (wrap_breaks_only_when_forced win10
           "a bc supercalifragilistic d e  f").
Defined.

(** *** The shape of the pages *)

Lemma paginate_lookup (win : Window) (lines : list string) (k : nat) :
  paginate win lines !! k =
    if (k * Z.to_nat (linesPerPage win) <? length lines)%nat
    then Some (take (Z.to_nat (linesPerPage win))
                 (drop (k * Z.to_nat (linesPerPage win)) lines))
    else None.
Proof.
  unfold paginate.
  pose proof (linesPerPage_pos win).
  by rewrite pagesLoop_lookup by lia.
Qed.

Lemma paginate_page (win : Window) (lines p : list string) (k : nat) :
  paginate win lines !! k = Some p ->
  (k * Z.to_nat (linesPerPage win) < length lines)%nat /\
  length p = Nat.min (Z.to_nat (linesPerPage win))
               (length lines - k * Z.to_nat (linesPerPage win)).
Proof.
  rewrite paginate_lookup.
  destruct (Nat.ltb_spec (k * Z.to_nat (linesPerPage win)) (length lines));
    [|done].
  intros [= <-]. split; [done|]. by rewrite length_take, length_drop.
Qed.

Lemma paginate_pages_shape_page (win : Window) (lines p : list string)
  (k : nat) :
  paginate win lines !! k = Some p ->
  (length p <= Z.to_nat (linesPerPage win))%nat.
Proof. intros Hk. apply paginate_page in Hk as [_ ->]. lia. Qed.

(** [X20]: for a positive line height, the pages of a list of lines are
    never empty and never longer than [linesPerPage]; every page but the
    last holds exactly [linesPerPage] lines; and there are as many pages
    as the number of lines divided by [linesPerPage], rounded up. *)
Theorem paginate_pages_shape (win : Window) (lines : list string) :
  0 < lineHeight win ->
  let n := Z.to_nat (linesPerPage win) in
  let pages := paginate win lines in
  Forall (fun p => p <> [] /\ (length p <= n)%nat) pages /\
  Forall (fun p => length p = n) (take (length pages - 1) pages) /\
  length pages = ((length lines + n - 1) / n)%nat.
Proof.
  intros _ n pages.
  pose proof (linesPerPage_pos win) as Hpos.
  assert (Hn : (1 <= n)%nat) by (unfold n; lia).
  assert (Hlook : forall k : nat,
             pages !! k =
               if (k * n <? length lines)%nat
               then Some (take n (drop (k * n) lines)) else None)
    by (intros k; apply paginate_lookup).
  assert (Hpage : forall (k : nat) (p : list string),
             pages !! k = Some p ->
             (k * n < length lines)%nat /\
             length p = Nat.min n (length lines - k * n))
    by (intros k p; apply paginate_page).
  clearbody pages n.
  split; [|split].
  - apply Forall_lookup. intros k p Hk.
    apply Hpage in Hk as [Hlt Hlen].
    split; [|lia]. intros ->. simpl in Hlen. lia.
  - apply Forall_lookup. intros k p Hk.
    apply lookup_take_Some in Hk as [Hk Hlt].
    assert (Hnext : is_Some (pages !! S k)) by (apply lookup_lt_is_Some; lia).
    destruct Hnext as [q Hq].
    apply Hpage in Hk as [_ Hlen].
    apply Hpage in Hq as [Hq _].
    simpl in Hq. lia.
  - assert (Hend : pages !! length pages = None)
      by (apply lookup_ge_None_2; lia).
    rewrite Hlook in Hend.
    destruct (Nat.ltb_spec (length pages * n) (length lines)) as [|Hup];
      [done|].
    destruct (length pages) as [|m] eqn:E.
    + assert (length lines = 0)%nat as -> by lia.
      simpl. symmetry. apply Nat.div_small. lia.
    + assert (Hlast : is_Some (pages !! m))
        by (apply lookup_lt_is_Some; lia).
      destruct Hlast as [q Hq].
      apply Hpage in Hq as [Hq _].
      apply (Nat.div_unique _ _ _ (length lines + n - 1 - n * S m)); nia.
Qed.

Lemma paginate_pages_shape_witness :
  Forall (fun p => p <> [] /\ (length p <= 3)%nat)
    (paginate win10 ["a "; "b "; "c "; "d "]) /\
  Forall (fun p => length p = 3%nat)
    (take (length (paginate win10 ["a "; "b "; "c "; "d "]) - 1)
       (paginate win10 ["a "; "b "; "c "; "d "])) /\
  length (paginate win10 ["a "; "b "; "c "; "d "]) = 2%nat.
Proof.
  exact (paginate_pages_shape win10 ["a "; "b "; "c "; "d "] eq_refl).
Defined.

(** *** Turning pages *)

Lemma update_pages (active back forth : bool) (d : Desc) :
  _pages (update active back forth d) = _pages d.
Proof.
  unfold update.
  destruct (negb active || (length (_pages d) <? 2)%nat); [done|].
  destruct (back && (0 <? _pageIdx d)%nat); simpl;
    by destruct (forth && _).
Qed.

Lemma update_in_range (active back forth : bool) (d : Desc) :
  (_pageIdx d < length (_pages d))%nat ->
  (_pageIdx (update active back forth d) < length (_pages d))%nat.
Proof.
  intros Hd. unfold update.
  destruct (negb active || (length (_pages d) <? 2)%nat); [done|].
  destruct back, forth; simpl;
    repeat (match goal with
            | |- context [(?a <? ?b)%nat] =>
                destruct (Nat.ltb_spec a b); simpl
            end); lia.
Qed.

Lemma updates_in_range (inputs : list (bool * bool * bool)) (d : Desc) :
  (_pageIdx d < length (_pages d))%nat ->
  _pages (updates inputs d) = _pages d /\
  (_pageIdx (updates inputs d) < length (_pages d))%nat.
Proof.
  revert d. induction inputs as [|[[a b] f] inputs IH]; intros d Hd; [done|].
  change (updates ((a, b, f) :: inputs) d)
    with (updates inputs (update a b f d)).
  pose proof (update_pages a b f d) as Hp.
  pose proof (update_in_range a b f d Hd) as Hi.
  destruct (IH (update a b f d)) as [H1 H2]; [by rewrite Hp|].
  rewrite Hp in H1, H2. done.
Qed.

Lemma wrap_ne (win : Window) (text : string) : wrap win text <> [].
Proof.
  destruct (wrap_tight win text) as (groups & _ & Hcat & -> & _).
  intros Hnil. apply map_eq_nil in Hnil. subst groups.
  by apply (words_ne text).
Qed.

Lemma setText_has_a_page (win : Window) (text : string) :
  (_pageIdx (setText win text) < length (_pages (setText win text)))%nat.
Proof.
  unfold setText. cbn [_pages _pageIdx].
  apply lookup_lt_is_Some. rewrite paginate_lookup.
  rewrite Nat.mul_0_l.
  pose proof (wrap_ne win text) as Hne.
  destruct (Nat.ltb_spec 0 (length (wrap win text))) as [|Hle]; [done|].
  destruct (wrap win text) as [|x l]; [congruence | simpl in Hle; lia].
Qed.

(** [X21]: after [setText], whatever page-turning inputs follow, the pages
    stay the ones [setText] made and the current page is always one of
    them; turning back on the first page, or forth on the last one, leaves
    the window as it is. *)
Theorem page_turning_stays_on_a_page
  (win : Window) (text : string) (inputs : list (bool * bool * bool)) :
  let d := updates inputs (setText win text) in
  _pages d = _pages (setText win text) /\
  is_Some (_pages d !! _pageIdx d) /\
  (forall pages : list (list string),
      update true true false (mkDesc pages 0) = mkDesc pages 0) /\
  (forall pages : list (list string),
      update true false true (mkDesc pages (length pages - 1)) =
        mkDesc pages (length pages - 1)).
Proof.
  intros d.
  destruct (updates_in_range inputs (setText win text)
              (setText_has_a_page win text)) as [H1 H2].
  fold d in H1, H2. split; [done|]. split.
  { apply lookup_lt_is_Some. by rewrite H1. }
  split.
  - intros pages. unfold update. simpl.
    by destruct (length pages <? 2)%nat.
  - intros pages. unfold update. simpl.
    destruct (length pages <? 2)%nat; [done|].
    by rewrite Nat.ltb_irrefl.
Qed.

(** *** What [refresh] draws *)

Lemma drawLines_all (win : Window) (page : list string) (i : nat) :
  0 < lineHeight win ->
  (Z.of_nat (i + length page) + 1) * lineHeight win <= contentsHeight win ->
  drawLines win page i =
    imap (fun j l => DrawText l (textPadding win)
                       (Z.of_nat (i + j) * lineHeight win)
                       (contentsWidth win - textPadding win * 2)) page.
Proof.
  intros Hlh. revert i. induction page as [|l page IH]; intros i Hfit; [done|].
  simpl in *.
  destruct (Z.gtb_spec (Z.of_nat i * lineHeight win + lineHeight win)
              (contentsHeight win - lineHeight win)) as [Hgt|_]; [nia|].
  rewrite Nat.add_0_r. f_equal.
  rewrite IH by (replace (S i + length page)%nat
                   with (i + S (length page))%nat by lia; done).
  apply imap_ext. intros j x _. simpl. do 2 f_equal. lia.
Qed.

Lemma drawLines_none (win : Window) (page : list string) :
  0 < lineHeight win ->
  contentsHeight win < 2 * lineHeight win ->
  drawLines win page 0 = [].
Proof.
  intros Hlh Hshort. destruct page as [|l page]; [done|].
  cbn [drawLines].
  destruct (Z.gtb_spec (Z.of_nat 0 * lineHeight win + lineHeight win)
              (contentsHeight win - lineHeight win)); [done|lia].
Qed.

(** [X22]: after [setText] and any page turning, [refresh] draws every
    line of the current page, line [j] at height [j * lineHeight], when the
    contents are at least two lines high; when they are lower than two
    lines it draws no line of the text at all.  In both cases the page
    indicator follows exactly when there is more than one page. *)
Theorem refresh_draws_the_whole_page_or_nothing
  (win : Window) (text : string) (inputs : list (bool * bool * bool)) :
  0 < lineHeight win ->
  let d := updates inputs (setText win text) in
  let indicator :=
    if (1 <? length (_pages d))%nat
    then [DrawIndicator (_pageIdx d + 1) (length (_pages d))
            (textPadding win) (contentsHeight win - lineHeight win)
            (contentsWidth win - textPadding win * 2)]
    else [] in
  (2 * lineHeight win <= contentsHeight win ->
   refresh win d =
     imap (fun j l => DrawText l (textPadding win)
                        (Z.of_nat j * lineHeight win)
                        (contentsWidth win - textPadding win * 2))
       (default [] (_pages d !! _pageIdx d)) ++ indicator) /\
  (contentsHeight win < 2 * lineHeight win -> refresh win d = indicator).
Proof.
  intros Hlh d indicator.
  destruct (updates_in_range inputs (setText win text)
              (setText_has_a_page win text)) as [Hp _].
  fold d in Hp. unfold refresh. fold indicator. split.
  - intros Htall. f_equal.
    rewrite drawLines_all; [done|done|].
    destruct (_pages d !! _pageIdx d) as [page|] eqn:E; simpl; [|lia].
    rewrite Hp in E. simpl in E.
    pose proof (paginate_pages_shape_page win (wrap win text) page
                  (_pageIdx d) E) as Hlen.
    assert (Hn : linesPerPage win = contentsHeight win / lineHeight win - 1).
    { unfold linesPerPage.
      assert (2 <= contentsHeight win / lineHeight win)
        by (apply Z.div_le_lower_bound; lia).
      lia. }
    pose proof (Z.mul_div_le (contentsHeight win) (lineHeight win) Hlh).
    nia.
  - intros Hshort. by rewrite drawLines_none.
Qed.

(** *** The two wraps agree *)

Lemma autoWrapStep_inStep (win : Window) (x y lh : Z)
  (st : list Draw * string * Z * nat) (ws : list string * string)
  (w : string) :
  inStep x y (maxW win) lh st ws ->
  inStep x y (maxW win) lh (autoWrapStep win x (maxW win) lh st w)
    (wrapStep win ws w).
Proof.
  destruct st as [[[draws line] yy] n]. destruct ws as [lines cur].
  intros (closed & Hl & Hc & Hd & Hy & Hn). simpl in Hl, Hc. subst.
  unfold autoWrapStep, wrapStep. rewrite Hn.
  destruct ((textWidth win (line +:+ w +:+ " ") >? maxW win) && truthy line).
  - exists (closed ++ [line]). simpl.
    split; [done|]. split; [done|]. split.
    { rewrite imap_app. simpl. by rewrite Nat.add_0_r. }
    split.
    { rewrite length_app. simpl. lia. }
    symmetry. apply (truthy_append_blank "" w).
  - exists closed. simpl.
    split; [by rewrite insert_last|]. split; [done|]. split; [done|].
    split; [done|]. symmetry. apply truthy_append_blank.
Qed.

Lemma autoWrap_fold_inStep (win : Window) (x y lh : Z) (ws : list string)
  (st : list Draw * string * Z * nat) (wst : list string * string) :
  inStep x y (maxW win) lh st wst ->
  inStep x y (maxW win) lh
    (fold_left (autoWrapStep win x (maxW win) lh) ws st)
    (wrapFrom win wst ws).
Proof.
  revert st wst. induction ws as [|w ws IH]; intros st wst H; [done|].
  change (wrapFrom win wst (w :: ws))
    with (wrapFrom win (wrapStep win wst w) ws).
  cbn [fold_left]. by apply IH, autoWrapStep_inStep.
Qed.

(** [X23]: given the width that [setText] wraps to, [drawTextAutoWrap]
    draws exactly the lines that [setText] produces for the same text, in
    order, line [i] at height [y + i * lineHeight]: the two wrapping loops
    of the file agree. *)
Theorem drawTextAutoWrap_draws_the_wrap
  (win : Window) (text : string) (x y maxWidth lh : Z) :
  maxWidth = maxW win ->
  drawTextAutoWrap win text x y maxWidth lh =
    imap (fun i l => DrawText l x (y + Z.of_nat i * lh) maxWidth)
      (wrap win text).
Proof.
  intros ->. unfold drawTextAutoWrap, wrap, wrapWords, words.
  assert (H0 : inStep x y (maxW win) lh ([], "", y, 0%nat) ([""], "")).
  { exists []. simpl. repeat split. lia. }
  pose proof (autoWrap_fold_inStep win x y lh (split " " text)
                ([], "", y, 0%nat) ([""], "") H0) as H.
  destruct (fold_left _ _ _) as [[[draws line] yy] n].
  destruct H as (closed & Hl & _ & Hd & Hy & _).
  rewrite Hl, imap_app, Hd, Hy. simpl. by rewrite Nat.add_0_r.
Qed.

Lemma drawTextAutoWrap_draws_the_wrap_witness :
  drawTextAutoWrap win10 "a bc supercalifragilistic d e  f" 4 7 50 10 =
    imap (fun i l => DrawText l 4 (7 + Z.of_nat i * 10) 50)
      (wrap win10 "a bc supercalifragilistic d e  f").
Proof.
  apply (drawTextAutoWrap_draws_the_wrap win10
           "a bc supercalifragilistic d e  f" 4 7 50 10).
  reflexivity.
Defined.

Lemma refresh_draws_the_whole_page_or_nothing_witness :
  refresh win10
    (updates [(true, false, true)]
       (setText win10 "a bc supercalifragilistic d e  f")) =
  imap (fun j l => DrawText l (textPadding win10)
                     (Z.of_nat j * lineHeight win10)
                     (contentsWidth win10 - textPadding win10 * 2))
    (default []
       (_pages (updates [(true, false, true)]
                  (setText win10 "a bc supercalifragilistic d e  f")) !!
        _pageIdx (updates [(true, false, true)]
                    (setText win10 "a bc supercalifragilistic d e  f")))) ++
  (if (1 <? length
              (_pages (updates [(true, false, true)]
                         (setText win10
                            "a bc supercalifragilistic d e  f"))))%nat
   then [DrawIndicator
           (_pageIdx (updates [(true, false, true)]
                        (setText win10
                           "a bc supercalifragilistic d e  f")) + 1)
           (length (_pages (updates [(true, false, true)]
                              (setText win10
                                 "a bc supercalifragilistic d e  f"))))
           (textPadding win10) (contentsHeight win10 - lineHeight win10)
           (contentsWidth win10 - textPadding win10 * 2)]
   else []).
Proof.
  apply (proj1 (refresh_draws_the_whole_page_or_nothing win10
                  "a bc supercalifragilistic d e  f" [(true, false, true)]
                  eq_refl)).
  discriminate.
Defined.

(** The same, evaluated: the second page holds one line, drawn at the
    top, and the indicator says page 2 of 2. *)
Example refresh_sample :
  refresh win10
    (updates [(true, false, true)]
       (setText win10 "a bc supercalifragilistic d e  f")) =
  [DrawText "f " 0 0 50; DrawIndicator 2 2 0 30 50].
Proof. reflexivity. Qed.

End PaginatorMore.

(** ** The scrolled view and the scene *)

Module ViewFacts.
Import JsString Parser Paginator Samples.

Lemma details_update_inv (win : Window) (active down up : bool)
  (d : Details.Details) :
  0 <= lineHeight win ->
  0 <= Details._scrollY d ->
  Details._scrollY d + contentsHeight win <= Details.bitmapHeight d ->
  Details.spriteY d = textPadding win - Details._scrollY d ->
  Details.bitmapHeight d
    = Z.max (Details._textHeight d) (contentsHeight win) ->
  let d' := Details.update win active down up d in
  0 <= Details._scrollY d' /\
  Details._scrollY d' + contentsHeight win <= Details.bitmapHeight d' /\
  Details.spriteY d' = textPadding win - Details._scrollY d' /\
  Details.bitmapHeight d'
    = Z.max (Details._textHeight d') (contentsHeight win) /\
  Details._textHeight d' = Details._textHeight d /\
  Details._text d' = Details._text d.
Proof.
  intros Hlh H0 Hfit Hsp Hb d'. unfold d', Details.update.
  destruct active; simpl; [|done].
  destruct (Z.gtb_spec (Details._textHeight d) (contentsHeight win));
    [|done].
  destruct down, up; simpl; repeat split; try done; lia.
Qed.

Lemma details_updates_inv (win : Window)
  (inputs : list (bool * bool * bool)) (d1 : Details.Details) :
  0 <= lineHeight win ->
  0 <= Details._scrollY d1 ->
  Details._scrollY d1 + contentsHeight win <= Details.bitmapHeight d1 ->
  Details.spriteY d1 = textPadding win - Details._scrollY d1 ->
  Details.bitmapHeight d1
    = Z.max (Details._textHeight d1) (contentsHeight win) ->
  let d := Details.updates win inputs d1 in
  0 <= Details._scrollY d /\
  Details._scrollY d + contentsHeight win <= Details.bitmapHeight d /\
  Details.spriteY d = textPadding win - Details._scrollY d /\
  Details._textHeight d = Details._textHeight d1 /\
  Details._text d = Details._text d1.
Proof.
  intros Hlh. revert d1.
  induction inputs as [|[[a dn] up] inputs IH]; intros d1 Ha Hb Hc Hd;
    [done|].
  change (Details.updates win ((a, dn, up) :: inputs) d1)
    with (Details.updates win inputs (Details.update win a dn up d1)).
  destruct (details_update_inv win a dn up d1 Hlh Ha Hb Hc Hd)
    as (Ha' & Hb' & Hc' & Hd' & He' & Hf').
  destruct (IH (Details.update win a dn up d1) Ha' Hb' Hc' Hd')
    as (I1 & I2 & I3 & I4 & I5).
  rewrite He' in I4. rewrite Hf' in I5. done.
Qed.

(** [X24]: in the details window, for a line height that is not negative,
    after [setNpcData] and any scrolling the view stays on the contents
    bitmap: the scroll offset is never negative and the offset plus the
    height of the view never passes the height of the bitmap; the sprite
    sits at the padding less the offset; scrolling changes neither the
    text nor its measured height. *)
Theorem details_view_stays_on_the_bitmap
  (win : Window) (faceHeight : Z) (faceName : string) (faceIndex : jsnum)
  (text name category : string) (d0 : Details.Details)
  (inputs : list (bool * bool * bool)) :
  0 <= lineHeight win ->
  let d1 := Details.setNpcData win faceHeight faceName faceIndex text name
              category d0 in
  let d := Details.updates win inputs d1 in
  0 <= Details._scrollY d /\
  Details._scrollY d + contentsHeight win <= Details.bitmapHeight d /\
  Details.spriteY d = textPadding win - Details._scrollY d /\
  Details._textHeight d = Details._textHeight d1 /\
  Details._text d = text.
Proof.
  intros Hlh d1 d.
  apply (details_updates_inv win inputs d1 Hlh); unfold d1; simpl; lia.
Qed.

Lemma details_view_stays_on_the_bitmap_witness :
  0 <= Details._scrollY
         (Details.updates win10
            [(true, true, false); (true, true, false); (true, false, true)]
            (Details.setNpcData win10 144 "" (Num 0)
               "a bc supercalifragilistic d e  f g h" "" ""
               (Details.mkDetails "" "" (Num 0) "" "" 0 0 0 0))) /\
  Details._scrollY
    (Details.updates win10
       [(true, true, false); (true, true, false); (true, false, true)]
       (Details.setNpcData win10 144 "" (Num 0)
          "a bc supercalifragilistic d e  f g h" "" ""
          (Details.mkDetails "" "" (Num 0) "" "" 0 0 0 0)))
  + contentsHeight win10 <=
  Details.bitmapHeight
    (Details.updates win10
       [(true, true, false); (true, true, false); (true, false, true)]
       (Details.setNpcData win10 144 "" (Num 0)
          "a bc supercalifragilistic d e  f g h" "" ""
          (Details.mkDetails "" "" (Num 0) "" "" 0 0 0 0))).
Proof.
  destruct (details_view_stays_on_the_bitmap win10 144 "" (Num 0)
              "a bc supercalifragilistic d e  f g h" "" ""
              (Details.mkDetails "" "" (Num 0) "" "" 0 0 0 0)
              [(true, true, false); (true, true, false); (true, false, true)])
    as (H1 & H2 & _).
  - discriminate.
  - split; [exact H1 | exact H2].
Defined.

(** The text above makes five lines of 10 pixels in a view of 40: two
    scrolls down reach the bottom at offset 10, one up returns to 0. *)
Example details_scroll_sample :
  Details._textHeight
    (Details.setNpcData win10 144 "" (Num 0)
       "a bc supercalifragilistic d e  f g h" "" ""
       (Details.mkDetails "" "" (Num 0) "" "" 0 0 0 0)) = 50 /\
  Details._scrollY
    (Details.updates win10 [(true, true, false); (true, true, false)]
       (Details.setNpcData win10 144 "" (Num 0)
          "a bc supercalifragilistic d e  f g h" "" ""
          (Details.mkDetails "" "" (Num 0) "" "" 0 0 0 0))) = 10 /\
  Details._scrollY
    (Details.updates win10
       [(true, true, false); (true, true, false); (true, false, true)]
       (Details.setNpcData win10 144 "" (Num 0)
          "a bc supercalifragilistic d e  f g h" "" ""
          (Details.mkDetails "" "" (Num 0) "" "" 0 0 0 0))) = 0.
Proof. repeat split. Qed.

(** [X25]: [onItemOk] ends normally exactly when the index of the list
    window points at a record: it then shows that record, its notes laid
    out from page 0, and switches to the details; with a negative index or
    one past the end of the list, and so always on an empty list, it
    throws a [TypeError] and changes nothing. *)
Theorem onItemOk_needs_a_selected_record (win : Window) (sc : Scene.Scene) :
  (0 <= Scene.index sc < Z.of_nat (length (Scene._data sc)) ->
   exists data : Npc,
     Scene._data sc !! Z.to_nat (Scene.index sc) = Some data /\
     Scene.onItemOk win sc =
       Scene.Done
         (Scene.mkScene (Scene._data sc) (Scene.index sc)
            (Scene.listActive sc)
            (Scene.mkHeader (faceName data) (faceIndex data) (name data)
               (category data) (iconIndexes data))
            (setText win (notes data)) true true)) /\
  (~ (0 <= Scene.index sc < Z.of_nat (length (Scene._data sc))) ->
   Scene.onItemOk win sc = Scene.TypeError) /\
  (Scene._data sc = [] -> Scene.onItemOk win sc = Scene.TypeError).
Proof.
  assert (Hout : ~ (0 <= Scene.index sc
                    < Z.of_nat (length (Scene._data sc))) ->
                 Scene.onItemOk win sc = Scene.TypeError).
  { intros Hnot. unfold Scene.onItemOk, Scene.item.
    destruct (Z.geb_spec (Scene.index sc) 0) as [Hge|Hlt]; [|done].
    rewrite lookup_ge_None_2; [done|]. lia. }
  split; [|split; [done|]].
  - intros [Hge Hlt].
    assert (Hsome : is_Some (Scene._data sc !! Z.to_nat (Scene.index sc)))
      by (apply lookup_lt_is_Some; lia).
    destruct Hsome as [data Hdata]. exists data. split; [done|].
    unfold Scene.onItemOk, Scene.item.
    destruct (Z.geb_spec (Scene.index sc) 0); [|lia].
    by rewrite Hdata.
  - intros Hnil. apply Hout. rewrite Hnil. simpl. lia.
Qed.

Lemma onItemOk_needs_a_selected_record_witness :
  (exists data : Npc,
      [ann; bob] !! Z.to_nat 1 = Some data /\
      Scene.onItemOk win10
        (Scene.mkScene [ann; bob] 1 false
           (Scene.mkHeader "" (Num 0) "" "" []) (mkDesc [] 0) false false) =
      Scene.Done
        (Scene.mkScene [ann; bob] 1 false
           (Scene.mkHeader (faceName data) (faceIndex data) (name data)
              (category data) (iconIndexes data))
           (setText win10 (notes data)) true true)) /\
  Scene.onItemOk win10
    (Scene.mkScene [] 0 true
       (Scene.mkHeader "" (Num 0) "" "" []) (mkDesc [] 0) false false)
    = Scene.TypeError.
Proof.
  split.
  - apply (proj1 (onItemOk_needs_a_selected_record win10
                    (Scene.mkScene [ann; bob] 1 false
                       (Scene.mkHeader "" (Num 0) "" "" []) (mkDesc [] 0)
                       false false))).
    simpl. lia.
  - apply (proj2 (proj2 (onItemOk_needs_a_selected_record win10
                           (Scene.mkScene [] 0 true
                              (Scene.mkHeader "" (Num 0) "" "" [])
                              (mkDesc [] 0) false false)))).
    reflexivity.
Defined.

End ViewFacts.

(** ** The plugin commands over a whole game *)

Module DispatcherFacts.
Import JsString JsNumber Parser Registry ParserShape Dispatcher.
Import RegistryFacts RegistryMore.

Section WithCallback.
Context {Callback : Type}.
Implicit Types (gs : @GameSystem Callback) (sys : @Sys Callback).

Lemma parse_wellFormed (cmds : list Command) (wantedId : option string) :
  Forall wellFormed (parseNpcBlocks cmds wantedId).
Proof.
  pose proof (parse_emittable cmds wantedId) as HE.
  pose proof (ParserMore.parse_tidy cmds wantedId) as HT.
  rewrite Forall_forall in HE, HT. apply Forall_forall. intros r Hr.
  destruct (HE r Hr) as (H1 & H2 & H3 & _).
  repeat split; try done; by apply HT.
Qed.

Lemma upsert_sound gs (n : Npc) :
  wellFormed n -> sound gs -> sound (upsert n gs).
Proof.
  intros Hn [HN HF]. split; [by apply upsert_NoDup|].
  destruct (upsert_list_cases gs n) as [(k & e & _ & ->) | [_ ->]].
  - by apply Forall_insert.
  - apply Forall_app. split; [done|]. by apply Forall_singleton.
Qed.

Lemma removeId_sound gs (i : JsId) : sound gs -> sound (snd (removeId i gs)).
Proof.
  intros [HN HF]. split; [by apply removeId_NoDup|].
  rewrite removeId_list. rewrite Forall_forall in HF. apply Forall_forall.
  intros e He. apply list_elem_of_filter in He as [_ He]. by apply HF.
Qed.

Lemma upsertAll_sound (ns : list Npc) gs :
  Forall wellFormed ns -> sound gs -> sound (upsertAll ns gs).
Proof.
  intros Hns. revert gs. induction Hns as [|n ns Hn _ IH]; intros gs Hs;
    [done|].
  change (upsertAll (n :: ns) gs) with (upsertAll ns (upsert n gs)).
  by apply IH, upsert_sound.
Qed.

Lemma AddPersonalToList_sound (args : list string)
  (events : list (list Command)) (page : list Command) gs :
  sound gs -> sound (AddPersonalToList args events page gs).
Proof.
  intros Hs. unfold AddPersonalToList.
  destruct args as [|a args].
  { by apply upsertAll_sound; [apply parse_wellFormed|]. }
  generalize (a :: args). clear a args. intros args.
  revert gs Hs. induction args as [|t args IH]; intros gs Hs; [done|].
  cbn [fold_left]. apply IH. clear IH.
  revert gs Hs. induction events as [|pg events IH]; intros gs Hs; [done|].
  cbn [fold_left]. apply IH.
  by apply upsertAll_sound; [apply parse_wellFormed|].
Qed.

Lemma RemovePersonalFromList_sound (args : list string)
  (page : list Command) gs :
  sound gs -> sound (RemovePersonalFromList args page gs).
Proof.
  intros Hs. apply (RemovePersonalFromList_preserves sound); [|done].
  intros i g. apply removeId_sound.
Qed.

Lemma pluginCommand_sound (command : string) (args : list string)
  (events : list (option (list Command))) (page : option (list Command))
  sys :
  sound (gameSystem sys) ->
  sound (gameSystem (pluginCommand command args events page sys)).
Proof.
  intros Hs. unfold pluginCommand.
  destruct (String.eqb command "EnablePersonalMenu"); [done|].
  destruct (String.eqb command "DisablePersonalMenu"); [done|].
  destruct (String.eqb command "RemovePersonalFromList").
  { destruct args, page; cbn [gameSystem]; try done;
      by apply RemovePersonalFromList_sound. }
  destruct (String.eqb command "AddPersonalToList"); [|done].
  destruct args, page; cbn [gameSystem]; try done;
    by apply AddPersonalToList_sound.
Qed.

Lemma handle_sound (enableInitial : bool) sys (ev : Event) :
  sound (gameSystem sys) ->
  sound (gameSystem (handle enableInitial sys ev)).
Proof.
  intros Hs. destruct ev; simpl.
  - by apply pluginCommand_sound.
  - unfold initSwitch. by destruct (_personalMenuEnabled sys).
  - unfold Scene_Boot_start, initSwitch.
    by destruct (_personalMenuEnabled sys).
Qed.

(** [X26]: in a game that starts with an empty list, whatever plugin
    commands run, with whatever arguments and on whatever event pages, and
    however often the menu is opened, the list only ever holds records as
    the parser emits them, each id once: every record is marked NPC-type,
    has a non-empty name and a non-empty id, text fields without white
    space around them and at most three icon numbers. *)
Theorem commands_keep_the_list_well_formed
  (enableInitial : bool) (evs : list Event)
  (listeners : gmap string (@Listeners Callback))
  (switch : option bool) :
  let sys := play enableInitial evs
               (mkSys (mkGameSystem [] listeners [] []) switch) in
  NoDup (id <$> _personalList (gameSystem sys)) /\
  Forall (fun r => typeIsNPC r = true /\ name r <> "" /\ id r <> "" /\
                   trim (id r) = id r /\ trim (name r) = name r /\
                   trim (category r) = category r /\
                   trim (faceName r) = faceName r /\
                   (length (iconIndexes r) <= 3)%nat /\
                   Forall (fun n => isNaN n = false) (iconIndexes r))
    (_personalList (gameSystem sys)).
Proof.
  intros sys.
  assert (Hs : sound (gameSystem sys)).
  { unfold sys, play.
    assert (H0 : sound (gameSystem
                          (mkSys (mkGameSystem [] listeners [] []) switch)))
      by (split; [apply NoDup_nil_2 | constructor]).
    revert H0. generalize (mkSys (mkGameSystem [] listeners [] []) switch).
    induction evs as [|ev evs IH]; intros s0 H0; [done|].
    cbn [fold_left]. by apply IH, handle_sound. }
  destruct Hs as [HN HF]. split; [done|].
  eapply Forall_impl; [exact HF|].
  intros r (H1 & H2 & H3 & H4). by destruct H4 as (? & ? & ? & ? & ? & ?).
Qed.

(** *** The menu switch *)

Lemma pluginCommand_switch (command : string) (args : list string)
  (events : list (option (list Command))) (page : option (list Command))
  sys :
  _personalMenuEnabled (pluginCommand command args events page sys) =
    if String.eqb command "EnablePersonalMenu" then Some true
    else if String.eqb command "DisablePersonalMenu" then Some false
    else _personalMenuEnabled sys.
Proof.
  unfold pluginCommand.
  destruct (String.eqb command "EnablePersonalMenu"); [done|].
  destruct (String.eqb command "DisablePersonalMenu"); [done|].
  destruct (String.eqb command "RemovePersonalFromList").
  { by destruct args, page. }
  destruct (String.eqb command "AddPersonalToList"); [|done].
  by destruct args, page.
Qed.

Lemma play_snoc (enableInitial : bool) (evs : list Event) (ev : Event) sys :
  play enableInitial (evs ++ [ev]) sys =
    handle enableInitial (play enableInitial evs sys) ev.
Proof. unfold play. by rewrite fold_left_app. Qed.

Lemma play_switch (enableInitial : bool) (evs : list Event) gs :
  _personalMenuEnabled (play enableInitial evs (mkSys gs None)) =
    match lastToggle evs with
    | Some b => Some b
    | None => if switchInitialised evs then Some enableInitial else None
    end.
Proof.
  induction evs as [|ev evs IH] using rev_ind; [done|].
  rewrite play_snoc. unfold lastToggle, switchInitialised in *.
  rewrite fold_left_app, existsb_app. cbn [fold_left existsb].
  destruct ev as [command args events page| |].
  - cbn [handle]. rewrite pluginCommand_switch, IH, orb_false_r.
    destruct (String.eqb command "EnablePersonalMenu"); [done|].
    by destruct (String.eqb command "DisablePersonalMenu").
  - cbn [handle addOriginalCommands fst]. unfold initSwitch.
    rewrite IH, orb_true_r. simpl.
    destruct (fold_left _ evs None); [done|].
    by destruct (existsb _ evs).
  - cbn [handle]. unfold Scene_Boot_start, initSwitch.
    rewrite IH, orb_true_r. simpl.
    destruct (fold_left _ evs None); [done|].
    by destruct (existsb _ evs).
Qed.

Lemma initSwitch_switch (enableInitial : bool) sys :
  _personalMenuEnabled (initSwitch enableInitial sys) =
    Some (default enableInitial (_personalMenuEnabled sys)).
Proof.
  unfold initSwitch.
  destruct (_personalMenuEnabled sys) as [b|] eqn:E; [|done].
  by rewrite E.
Qed.

(** [X27]: start with the switch undefined and let any events happen.
    The menu then shows the entry exactly when the last
    [EnablePersonalMenu] or [DisablePersonalMenu] command was the former
    or, when there was none, when the plugin parameter enables it.  The
    key opens the list under the same condition, except that without such
    a command it does so only once the menu has been opened or the boot
    scene has started: until then the switch is undefined and the key does
    nothing, whatever the parameter says. *)
Theorem menu_entry_follows_the_last_toggle
  (enableInitial : bool) (evs : list Event) gs (key : bool) :
  let sys := play enableInitial evs (mkSys gs None) in
  snd (addOriginalCommands enableInitial sys) =
    default enableInitial (lastToggle evs) /\
  Scene_Map_update key sys =
    key && match lastToggle evs with
           | Some b => b
           | None => switchInitialised evs && enableInitial
           end.
Proof.
  intros sys.
  unfold addOriginalCommands, Scene_Map_update. cbn [snd].
  rewrite initSwitch_switch. unfold sys. rewrite play_switch.
  destruct (lastToggle evs) as [[|]|].
  - by destruct key.
  - by destruct key.
  - by destruct (switchInitialised evs), enableInitial, key.
Qed.

End WithCallback.

End DispatcherFacts.
